(** * Lease-analysis service: pipeline, progress channel, obligation extraction, chat

    A shallow embedding of the route handlers of the lease-analysis
    application and the properties its design document states about them:

    - [ProgressChannel]: the process-wide [progressStore] shared by the upload
      route (producer, [emitProgress]) and the server-sent-events route
      (consumer, the polling interval callback and the abort listener);
    - [Upload]: the [POST] handler of [src/app/api/upload/route.ts];
    - [Obligations]: the response clean-up and parse chain of
      [src/app/api/generate-obligations-csv/route.ts] and of
      [src/app/api/export-obligations/[id]/route.ts];
    - [Chat]: [ChatService] of [src/lib/chat-service-basic.ts] and the [POST]
      handler of [src/app/api/chat/route.ts];
    - [CsvExport], [CsvEndpoint], [CsvUtils]: the CSV writers of the
      obligation routes and of [src/unnamed/part_004], the obligations
      endpoint on any request body, and the reference reader [CsvReader]
      the written texts are read back with;
    - [UploadTrace], [ProgressStream]: the events and external calls of an
      upload as a whole, and the event stream of [src/unnamed/part_001]
      under interleaving;
    - [UploadPage], [ChatHistoryPage]: state updates of
      [src/app/upload/page.tsx] and [src/app/chat-history/page.tsx].

    JavaScript strings are sequences of UTF-16 code units and [.length]
    counts code units, so a string is a [list N] here.  Everything outside a
    handler (identity provider, storage, database, generative model, clock,
    random source) is an oracle: a field of an environment record that fixes
    the outcome of each external call.  Theorems quantify over it. *)

From Stdlib Require Import ZArith NArith List Ascii String DecimalString Bool Lia.
From stdpp Require Import base option list gmap.
Import ListNotations.

Set Default Proof Using "Type".
Local Open Scope nat_scope.

(** ** JavaScript strings *)

Abbreviation char16 := N (only parsing).
Abbreviation jsstring := (list N) (only parsing).

(** A source literal: the code units of an ASCII literal. *)
Definition js (s : string) : jsstring :=
  map N_of_ascii (list_ascii_of_string s).

Definition chr (a : ascii) : N := N_of_ascii a.

Definition str_eqb (a b : jsstring) : bool := bool_decide (a = b).

(** [a || b] on strings: the empty string is falsy. *)
Definition or_str (a b : jsstring) : jsstring :=
  match a with [] => b | _ => a end.

(** [(o as string) || b] where [o] is [null]/[undefined] when absent. *)
Definition opt_or_str (o : option jsstring) (b : jsstring) : jsstring :=
  match o with Some a => or_str a b | None => b end.

(** [s.substring(a, b)]: arguments are clamped to [0, s.length] and swapped
    when [a > b]. *)
Definition substring (s : jsstring) (a b : Z) : jsstring :=
  let len := Z.of_nat (length s) in
  let a' := Z.min (Z.max a 0) len in
  let b' := Z.min (Z.max b 0) len in
  let lo := Z.to_nat (Z.min a' b') in
  let hi := Z.to_nat (Z.max a' b') in
  take (hi - lo) (drop lo s).

(** [s.indexOf(c)] for a one-character needle; [-1] when absent. *)
Fixpoint indexOf (c : N) (s : jsstring) : Z :=
  match s with
  | [] => (-1)%Z
  | x :: s' =>
      if N.eqb x c then 0%Z
      else let i := indexOf c s' in
           if (i =? -1)%Z then (-1)%Z else (i + 1)%Z
  end.

(** [s.lastIndexOf(c)] for a one-character needle; [-1] when absent. *)
Fixpoint lastIndexOf (c : N) (s : jsstring) : Z :=
  match s with
  | [] => (-1)%Z
  | x :: s' =>
      let i := lastIndexOf c s' in
      if (i =? -1)%Z then (if N.eqb x c then 0%Z else (-1)%Z)
      else (i + 1)%Z
  end.

(** [s.split(',')]: never empty; the empty string splits to [['']]. *)
Fixpoint split_on (c : N) (s : jsstring) : list jsstring :=
  match s with
  | [] => [[]]
  | x :: s' =>
      if N.eqb x c then [] :: split_on c s'
      else match split_on c s' with
           | w :: ws => (x :: w) :: ws
           | [] => [[x]]
           end
  end.

(** White space and line terminators removed by [String.prototype.trim]. *)
Definition is_js_space (c : N) : bool :=
  (N.leb 9 c && N.leb c 13
   || N.eqb c 32 || N.eqb c 160 || N.eqb c 5760
   || (N.leb 8192 c && N.leb c 8202)
   || N.eqb c 8232 || N.eqb c 8233 || N.eqb c 8239 || N.eqb c 8287
   || N.eqb c 12288 || N.eqb c 65279)%N.

Fixpoint trimStart (s : jsstring) : jsstring :=
  match s with
  | c :: s' => if is_js_space c then trimStart s' else s
  | [] => []
  end.

Definition trimEnd (s : jsstring) : jsstring := rev (trimStart (rev s)).

Definition trim (s : jsstring) : jsstring := trimEnd (trimStart s).

(** Decimal rendering of a non-negative integer ([String(n)] for an integer
    below 2^53). *)
Definition decimal (n : N) : jsstring :=
  js (NilZero.string_of_uint (N.to_uint n)).

(** ** Values thrown by external calls *)

(** What a [catch] clause can observe of the thrown value: whether it is an
    [Error] instance and its [message] property. *)
Inductive Thrown :=
| ErrorObject (message : jsstring)           (* new Error(message) *)
| OtherThrown (message : option jsstring).   (* any other value; its .message, if a string *)

(** [error?.message]. *)
Definition thrown_message (e : Thrown) : option jsstring :=
  match e with
  | ErrorObject m => Some m
  | OtherThrown m => m
  end.

(** Outcome of an awaited call that may throw. *)
Inductive Outcome (A : Type) :=
| Returned (a : A)
| Threw (e : Thrown).
Arguments Returned {A} a.
Arguments Threw {A} e.

(** Instants of the clock, in milliseconds since the epoch.  [toISOString]
    is an injective rendering of the instant; the model keeps the instant. *)
Abbreviation Instant := N (only parsing).

(** ** Progress events *)

Inductive Status := active | completed | error.

(** The object returned by [handleError(error, context)]. *)
Record ErrorInfo := {
  error_message : jsstring;      (* error: error?.message || 'Unknown error occurred' *)
  error_context : jsstring;      (* context *)
  error_timestamp : Instant      (* timestamp *)
}.

(** The [details] payloads the upload handler attaches to its events, one
    constructor per object shape in the source. *)
Inductive Details :=
| NoDetails                                                (* undefined *)
| UserDetails (userId : jsstring)                          (* { userId } *)
| FormDetails (fileName fileType : option jsstring) (fileSize : option N)
              (leaseType : jsstring) (analysisModes : list jsstring)
| UploadDetails (fileName : jsstring) (fileSize : N)       (* { fileName, fileSize } *)
| PathDetails (path : jsstring)                            (* { path } *)
| ModelDetails (model : jsstring)                          (* { model } *)
| TextLengthDetails (textLength : nat)                     (* { textLength } *)
| ModesDetails (modes : list jsstring) (leaseType : jsstring)
| ResultsDetails (resultsCount : nat) (modesProcessed : list jsstring)
| FileIdDetails (fileId : jsstring)                        (* { fileId } *)
| ErrorDetails (info : ErrorInfo).                         (* handleError(...) *)

(** [progressData]; its constant field [type: 'progress'] is left out. *)
Record ProgressEvent := {
  step : jsstring;
  status : Status;
  details : Details;
  timestamp : Instant
}.

(** ** The progress channel ([global.progressStore]) *)

Module ProgressChannel.

(** [Map<string, any[]>]: only [has], [get], [set] and [delete] are used,
    so the insertion order of the [Map] is not observable. *)
Abbreviation Store := (gmap (list N) (list ProgressEvent)) (only parsing).

(** The body of [emitProgress] once [progressData] is built: create the
    queue if the session has none, then push. *)
Definition publish (sessionId : jsstring) (progressData : ProgressEvent)
    (progressStore : Store) : Store :=
  let progressStore :=
    match progressStore !! sessionId with       (* if (!progressStore.has(sessionId)) *)
    | None => <[sessionId := []]> progressStore (*   progressStore.set(sessionId, []) *)
    | Some _ => progressStore
    end in
  match progressStore !! sessionId with         (* progressStore.get(sessionId)!.push(..) *)
  | Some queue => <[sessionId := queue ++ [progressData]]> progressStore
  | None => progressStore
  end.

(** One run of the interval callback of the event stream while the client
    is connected: the updates it sends, and the store it leaves. *)
Definition drain (sessionId : jsstring) (progressStore : Store)
    : list ProgressEvent * Store :=
  match progressStore !! sessionId with         (* const progress = progressStore.get(sessionId) *)
  | Some progress =>
      if bool_decide (0 < length progress)      (* if (progress && progress.length > 0) *)
      then (progress, <[sessionId := []]> progressStore)
      else ([], progressStore)
  | None => ([], progressStore)
  end.

(** The store effect of the abort listener: [progressStore.delete]. *)
Definition dispose (sessionId : jsstring) (progressStore : Store) : Store :=
  delete sessionId progressStore.

(** The server-sent-events connection of one [GET]. *)
Inductive Message :=
| Connected (sessionId : jsstring)    (* { type: 'connected', sessionId } *)
| Update (update : ProgressEvent).    (* JSON.stringify(update) *)

Record Stream := {
  isConnected : bool;
  closed : bool;
  enqueued : list Message
}.

(** [start(controller)]: the initial message. *)
Definition start (sessionId : jsstring) : Stream :=
  {| isConnected := true; closed := false; enqueued := [Connected sessionId] |}.

(** The interval callback, every 100 ms. *)
Definition tick (sessionId : jsstring) (c : Stream * Store) : Stream * Store :=
  let '(stream, progressStore) := c in
  if negb (isConnected stream) then c
  else
    let '(progress, progressStore') := drain sessionId progressStore in
    ({| isConnected := isConnected stream; closed := closed stream;
        enqueued := enqueued stream ++ map Update progress |},
     progressStore').

(** The listener of [request.signal]'s [abort] event. *)
Definition abort (sessionId : jsstring) (c : Stream * Store) : Stream * Store :=
  let '(stream, progressStore) := c in
  ({| isConnected := false; closed := true; enqueued := enqueued stream |},
   dispose sessionId progressStore).

(** The pending queue of a session, empty when it has none. *)
Definition queue (sessionId : jsstring) (progressStore : Store) : list ProgressEvent :=
  default [] (progressStore !! sessionId).

(** Operations on the channel, as they interleave on the single thread. *)
Inductive Op :=
| Publish (sessionId : jsstring) (progressData : ProgressEvent)
| Drain (sessionId : jsstring)
| Dispose (sessionId : jsstring).

Definition apply (op : Op) (progressStore : Store) : Store :=
  match op with
  | Publish s ev => publish s ev progressStore
  | Drain s => snd (drain s progressStore)
  | Dispose s => dispose s progressStore
  end.

Definition run (ops : list Op) (progressStore : Store) : Store :=
  foldl (fun st op => apply op st) progressStore ops.

(** The events a list of operations publishes to a session, in order. *)
Definition published (sessionId : jsstring) (ops : list Op) : list ProgressEvent :=
  flat_map (fun op =>
    match op with
    | Publish s ev => if bool_decide (s = sessionId) then [ev] else []
    | _ => []
    end) ops.

(** The session an operation addresses. *)
Definition session_of (op : Op) : jsstring :=
  match op with
  | Publish s _ | Drain s | Dispose s => s
  end.

(** An operation that empties or drops the queue of the session. *)
Definition consumes (sessionId : jsstring) (op : Op) : bool :=
  match op with
  | Publish _ _ => false
  | Drain s | Dispose s => bool_decide (s = sessionId)
  end.

End ProgressChannel.

(** ** The upload pipeline ([src/app/api/upload/route.ts]) *)

(** Lines of a template literal, joined by line feeds. *)
Definition unlines (ls : list string) : jsstring :=
  match ls with
  | [] => []
  | l :: ls' => js l ++ flat_map (fun x => 10%N :: js x) ls'
  end.

Definition nl : jsstring := [10%N].

Module Upload.

(** *** Requests and collaborators *)

(** A [File] entry of the multipart form. *)
Record File := {
  file_name : jsstring;                    (* file.name *)
  file_type : jsstring;                    (* file.type, the declared MIME type *)
  file_size : N;                           (* file.size, in bytes *)
  arrayBuffer : Outcome (list N)           (* await file.arrayBuffer() *)
}.

(** [formData.get('file')] is a [File] or, for a text part, a string. *)
Inductive FormValue :=
| TextValue (s : jsstring)
| FileValue (f : File).

Record FormData := {
  get_sessionId : option jsstring;         (* formData.get('sessionId') *)
  get_file : option FormValue;             (* formData.get('file') *)
  get_leaseType : option jsstring;         (* formData.get('leaseType') *)
  get_analysisModes : option jsstring      (* formData.get('analysisModes') *)
}.

(** [{ data: { user }, error: userError }] of [supabase.auth.getUser()]. *)
Inductive AuthResult :=
| AuthError (userError : Thrown)
| NoUser
| User (id : jsstring).

(** [{ data: uploadData, error: uploadError }] of the storage upload. *)
Inductive StorageResult :=
| UploadError (uploadError : Thrown)
| Uploaded (path : jsstring).

(** [{ data: fileData, error: dbError }] of the insert into [user_files]. *)
Inductive DbResult :=
| DbError (dbError : Thrown)
| Inserted (id : jsstring).

(** The outcome of every external call of one request. *)
Record Env := {
  GEMINI_API_KEY : bool;                   (* process.env.GEMINI_API_KEY is set *)
  getUser : AuthResult;
  formData : Outcome FormData;             (* await request.formData() *)
  random_suffix : jsstring;                (* Math.random().toString(36).substr(2, 9) *)
  storage_upload : StorageResult;
  extract_text : Outcome (list N);         (* the text-extraction model call *)
  analyze : nat -> Outcome (list N);       (* the k-th analysis model call, from 0 *)
  db_insert : DbResult;
  clock : nat -> N;                        (* the k-th reading of the clock, from 0 *)
  toFixed1_MB : N -> jsstring;             (* (size / 1024 / 1024).toFixed(1), floating point *)
  inherited_text : jsstring -> jsstring    (* String(Object.prototype[name]), engine text *)
}.

(** *** Results *)

(** The value stored under a mode's key of [analysisResults]. *)
Inductive ModeResult :=
| AnalysisText (analysisText : jsstring)
| ErrorEnvelope (message : jsstring) (timestamp : Instant).  (* { error: true, message, timestamp } *)

(** [analysisResults], a plain object: own string keys in insertion order. *)
Abbreviation AnalysisResults := (list (list N * ModeResult)) (only parsing).

Fixpoint replace_key (k : jsstring) (v : ModeResult) (o : AnalysisResults)
    : option AnalysisResults :=
  match o with
  | [] => None
  | (k', v') :: o' =>
      if str_eqb k' k then Some ((k', v) :: o')
      else option_map (cons (k', v')) (replace_key k v o')
  end.

(** [obj[k] = v] on an object literal: an existing key keeps its place, a
    new key goes last; [__proto__] is the accessor of [Object.prototype]
    and never becomes an own key. *)
Definition obj_set (k : jsstring) (v : ModeResult) (o : AnalysisResults)
    : AnalysisResults :=
  if str_eqb k (js "__proto__") then o
  else match replace_key k v o with
       | Some o' => o'
       | None => o ++ [(k, v)]
       end.

(** [obj[k]]. *)
Fixpoint obj_get (k : jsstring) (o : AnalysisResults) : option ModeResult :=
  match o with
  | [] => None
  | (k', v) :: o' => if str_eqb k' k then Some v else obj_get k o'
  end.

(** [Object.keys(obj)]. *)
Definition Object_keys (o : AnalysisResults) : list jsstring := map fst o.

(** The row inserted into [user_files]. *)
Record UserFileRow := {
  user_id : jsstring;
  row_file_name : jsstring;
  file_path : jsstring;
  row_file_type : jsstring;
  row_file_size : N;
  processed : bool;
  extracted_text : jsstring;
  analysis_results : AnalysisResults;
  lease_type : jsstring;
  analysis_modes : list jsstring
}.

(** [fileData], the row the database answers the insert with.  The
    model takes its columns to be those of the row inserted, under the
    id the database gave it; what the database adds or rewrites (its own
    columns, the encoding of [analysis_results]) is not modelled. *)
Record FileData := { id : jsstring; row : UserFileRow }.

Inductive Response :=
| JsonError (status : N) (body : ErrorInfo)
    (* NextResponse.json(handleError(..), { status }) *)
| JsonUnexpected (body : ErrorInfo)
    (* status 500; { ...errorInfo, message: 'An unexpected error occurred ...' } *)
| JsonOk (file : FileData) (analysis : AnalysisResults) (sessionId : jsstring).
    (* status 200; message: 'File uploaded and analyzed successfully' *)

(** External calls, in the order they are made. *)
Inductive Call :=
| StorageUpload (fileName : jsstring) (fileBuffer : list N) (contentType : jsstring)
| ExtractText (data : list N) (mimeType : jsstring)
| Analyze (contextualPrompt : jsstring)
| DbInsert (r : UserFileRow).

(** Everything a request can change: the shared store, the number of
    clock readings so far, and the external calls made. *)
Record World := {
  progressStore : gmap (list N) (list ProgressEvent);
  reads : nat;
  calls : list Call
}.

(** *** The handler monad: state, early [return], and [throw] *)

Inductive Step (A : Type) :=
| Next (a : A)                 (* fall through to the next statement *)
| Return (r : Response)        (* return NextResponse.json(..) *)
| Throw (e : Thrown).          (* caught by the outer try *)
Arguments Next {A} a.
Arguments Return {A} r.
Arguments Throw {A} e.

Definition M (A : Type) : Type := World -> Step A * World.

Definition ret {A} (a : A) : M A := fun w => (Next a, w).

Definition bind {A B} (m : M A) (k : A -> M B) : M B :=
  fun w =>
    match m w with
    | (Next a, w') => k a w'
    | (Return r, w') => (Return r, w')
    | (Throw e, w') => (Throw e, w')
    end.

Definition respond {A} (r : Response) : M A := fun w => (Return r, w).
Definition throw {A} (e : Thrown) : M A := fun w => (Throw e, w).

Declare Scope handler_scope.
Delimit Scope handler_scope with handler.
Notation "x <- m ;; k" := (bind m (fun x => k))
  (at level 100, m at next level, right associativity) : handler_scope.
Notation "m ;;; k" := (bind m (fun _ => k))
  (at level 100, right associativity) : handler_scope.
Local Open Scope handler_scope.

(** [await] of a call that may throw. *)
Definition await {A} (o : Outcome A) : M A :=
  match o with
  | Returned a => ret a
  | Threw e => throw e
  end.

(** [when c m]: [if (c) m]. *)
Definition when (c : bool) (m : M unit) : M unit := if c then m else ret tt.

(** *** Helpers of the source *)

(** The world after one more reading of the clock. *)
Definition advance (w : World) : World :=
  {| progressStore := progressStore w; reads := S (reads w); calls := calls w |}.

(** The object [handleError] returns when the clock shows [t]. *)
Definition error_info (t : N) (e : Thrown) (context : jsstring) : ErrorInfo :=
  {| error_message := opt_or_str (thrown_message e) (js "Unknown error occurred");
     error_context := context;
     error_timestamp := t |}.

Section WithEnv.
Context (env : Env).

(** [new Date()] / [Date.now()]. *)
Definition now : M N :=
  fun w => (Next (clock env (reads w)), advance w).

(** An external call leaves its trace. *)
Definition call (c : Call) : M unit :=
  fun w => (Next tt,
            {| progressStore := progressStore w; reads := reads w; calls := calls w ++ [c] |}).

(** [emitProgress(sessionId, step, status, details)]. *)
Definition emitProgress (sessionId step : jsstring) (st : Status) (d : Details) : M unit :=
  t <- now ;;
  fun w => (Next tt,
            {| progressStore :=
                 ProgressChannel.publish sessionId
                   {| step := step; status := st; details := d; timestamp := t |}
                   (progressStore w);
               reads := reads w; calls := calls w |}).

(** A string is truthy when it is not empty. *)
Definition truthy (s : jsstring) : bool :=
  match s with [] => false | _ => true end.

(** [logProgress(step, details, sessionId)]: logs to the console with
    the time, and emits an [active] event when a session id is given. *)
Definition logProgress (step : jsstring) (d : Details) (sessionId : jsstring) : M unit :=
  _ <- now ;;
  when (truthy sessionId) (emitProgress sessionId step active d).

(** [logProgressCompleted(step, details, sessionId)]. *)
Definition logProgressCompleted (step : jsstring) (d : Details) (sessionId : jsstring) : M unit :=
  _ <- now ;;
  when (truthy sessionId) (emitProgress sessionId step completed d).

(** [handleError(error, context)]. *)
Definition handleError (e : Thrown) (context : jsstring) : M ErrorInfo :=
  t <- now ;;
  ret (error_info t e context).

(** [return NextResponse.json(handleError(error, context), { status })]. *)
Definition fail {A} (e : Thrown) (context : jsstring) (status : N) : M A :=
  info <- handleError e context ;;
  respond (JsonError status info).

End WithEnv.

(** *** The prompt registry *)

Definition prompt_standard : list N :=
  unlines [
    "Extract all clauses from this lease document and organize them by phase:";
    "  1. GENERAL PHASE: Basic terms, definitions, parties, property description";
    "  2. DEVELOPMENT PHASE: Permits, approvals, construction rights, timelines";
    "  3. CONSTRUCTION PHASE: Construction obligations, completion requirements";
    "  4. OPERATIONAL PHASE: Operations, maintenance, ongoing obligations";
    "  ";
    "  For each clause, provide:";
    "  - Clause text";
    "  - Summary (1-2 sentences)";
    "  - Category (payment, duration, obligations, etc.)";
    "  - Tags (relevant keywords)";
    "  - Phase classification";
    "  ";
    "  Return as structured JSON with phases as top-level keys."
  ]%string.

Definition prompt_parsing : list N :=
  unlines [
    "Extract metadata from this lease document:";
    "  - Parcel ID/Property ID";
    "  - Acreage/Area";
    "  - Legal description";
    "  - Lessor contact information";
    "  - Lessee contact information";
    "  - Lease term/duration";
    "  - Payment terms";
    "  - Key dates";
    "  ";
    "  Return as clean JSON object suitable for database storage."
  ]%string.

Definition prompt_redlining : list N :=
  unlines [
    "Compare this lease against standard lease templates and identify:";
    "  1. ADDITIONS: Clauses added beyond standard template";
    "  2. REMOVALS: Standard clauses that are missing";
    "  3. MODIFICATIONS: Standard clauses that have been changed";
    "  4. DEVIATIONS: Unusual or non-standard provisions";
    "  ";
    "  For each deviation, explain:";
    "  - What changed";
    "  - Why it might be significant";
    "  - Risk level (Low/Medium/High)";
    "  - Recommended action";
    "  ";
    "  Return as structured JSON with categories for additions, removals, modifications, and deviations."
  ]%string.

Definition prompt_obligations : list N :=
  unlines [
    "Create an obligations matrix breaking down all obligations by:";
    "  1. PARTY (Lessor/Lessee/Third Party)";
    "  2. PHASE (Development/Construction/Operational)";
    "  3. TIMELINE (When due)";
    "  4. ENFORCEABILITY (Mandatory/Optional/Conditional)";
    "  ";
    "  For each obligation, provide:";
    "  - Description";
    "  - Responsible party";
    "  - Due date/trigger";
    "  - Consequences of non-compliance";
    "  - Enforceability level";
    "  ";
    "  Return as structured JSON matrix."
  ]%string.

Definition prompt_renewal : list N :=
  unlines [
    "Analyze this lease for renewal and expiry information:";
    "  1. INITIAL TERM: Start date, end date, duration";
    "  2. RENEWAL OPTIONS: Number of renewals, duration, conditions";
    "  3. EXPIRY CONDITIONS: What triggers expiry";
    "  4. NOTICE REQUIREMENTS: When and how to provide notice";
    "  5. KEY DATES: All important dates and deadlines";
    "  ";
    "  Generate a timeline of all critical dates and suggest alert schedules.";
    "  Return as structured JSON with timeline array and alert recommendations."
  ]%string.

Definition prompt_legal : list N :=
  unlines [
    "Identify potential legal risks and flag problematic clauses:";
    "  1. VAGUE LANGUAGE: Unclear or ambiguous terms";
    "  2. UNUSUAL PROVISIONS: Non-standard clauses";
    "  3. RISK FACTORS: Provisions that could cause disputes";
    "  4. MISSING PROTECTIONS: Standard protections that are absent";
    "  ";
    "  For each risk, provide:";
    "  - Risk description";
    "  - Severity level (Low/Medium/High/Critical)";
    "  - Potential consequences";
    "  - Recommended mitigation";
    "  - Common disputes this might cause";
    "  ";
    "  Return as structured JSON with risk categories and recommendations."
  ]%string.

Definition LEASE_ANALYSIS_PROMPTS : list (list N * list N) :=
  [ (js "standard", prompt_standard);
    (js "parsing", prompt_parsing);
    (js "redlining", prompt_redlining);
    (js "obligations", prompt_obligations);
    (js "renewal", prompt_renewal);
    (js "legal", prompt_legal) ].

(** The properties every object literal inherits from [Object.prototype];
    each is a function, or for [__proto__] the prototype object, so all
    are truthy. *)
Definition Object_prototype_members : list jsstring :=
  map js [ "constructor"; "__defineGetter__"; "__defineSetter__";
           "hasOwnProperty"; "__lookupGetter__"; "__lookupSetter__";
           "isPrototypeOf"; "propertyIsEnumerable"; "toString"; "valueOf";
           "__proto__"; "toLocaleString" ]%string.

Fixpoint own_prompt (mode : jsstring) (reg : list (list N * list N)) : option jsstring :=
  match reg with
  | [] => None
  | (k, p) :: reg' => if str_eqb k mode then Some p else own_prompt mode reg'
  end.

(** [LEASE_ANALYSIS_PROMPTS[mode]]. *)
Inductive PromptLookup :=
| OwnPrompt (prompt : jsstring)     (* one of the six template literals *)
| InheritedMember                   (* a member of Object.prototype *)
| Undefined.

Definition lookup_prompt (mode : jsstring) : PromptLookup :=
  match own_prompt mode LEASE_ANALYSIS_PROMPTS with
  | Some p => OwnPrompt p
  | None =>
      if bool_decide (mode ∈ Object_prototype_members) then InheritedMember
      else Undefined
  end.

(** The names of the registry. *)
Definition registry : list jsstring := map fst LEASE_ANALYSIS_PROMPTS.

Definition is_registered (mode : jsstring) : bool :=
  bool_decide (mode ∈ registry).

(** *** The handler *)

(** The bindings of [POST] that are in scope once the text is extracted. *)
Record Scope := {
  sessionId : jsstring;
  user : jsstring;                         (* user.id *)
  file : File;
  uploadPath : jsstring;                   (* uploadData.path *)
  leaseType : jsstring;
  analysisModes : list jsstring;
  extractedText : jsstring
}.

Section Handler.
Context (env : Env).

Definition maxSize : N := (50 * 1024 * 1024)%N.      (* 50MB *)

(** The guard before the analysis loop. *)
Definition insufficient (extractedText : jsstring) : bool :=
  str_eqb extractedText (js "Text extraction failed")
  || bool_decide (length extractedText < 100).

(** [`${prompt}`]: the template text of a registered mode, the engine's
    rendering of an inherited member otherwise. *)
Definition prompt_text (mode : jsstring) (l : PromptLookup) : jsstring :=
  match l with
  | OwnPrompt p => p
  | InheritedMember => inherited_text env mode
  | Undefined => js "undefined"
  end.

Definition contextualPrompt (prompt leaseType extractedText : jsstring) : jsstring :=
  prompt ++ nl ++ nl ++ js "Lease Type: " ++ leaseType
         ++ nl ++ nl ++ js "Document Content:" ++ nl
         ++ substring extractedText 0 8000.

(** The body of [for (const mode of analysisModes)] for one mode; [k] is
    the number of analysis calls made so far. *)
Definition analyze_mode (sessionId leaseType extractedText mode : jsstring)
    (k : nat) (analysisResults : AnalysisResults) : M (nat * AnalysisResults) :=
  match lookup_prompt mode with
  | Undefined =>
      logProgress env (js "Skipping unknown analysis mode: " ++ mode) NoDetails [] ;;;
      ret (k, analysisResults)
  | l =>
      let prompt := prompt_text mode l in
      logProgress env (js "Running " ++ mode ++ js " analysis...") NoDetails sessionId ;;;
      call (Analyze (contextualPrompt prompt leaseType extractedText)) ;;;
      match analyze env k with
      | Returned analysisText =>
          logProgressCompleted env (mode ++ js " analysis completed") NoDetails sessionId ;;;
          ret (S k, obj_set mode (AnalysisText analysisText) analysisResults)
      | Threw analysisError =>
          errorInfo <- handleError env analysisError (mode ++ js " Analysis") ;;
          when (truthy sessionId)
            (emitProgress env sessionId (js "Running " ++ mode ++ js " analysis")
               error (ErrorDetails errorInfo)) ;;;
          logProgress env (mode ++ js " analysis failed") (ErrorDetails errorInfo) [] ;;;
          ret (S k, obj_set mode
                      (ErrorEnvelope (error_message errorInfo) (error_timestamp errorInfo))
                      analysisResults)
      end
  end.

Fixpoint analyze_modes (sessionId leaseType extractedText : jsstring)
    (analysisModes : list jsstring) (k : nat) (analysisResults : AnalysisResults)
    : M AnalysisResults :=
  match analysisModes with
  | [] => ret analysisResults
  | mode :: rest =>
      r <- analyze_mode sessionId leaseType extractedText mode k analysisResults ;;
      analyze_modes sessionId leaseType extractedText rest (fst r) (snd r)
  end.

(** The three checks on [file]; the file is returned when all pass. *)
Definition validate (file : option FormValue) : M File :=
  match file with
  | None | Some (TextValue []) =>                     (* if (!file) *)
      fail env (ErrorObject (js "No file was provided in the request"))
        (js "File Validation") 400
  | Some (TextValue _) =>                             (* file.type is undefined *)
      fail env (ErrorObject (js "Invalid file type: undefined. Only PDF files are allowed."))
        (js "File Validation") 400
  | Some (FileValue f) =>
      if negb (str_eqb (file_type f) (js "application/pdf")) then
        fail env (ErrorObject (js "Invalid file type: " ++ file_type f
                               ++ js ". Only PDF files are allowed."))
          (js "File Validation") 400
      else if (maxSize <? file_size f)%N then
        fail env (ErrorObject (js "File too large: " ++ toFixed1_MB env (file_size f)
                               ++ js "MB. Maximum allowed size is 50MB."))
          (js "File Validation") 400
      else ret f
  end.

(** [file?.name], [file?.type], [file?.size] of the parsed form entry. *)
Definition form_details (file : option FormValue) (leaseType : jsstring)
    (analysisModes : list jsstring) : Details :=
  match file with
  | Some (FileValue f) =>
      FormDetails (Some (file_name f)) (Some (file_type f)) (Some (file_size f))
        leaseType analysisModes
  | _ => FormDetails None None None leaseType analysisModes
  end.

(** The text-extraction step: the model's text, or the sentinel built
    from the caught error. *)
Definition extract (sessionId : jsstring) (fileBuffer : list N) (f : File) : M jsstring :=
  call (ExtractText fileBuffer (file_type f)) ;;;
  match extract_text env with
  | Returned extractedText =>
      logProgressCompleted env (js "Text extracted successfully")
        (TextLengthDetails (length extractedText)) sessionId ;;;
      ret extractedText
  | Threw geminiError =>
      errorInfo <- handleError env geminiError (js "Gemini Text Extraction") ;;
      when (truthy sessionId)
        (emitProgress env sessionId (js "Extracting text with Gemini")
           error (ErrorDetails errorInfo)) ;;;
      ret (js "Text extraction failed: " ++ error_message errorInfo)
  end.

(** The first half of the outer [try], up to and including text
    extraction (lines 157-266); it hands the bindings in scope to the
    second half. *)
Definition prepare : M Scope :=
  let sessionId : jsstring := [] in
  (if negb (GEMINI_API_KEY env) then
     fail env (ErrorObject (js "GEMINI_API_KEY is not set in environment variables"))
       (js "API Configuration") 500
   else ret tt) ;;;
  logProgress env (js "Getting user authentication") NoDetails sessionId ;;;
  user <- match getUser env with
          | AuthError userError => fail env userError (js "User Authentication") 401
          | NoUser => fail env (ErrorObject (js "No authenticated user found"))
                        (js "User Authentication") 401
          | User id => ret id
          end ;;
  logProgressCompleted env (js "User authenticated successfully") (UserDetails user) sessionId ;;;
  form <- await (formData env) ;;
  sessionId <- match get_sessionId form with
               | Some (c :: s) => ret (c :: s)
               | _ => t <- now env ;;
                      ret (js "upload-" ++ decimal t ++ js "-" ++ random_suffix env)
               end ;;
  logProgress env (js "Parsing form data...") NoDetails sessionId ;;;
  let file := get_file form in
  let leaseType := opt_or_str (get_leaseType form) (js "solar") in
  let analysisModes :=
    split_on (chr ",") (opt_or_str (get_analysisModes form) (js "standard")) in
  logProgressCompleted env (js "Form data parsed successfully")
    (form_details file leaseType analysisModes) sessionId ;;;
  file <- validate file ;;
  logProgress env (js "Converting file to buffer...") NoDetails sessionId ;;;
  fileBuffer <- match arrayBuffer file with
                | Returned b => ret b
                | Threw bufferError =>
                    when (truthy sessionId)
                      (info <- handleError env bufferError (js "File Buffer Conversion") ;;
                       emitProgress env sessionId (js "Converting file to buffer")
                         error (ErrorDetails info)) ;;;
                    fail env bufferError (js "File Buffer Conversion") 400
                end ;;
  t <- now env ;;
  let fileName := user ++ js "/" ++ decimal t ++ js "-" ++ file_name file in
  logProgressCompleted env (js "File converted to buffer") NoDetails sessionId ;;;
  logProgress env (js "Uploading to storage...")
    (UploadDetails fileName (file_size file)) sessionId ;;;
  call (StorageUpload fileName fileBuffer (file_type file)) ;;;
  path <- match storage_upload env with
          | UploadError uploadError =>
              when (truthy sessionId)
                (info <- handleError env uploadError (js "File Upload to Storage") ;;
                 emitProgress env sessionId (js "Uploading to storage")
                   error (ErrorDetails info)) ;;;
              fail env uploadError (js "File Upload to Storage") 500
          | Uploaded path => ret path
          end ;;
  logProgressCompleted env (js "File uploaded successfully to storage")
    (PathDetails path) sessionId ;;;
  logProgress env (js "Extracting text with Gemini...")
    (ModelDetails (js "gemini-2.5-flash")) sessionId ;;;
  extractedText <- extract sessionId fileBuffer file ;;
  ret {| sessionId := sessionId; user := user; file := file; uploadPath := path;
         leaseType := leaseType; analysisModes := analysisModes;
         extractedText := extractedText |}.

(** The row handed to the insert into [user_files]. *)
Definition file_row (c : Scope) (analysisResults : AnalysisResults) : UserFileRow :=
  {| user_id := user c;
     row_file_name := file_name (file c);
     file_path := uploadPath c;
     row_file_type := file_type (file c);
     row_file_size := file_size (file c);
     processed := true;
     extracted_text := extractedText c;
     analysis_results := analysisResults;
     lease_type := leaseType c;
     analysis_modes := analysisModes c |}.

(** The second half (lines 268-340): the content gate, the analysis
    loop, the insert and the success response. *)
Definition finish (c : Scope) : M Response :=
  logProgress env (js "Starting analysis...")
    (ModesDetails (analysisModes c) (leaseType c)) (sessionId c) ;;;
  (if insufficient (extractedText c) then
     fail env (ErrorObject (js "Insufficient text content extracted from PDF for analysis"))
       (js "Text Analysis Prerequisite") 400
   else ret tt) ;;;
  analysisResults <- analyze_modes (sessionId c) (leaseType c) (extractedText c)
                       (analysisModes c) 0 [] ;;
  logProgress env (js "Analysis completed, saving to database...")
    (ResultsDetails (length (Object_keys analysisResults)) (Object_keys analysisResults))
    (sessionId c) ;;;
  call (DbInsert (file_row c analysisResults)) ;;;
  fileData <- match db_insert env with
              | DbError dbError => fail env dbError (js "Database Save") 500
              | Inserted i => ret {| id := i; row := file_row c analysisResults |}
              end ;;
  logProgressCompleted env (js "Upload and analysis completed successfully")
    (FileIdDetails (id fileData)) (sessionId c) ;;;
  ret (JsonOk fileData analysisResults (sessionId c)).

(** The body of the outer [try]. *)
Definition body : M Response :=
  c <- prepare ;;
  finish c.

(** [POST]: the body under the outer [try]/[catch]. *)
Definition POST (w : World) : Response * World :=
  match body w with
  | (Next r, w') => (r, w')
  | (Return r, w') => (r, w')
  | (Throw e, w') =>
      (JsonUnexpected (error_info (clock env (reads w')) e (js "Upload Process")),
       advance w')
  end.

End Handler.

End Upload.

(** ** JSON values and [JSON.parse] *)

(** A parsed JSON value.  A number keeps its source text: its conversion
    to a double is the engine's. *)
#[local] Set Warnings "-register-all".
Inductive jsval :=
| JNull
| JBool (b : bool)
| JNumber (lexeme : jsstring)
| JString (s : jsstring)
| JArray (items : list jsval)
| JObject (members : list (list N * jsval)).

Module Json.

(** The JSON grammar of ECMA-404 as [JSON.parse] reads it, by recursive
    descent.  [None] stands for the thrown [SyntaxError]. *)

Definition is_ws (c : N) : bool :=
  (N.eqb c 32 || N.eqb c 9 || N.eqb c 10 || N.eqb c 13)%N.

Fixpoint skip_ws (s : jsstring) : jsstring :=
  match s with
  | c :: s' => if is_ws c then skip_ws s' else s
  | [] => []
  end.

Definition is_digit (c : N) : bool := (N.leb 48 c && N.leb c 57)%N.

Fixpoint span_digits (s : jsstring) : jsstring * jsstring :=
  match s with
  | c :: s' =>
      if is_digit c then let '(d, r) := span_digits s' in (c :: d, r)
      else ([], s)
  | [] => ([], [])
  end.

Definition hex_digit (c : N) : option N :=
  (if N.leb 48 c && N.leb c 57 then Some (c - 48)
   else if N.leb 65 c && N.leb c 70 then Some (c - 55)
   else if N.leb 97 c && N.leb c 102 then Some (c - 87)
   else None)%N.

Definition hex4 (a b c d : N) : option N :=
  match hex_digit a, hex_digit b, hex_digit c, hex_digit d with
  | Some a, Some b, Some c, Some d => Some (((a * 16 + b) * 16 + c) * 16 + d)%N
  | _, _, _, _ => None
  end.

(** The characters of a string after its opening quote, up to the closing
    quote; [acc] holds the decoded characters in reverse. *)
Fixpoint string_body (s : jsstring) (acc : jsstring) : option (list N * list N) :=
  match s with
  | [] => None
  | c :: r =>
      if N.eqb c 34 then Some (rev acc, r)
      else if N.eqb c 92 then
        match r with
        | e :: r' =>
            if N.eqb e 34 then string_body r' (34%N :: acc)
            else if N.eqb e 92 then string_body r' (92%N :: acc)
            else if N.eqb e 47 then string_body r' (47%N :: acc)
            else if N.eqb e 98 then string_body r' (8%N :: acc)
            else if N.eqb e 102 then string_body r' (12%N :: acc)
            else if N.eqb e 110 then string_body r' (10%N :: acc)
            else if N.eqb e 114 then string_body r' (13%N :: acc)
            else if N.eqb e 116 then string_body r' (9%N :: acc)
            else if N.eqb e 117 then
              match r' with
              | h1 :: h2 :: h3 :: h4 :: r'' =>
                  match hex4 h1 h2 h3 h4 with
                  | Some u => string_body r'' (u :: acc)
                  | None => None
                  end
              | _ => None
              end
            else None
        | [] => None
        end
      else if N.ltb c 32 then None
      else string_body r (c :: acc)
  end.

(** The longest prefix that is a JSON number, and the rest. *)
Definition number (s : jsstring) : option (list N * list N) :=
  let '(sign, s1) := match s with
                     | c :: r => if N.eqb c 45 then ([45%N], r) else ([], s)
                     | [] => ([], s)
                     end in
  match s1 with
  | [] => None
  | c :: r =>
      let int_part :=
        if N.eqb c 48 then Some ([48%N], r)
        else if is_digit c then let '(d, r') := span_digits r in Some (c :: d, r')
        else None in
      match int_part with
      | None => None
      | Some (i, s2) =>
          let frac_part :=
            match s2 with
            | dot :: r2 =>
                if N.eqb dot 46 then
                  match span_digits r2 with
                  | ([], _) => None
                  | (d, r3) => Some (46%N :: d, r3)
                  end
                else Some ([], s2)
            | [] => Some ([], s2)
            end in
          match frac_part with
          | None => None
          | Some (f, s3) =>
              let exp_part :=
                match s3 with
                | e :: r3 =>
                    if N.eqb e 101 || N.eqb e 69 then
                      let '(sg, r4) :=
                        match r3 with
                        | x :: r4 => if N.eqb x 43 || N.eqb x 45 then ([x], r4) else ([], r3)
                        | [] => ([], r3)
                        end in
                      match span_digits r4 with
                      | ([], _) => None
                      | (d, r5) => Some (e :: sg ++ d, r5)
                      end
                    else Some ([], s3)
                | [] => Some ([], s3)
                end in
              match exp_part with
              | None => None
              | Some (x, s4) => Some (sign ++ i ++ f ++ x, s4)
              end
          end
      end
  end.

Fixpoint starts_with (p s : jsstring) : bool :=
  match p, s with
  | [], _ => true
  | a :: p', b :: s' => N.eqb a b && starts_with p' s'
  | _ :: _, [] => false
  end.

Definition keyword (k : string) (v : jsval) (s : jsstring) : option (jsval * list N) :=
  if starts_with (js k) s then Some (v, drop (length (js k)) s) else None.

(** [value fuel s] reads one value at the head of [s]; every nested call
    has consumed input, and [2 * length s + 2] is fuel enough. *)
Fixpoint value (fuel : nat) (s : jsstring) {struct fuel} : option (jsval * list N) :=
  match fuel with
  | 0 => None
  | S fuel' =>
      match skip_ws s with
      | [] => None
      | c :: r =>
          if N.eqb c 110 then keyword "null" JNull (c :: r)
          else if N.eqb c 116 then keyword "true" (JBool true) (c :: r)
          else if N.eqb c 102 then keyword "false" (JBool false) (c :: r)
          else if N.eqb c 34 then
            match string_body r [] with
            | Some (str, r') => Some (JString str, r')
            | None => None
            end
          else if N.eqb c 91 then
            match skip_ws r with
            | x :: r' =>
                if N.eqb x 93 then Some (JArray [], r')
                else match elements fuel' (x :: r') with
                     | Some (items, r'') => Some (JArray items, r'')
                     | None => None
                     end
            | [] => None
            end
          else if N.eqb c 123 then
            match skip_ws r with
            | x :: r' =>
                if N.eqb x 125 then Some (JObject [], r')
                else match members fuel' (x :: r') with
                     | Some (ms, r'') => Some (JObject ms, r'')
                     | None => None
                     end
            | [] => None
            end
          else
            match number (c :: r) with
            | Some (lexeme, r') => Some (JNumber lexeme, r')
            | None => None
            end
      end
  end

(** The elements of an array after [[], up to and including []]. *)
with elements (fuel : nat) (s : jsstring) {struct fuel} : option (list jsval * list N) :=
  match fuel with
  | 0 => None
  | S fuel' =>
      match value fuel' s with
      | Some (v, r) =>
          match skip_ws r with
          | x :: r' =>
              if N.eqb x 93 then Some ([v], r')
              else if N.eqb x 44 then
                match elements fuel' r' with
                | Some (vs, r'') => Some (v :: vs, r'')
                | None => None
                end
              else None
          | [] => None
          end
      | None => None
      end
  end

(** The members of an object after [{], up to and including [}]. *)
with members (fuel : nat) (s : jsstring) {struct fuel}
    : option (list (list N * jsval) * list N) :=
  match fuel with
  | 0 => None
  | S fuel' =>
      match skip_ws s with
      | q :: r =>
          if N.eqb q 34 then
            match string_body r [] with
            | Some (key, r1) =>
                match skip_ws r1 with
                | colon :: r2 =>
                    if N.eqb colon 58 then
                      match value fuel' r2 with
                      | Some (v, r3) =>
                          match skip_ws r3 with
                          | x :: r4 =>
                              if N.eqb x 125 then Some ([(key, v)], r4)
                              else if N.eqb x 44 then
                                match members fuel' r4 with
                                | Some (ms, r5) => Some ((key, v) :: ms, r5)
                                | None => None
                                end
                              else None
                          | [] => None
                          end
                      | None => None
                      end
                    else None
                | [] => None
                end
            | None => None
            end
          else None
      | [] => None
      end
  end.

(** [JSON.parse(text)]: one value, then only white space. *)
Definition parse (text : jsstring) : option jsval :=
  match value (2 * length text + 2) text with
  | Some (v, r) => match skip_ws r with [] => Some v | _ => None end
  | None => None
  end.

(** [v[key]] for an own data property; among duplicate member names the
    last one counts.  Values other than objects have none of the
    obligation fields. *)
Fixpoint member (key : jsstring) (ms : list (list N * jsval)) : option jsval :=
  match ms with
  | [] => None
  | (k, v) :: ms' =>
      match member key ms' with
      | Some v' => Some v'
      | None => if str_eqb k key then Some v else None
      end
  end.

Definition get (v : jsval) (key : jsstring) : option jsval :=
  match v with
  | JObject ms => member key ms
  | _ => None
  end.

End Json.

(** ** Obligation extraction ([src/app/api/generate-obligations-csv/route.ts]) *)

Module Obligations.

(** *** Cleaning the model's answer *)

(** Three backticks. *)
Definition fence : jsstring := [96; 96; 96]%N.

(** [text.replace(/P\n?/g, '')] for a literal pattern [P]: every
    non-overlapping occurrence of [P], leftmost first, is removed together
    with one line feed that directly follows it.  [st] is [None] while
    scanning and [Some n] while [n] characters of an occurrence remain to
    be dropped; at [Some 0] the optional line feed is due. *)
Fixpoint strip (pat : jsstring) (st : option nat) (s : jsstring) : jsstring :=
  match s with
  | [] => []
  | c :: s' =>
      let scan :=
        if Json.starts_with pat (c :: s')
        then strip pat (Some (length pat - 1)) s'
        else c :: strip pat None s' in
      match st with
      | Some (S n) => strip pat (Some n) s'
      | Some 0 => if N.eqb c 10 then strip pat None s' else scan
      | None => scan
      end
  end.

(** [.replace(/```json\n?/g, '')] and [.replace(/```\n?/g, '')]. *)
Definition strip_json_fences (s : jsstring) : jsstring :=
  strip (fence ++ js "json") None s.

Definition strip_fences (s : jsstring) : jsstring :=
  strip fence None s.

(** Lines 78-85: strip the fences, trim, and keep the text from the first
    [[] to the last []] when both exist in that order. *)
Definition clean (obligationsText : jsstring) : jsstring :=
  let obligationsText := trim (strip_fences (strip_json_fences obligationsText)) in
  let jsonStart := indexOf (chr "[") obligationsText in
  let jsonEnd := lastIndexOf (chr "]") obligationsText in
  if negb (jsonStart =? -1)%Z && negb (jsonEnd =? -1)%Z && (jsonStart <? jsonEnd)%Z
  then substring obligationsText jsonStart (jsonEnd + 1)
  else obligationsText.

(** *** Parsing, and the samples that replace a failed or empty result *)

Definition record (party description timeline enforceability phase consequence category : string)
    : jsval :=
  JObject [ (js "party", JString (js party));
            (js "description", JString (js description));
            (js "timeline", JString (js timeline));
            (js "enforceability", JString (js enforceability));
            (js "phase", JString (js phase));
            (js "consequence", JString (js consequence));
            (js "category", JString (js category)) ].

(** The sample assigned in the [catch] clause. *)
Definition failed_sample : jsval :=
  record "N/A" "Failed to extract obligations from document analysis"
         "N/A" "N/A" "GENERAL" "N/A" "Information".

(** The sample assigned when the array is empty. *)
Definition empty_sample : jsval :=
  record "N/A" "No technical obligations found in this document"
         "N/A" "N/A" "GENERAL" "N/A" "Information".

(** Which branch of the [try] ran. *)
Inductive Parsed :=
| ParsedOk (obligations : jsval)   (* the try block completed *)
| Caught.                          (* the catch clause ran *)

Section WithParser.
(** [JSON.parse]; [None] is the thrown [SyntaxError]. *)
Context (JSON_parse : list N -> option jsval).

(** Lines 88-105.  The [try] block also reads [obligations.length] for
    the log line, which throws on [null]. *)
Definition try_parse (obligationsText : jsstring) : Parsed :=
  match JSON_parse obligationsText with
  | None => Caught
  | Some JNull => Caught
  | Some v => ParsedOk v
  end.

Definition after_try (p : Parsed) : jsval :=
  match p with
  | ParsedOk v => v
  | Caught => JArray [failed_sample]
  end.

(** Lines 107-110: [if (!Array.isArray(obligations)) obligations = []]. *)
Definition ensure_array (obligations : jsval) : list jsval :=
  match obligations with
  | JArray items => items
  | _ => []
  end.

(** Lines 112-124: an empty array becomes the one-element sample. *)
Definition ensure_nonempty (obligations : list jsval) : list jsval :=
  match obligations with
  | [] => [empty_sample]
  | _ => obligations
  end.

(** The value of [obligations] when the CSV is built, from the model's
    raw answer. *)
Definition extractObligations (response_text : jsstring) : list jsval :=
  ensure_nonempty (ensure_array (after_try (try_parse (clean response_text)))).

(** *** The handler *)

(** The request body of a client that sends each of the three members
    as a string or leaves it out.  The handler itself does not check
    them: [CsvEndpoint] has it for any body. *)
Record Request := {
  humanReadableText : option jsstring;
  fileName : option jsstring;
  leaseType : option jsstring
}.

Record Env := {
  request_json : Outcome Request;            (* await request.json() *)
  GEMINI_API_KEY : bool;                     (* process.env.GEMINI_API_KEY is set *)
  generateContent : list N -> Outcome (list N);
      (* model.generateContent(fullPrompt), then response.text() *)
  render_csv : Request -> list jsval -> Outcome (list N * list N)
      (* lines 126-170: the CSV text and the download name; field
         coercion by String(), number formatting and the locale date
         are the engine's, and coercion can throw *)
}.

Inductive Response :=
| JsonError (status : N) (error : jsstring)
| JsonCsv (csvContent fileName : jsstring) (obligationsCount : nat).

Definition OBLIGATIONS_EXTRACTION_PROMPT : list N :=
  unlines [
    "";
    "You are a legal expert specializing in lease agreements. Your task is to extract and structure technical obligations from the provided lease document analysis text for CSV export.";
    "";
    "Analyze the document and extract ALL technical obligations, focusing on:";
    "";
    "1. **PARTY OBLIGATIONS**: Who is responsible (Lessor, Lessee, Third Party)";
    "2. **PHASE CLASSIFICATION**: When the obligation applies";
    "   - GENERAL: Basic terms and ongoing obligations";
    "   - DEVELOPMENT: Pre-construction, permits, approvals";
    "   - CONSTRUCTION: Building, installation, completion";
    "   - OPERATIONAL: Operations, maintenance, ongoing duties";
    "";
    "3. **DETAILED EXTRACTION**: For each obligation, provide:";
    "   - **party**: Who is responsible (Lessor/Lessee/Third Party)";
    "   - **description**: Clear, detailed description of the obligation (keep concise for CSV)";
    "   - **timeline**: When it's due or triggered (specific dates or triggers)";
    "   - **enforceability**: Level of enforcement (Mandatory/Optional/Conditional)";
    "   - **phase**: Which project phase it applies to (GENERAL/DEVELOPMENT/CONSTRUCTION/OPERATIONAL)";
    "   - **consequence**: What happens if not fulfilled (be specific)";
    "   - **category**: Type of obligation (Payment/Maintenance/Compliance/Insurance/Environmental/Construction/Other)";
    "";
    "Focus on extracting obligations related to:";
    "- Construction and development requirements";
    "- Maintenance and operational duties";
    "- Compliance and regulatory obligations";
    "- Financial obligations and payments";
    "- Environmental responsibilities";
    "- Insurance and liability requirements";
    "- Termination and renewal conditions";
    "";
    "IMPORTANT: Return ONLY a valid JSON array of obligation objects. Do not include any markdown formatting, explanations, or additional text. Each object must have exactly these fields: party, description, timeline, enforceability, phase, consequence, category.";
    "";
    "If no obligations are found, return an empty array: []";
    "";
    "Document analysis text to analyze:";
    ""
  ]%string.

Definition POST (env : Env) : Response :=
  match request_json env with
  | Threw _ => JsonError 500 (js "Internal server error")
  | Returned req =>
      match humanReadableText req with
      | None | Some [] => JsonError 400 (js "No analysis text provided")
      | Some text =>
          if negb (GEMINI_API_KEY env) then JsonError 500 (js "API key not configured")
          else
            let fullPrompt := OBLIGATIONS_EXTRACTION_PROMPT ++ text in
            match generateContent env fullPrompt with
            | Threw _ => JsonError 500 (js "Internal server error")
            | Returned obligationsText =>
                let obligations := extractObligations obligationsText in
                match render_csv env req obligations with
                | Threw _ => JsonError 500 (js "Internal server error")
                | Returned (csvContent, name) =>
                    JsonCsv csvContent name (length obligations)
                end
            end
      end
  end.

(** *** The export route ([src/app/api/export-obligations/[id]/route.ts]) *)

(** Lines 124-171 of the export handler: the same cleaning, then the
    parse whose [catch] falls back on the stored result, or gives up.
    [stored] is [document.analysis_results.obligations] when the
    document has a truthy one. *)
Inductive ExportParse :=
| ExportObligations (p : Parsed) (obligations : list jsval)
| ExportFailed (rawResponse : jsstring).   (* status 500, 'Failed to extract obligations' *)

Definition export_parse (stored : option jsval) (response_text : jsstring) : ExportParse :=
  let obligationsText := clean response_text in
  match try_parse obligationsText with
  | ParsedOk v => ExportObligations (ParsedOk v) (ensure_nonempty (ensure_array v))
  | Caught =>
      match stored with
      | Some v => ExportObligations Caught (ensure_nonempty (ensure_array v))
      | None => ExportFailed (substring obligationsText 0 500)
      end
  end.

End WithParser.

(** *** The record schema of the design document *)

(** Modelled from the spec: the ObligationRecord of the data model, whose
    fields other than [consequence] are non-empty strings. *)
Definition nonempty_field (o : jsval) (key : string) : bool :=
  match Json.get o (js key) with
  | Some (JString (_ :: _)) => true
  | _ => false
  end.

Definition required_fields : list string :=
  [ "party"; "description"; "timeline"; "enforceability"; "phase"; "category" ]%string.

Definition fields_nonempty (o : jsval) : bool :=
  forallb (nonempty_field o) required_fields.

(** Modelled from the spec: the enum constraints of the data model. *)
Definition field_in (o : jsval) (key : string) (allowed : list string) : bool :=
  match Json.get o (js key) with
  | Some (JString s) => existsb (fun a => str_eqb s (js a)) allowed
  | _ => false
  end.

Definition schema_valid (o : jsval) : bool :=
  fields_nonempty o
  && field_in o "enforceability" [ "Mandatory"; "Optional"; "Conditional" ]%string
  && field_in o "phase" [ "GENERAL"; "DEVELOPMENT"; "CONSTRUCTION"; "OPERATIONAL" ]%string.

End Obligations.

(** ** Chat ([src/lib/chat-service-basic.ts], [src/app/api/chat/route.ts]) *)

Module Chat.

(** A row of [user_files]; the chat code reads it only to assemble the
    prompt. *)
Record FileRow := {
  file_id : jsstring;
  file_name : jsstring;
  extracted_text : option jsstring;
  analysis_results : option jsval
}.

(** *** The service *)

Section Service.
(** [this.model.generateContent(fullPrompt)], then [response.text()]. *)
Context (generateContent : list N -> Outcome (list N)).

(** The prompt assembly of each method (context helpers and template
    literal).  It runs inside the method's [try], and may throw there
    (for instance on a row without extracted text). *)
Context (document_prompt : jsstring -> FileRow -> Outcome (list N)).
Context (project_prompt : jsstring -> list FileRow -> Outcome (list N)).

(** [error instanceof Error ? error.message : 'Unknown error']. *)
Definition caught_message (e : Thrown) : jsstring :=
  match e with
  | ErrorObject m => m
  | OtherThrown _ => js "Unknown error"
  end.

Definition document_apology (e : Thrown) : jsstring :=
  js "I apologize, but I encountered an error while processing your request. Please try again or contact support if the issue persists. Error: "
  ++ caught_message e.

Definition project_apology (e : Thrown) : jsstring :=
  js "I apologize, but I encountered an error while processing your portfolio analysis request. Please try again or contact support if the issue persists. Error: "
  ++ caught_message e.

(** [ChatService.chatWithDocument]: the whole body is one [try] whose
    [catch] returns the apology. *)
Definition chatWithDocument (message : jsstring) (doc : FileRow) : Outcome (list N) :=
  match document_prompt message doc with
  | Threw e => Returned (document_apology e)
  | Returned fullPrompt =>
      match generateContent fullPrompt with
      | Returned text => Returned text
      | Threw e => Returned (document_apology e)
      end
  end.

(** [ChatService.chatWithProject]. *)
Definition chatWithProject (message : jsstring) (docs : list FileRow) : Outcome (list N) :=
  match project_prompt message docs with
  | Threw e => Returned (project_apology e)
  | Returned fullPrompt =>
      match generateContent fullPrompt with
      | Returned text => Returned text
      | Threw e => Returned (project_apology e)
      end
  end.

(** *** The route *)

Record Request := {
  message : option jsstring;
  fileId : option jsstring;
  sessionId : option jsstring;
  projectId : option jsstring;
  fileIds : option (list (list N))
}.

(** The outcome of each database and identity call of one request; a
    lookup is [None] when it reports an error or no data. *)
Record Env := {
  getUser : option jsstring;                   (* None: authError || !user *)
  GEMINI_API_KEY : bool;
  request_json : Outcome Request;              (* await request.json() *)
  select_file : option FileRow;                (* user_files by id *)
  select_session_file_ids : option (list (list N));   (* chat_sessions.file_ids *)
  select_project_files : list (list N) -> option (list FileRow);
  insert_session : option jsstring;            (* the new session's id *)
  insert_user_message : bool;                  (* no messageError *)
  insert_assistant_message : bool              (* no responseError *)
}.

Inductive ChatType := document | project.

Inductive Response :=
| JsonError (status : N) (error : jsstring)
| JsonOk (message : jsstring) (sessionId : jsstring) (chatType : ChatType).

(** Rows inserted into [chat_messages] by the request. *)
Inductive Role := user | assistant.
Record ChatMessage := {
  session_id : jsstring;
  content : jsstring;
  role : Role
}.

Definition nonempty (o : option jsstring) : option jsstring :=
  match o with
  | Some (c :: s) => Some (c :: s)
  | _ => None
  end.

(** What the request chats about, after the look-ups of lines 30-78. *)
Inductive Target :=
| OneFile (fileData : FileRow)
| Project (projectFiles : list FileRow).

Definition resolve_target (env : Env) (req : Request) : Response + Target :=
  match nonempty (fileId req) with
  | Some _ =>
      match select_file env with
      | None => inl (JsonError 404 (js "File not found"))
      | Some data => inr (OneFile data)
      end
  | None =>
      (* projectId is truthy here: the request was checked before *)
      let targetFileIds :=
        match fileIds req with
        | Some ids => Some ids
        | None => select_session_file_ids env
        end in
      match targetFileIds with
      | None => inl (JsonError 404 (js "Session file IDs not found"))
      | Some ids =>
          match select_project_files env ids with
          | None => inl (JsonError 404 (js "Project files not found"))
          | Some data => inr (Project data)
          end
      end
  end.

(** Lines 80-170 of [POST]: the session, the user's message, the
    service call under its [try], the assistant's message, the answer. *)
Definition converse (env : Env) (req : Request) (msg : jsstring) (target : Target)
    : Response * list ChatMessage :=
  let session :=
    match nonempty (sessionId req) with
    | Some s => Some s
    | None => insert_session env
    end in
  match session with
  | None => (JsonError 500 (js "Failed to create chat session"), [])
  | Some currentSessionId =>
      if negb (insert_user_message env) then
        (JsonError 500 (js "Failed to save message"), [])
      else
        let saved :=
          [ {| session_id := currentSessionId; content := msg; role := user |} ] in
        let answer :=
          match target with
          | OneFile fileData => chatWithDocument msg fileData
          | Project projectFiles => chatWithProject msg projectFiles
          end in
        match answer with
        | Threw _ =>
            (JsonError 500 (js "Failed to generate AI response. Please try again."),
             saved)
        | Returned response =>
            if negb (insert_assistant_message env) then
              (JsonError 500 (js "Failed to save response"), saved)
            else
              (JsonOk response currentSessionId
                 match target with OneFile _ => document | Project _ => project end,
               saved ++ [ {| session_id := currentSessionId; content := response;
                             role := assistant |} ])
        end
  end.

(** [POST]: the response and the rows written to [chat_messages]. *)
Definition POST (env : Env) : Response * list ChatMessage :=
  match getUser env with
  | None => (JsonError 401 (js "Unauthorized"), [])
  | Some _ =>
      if negb (GEMINI_API_KEY env) then
        (JsonError 500 (js "AI service is not configured. Please contact support."), [])
      else
        match request_json env with
        | Threw _ => (JsonError 500 (js "Internal server error"), [])
        | Returned req =>
            match nonempty (message req), nonempty (fileId req), nonempty (projectId req) with
            | None, _, _ | _, None, None =>
                (JsonError 400
                   (js "Message and either file ID or project ID are required"), [])
            | Some msg, _, _ =>
                match resolve_target env req with
                | inl r => (r, [])
                | inr target => converse env req msg target
                end
            end
        end
  end.

End Service.

End Chat.

(** ** Reading the upload pipeline *)

Module UploadSpec.
Import Upload.

(** A requested name the loop does not skip. *)
Definition known (mode : jsstring) : bool :=
  match lookup_prompt mode with
  | Undefined => false
  | _ => true
  end.

(** The prompt text the loop uses for a mode. *)
Definition mode_prompt (env : Env) (mode : jsstring) : jsstring :=
  prompt_text env mode (lookup_prompt mode).

(** The model call the loop makes for a mode. *)
Definition analysis_call (env : Env) (leaseType extractedText mode : jsstring) : Call :=
  Analyze (contextualPrompt (mode_prompt env mode) leaseType extractedText).

(** What the loop stores for a call with outcome [o]; [t] is the time
    [handleError] read when the call threw. *)
Definition stored (o : Outcome (list N)) (t : N) : ModeResult :=
  match o with
  | Returned analysisText => AnalysisText analysisText
  | Threw e =>
      ErrorEnvelope (opt_or_str (thrown_message e) (js "Unknown error occurred")) t
  end.

(** The assignments of the loop, for the modes it runs, from call [k] on. *)
Fixpoint store_all (env : Env) (k : nat) (runs : list (list N * N))
    (analysisResults : list (list N * ModeResult)) : list (list N * ModeResult) :=
  match runs with
  | [] => analysisResults
  | (mode, t) :: runs' =>
      store_all env (S k) runs' (obj_set mode (stored (analyze env k) t) analysisResults)
  end.

(** The one name [obj_set] never stores. *)
Definition proto : jsstring := js "__proto__".

(** The text the extraction step leaves in [extractedText]. *)
Definition extraction (env : Env) : jsstring :=
  match extract_text env with
  | Returned extractedText => extractedText
  | Threw geminiError =>
      js "Text extraction failed: "
      ++ opt_or_str (thrown_message geminiError) (js "Unknown error occurred")
  end.

(** The trace of external calls the handler adds to a world. *)
Definition new_calls (w w' : World) : list Call := drop (length (calls w)) (calls w').

Definition is_Analyze (c : Call) : bool :=
  match c with Analyze _ => true | _ => false end.

(** The per-mode mapping of a success response. *)
Definition response_analysis (r : Response) : option (list (list N * ModeResult)) :=
  match r with
  | JsonOk _ analysis _ => Some analysis
  | _ => None
  end.

(** The response of the content gate. *)
Definition insufficient_content (t : N) : Response :=
  JsonError 400
    {| error_message := js "Insufficient text content extracted from PDF for analysis";
       error_context := js "Text Analysis Prerequisite";
       error_timestamp := t |}.

(** The message [handleError] reports for a thrown value. *)
Definition reported (e : Thrown) : jsstring :=
  opt_or_str (thrown_message e) (js "Unknown error occurred").

(** [m] only adds calls that satisfy [P] to the trace, however it ends. *)
Definition adds_only {A} (P : Call -> Prop) (m : M A) : Prop :=
  forall w, exists extra,
    calls (snd (m w)) = calls w ++ extra /\ Forall P extra.

(** An upload the validation stage lets through. *)
Definition acceptable (file : option FormValue) : Prop :=
  exists f, file = Some (FileValue f)
            /\ file_type f = js "application/pdf"
            /\ (file_size f <= maxSize)%N.

(** The declared MIME types the design document lists. *)
Definition PDF : jsstring := js "application/pdf".
Definition DOCX : jsstring :=
  js "application/vnd.openxmlformats-officedocument.wordprocessingml.document".
Definition DOC : jsstring := js "application/msword".

End UploadSpec.

(** ** Sample requests *)

Module UploadSamples.
Import Upload UploadSpec.

Definition empty_world : World :=
  {| progressStore := ∅; reads := 0; calls := [] |}.

Definition lease_pdf : File :=
  {| file_name := js "lease.pdf"; file_type := PDF; file_size := 204800;
     arrayBuffer := Returned [37; 80; 68; 70]%N |}.

Definition lease_docx : File :=
  {| file_name := js "lease.docx"; file_type := DOCX; file_size := 204800;
     arrayBuffer := Returned [80; 75; 3; 4]%N |}.

Definition form_with (f : File) : FormData :=
  {| get_sessionId := Some (js "s1");
     get_file := Some (FileValue f);
     get_leaseType := None;
     get_analysisModes := Some (js "standard,legal") |}.

(** 150 characters of text: enough for the gate. *)
Definition long_text : jsstring := repeat (chr "x") 150.

(** The [legal] call, the second one, throws; everything else succeeds. *)
Definition legal_fails : Env :=
  {| GEMINI_API_KEY := true;
     getUser := User (js "u1");
     formData := Returned (form_with lease_pdf);
     random_suffix := js "k3j9x0a1b";
     storage_upload := Uploaded (js "u1/1-lease.pdf");
     extract_text := Returned long_text;
     analyze := fun k => match k with
                         | 1 => Threw (ErrorObject (js "model overloaded"))
                         | _ => Returned (js "{}")
                         end;
     db_insert := Inserted (js "row-1");
     clock := fun k => N.of_nat k;
     toFixed1_MB := fun _ => js "0.2";
     inherited_text := fun _ => js "function () { [native code] }" |}.

Definition legal_fails_scope : Scope :=
  {| sessionId := js "s1"; user := js "u1"; file := lease_pdf;
     uploadPath := js "u1/1-lease.pdf"; leaseType := js "solar";
     analysisModes := [js "standard"; js "legal"];
     extractedText := long_text |}.

(** The extraction returns nine characters. *)
Definition short_text : Env :=
  {| GEMINI_API_KEY := true;
     getUser := User (js "u1");
     formData := Returned (form_with lease_pdf);
     random_suffix := js "k3j9x0a1b";
     storage_upload := Uploaded (js "u1/1-lease.pdf");
     extract_text := Returned (js "Too short");
     analyze := fun _ => Returned (js "{}");
     db_insert := Inserted (js "row-1");
     clock := fun k => N.of_nat k;
     toFixed1_MB := fun _ => js "0.2";
     inherited_text := fun _ => js "function () { [native code] }" |}.

Definition short_text_scope : Scope :=
  {| sessionId := js "s1"; user := js "u1"; file := lease_pdf;
     uploadPath := js "u1/1-lease.pdf"; leaseType := js "solar";
     analysisModes := [js "standard"; js "legal"];
     extractedText := js "Too short" |}.

(** The extraction throws an error whose message has 80 characters. *)
Definition long_message : jsstring := repeat (chr "!") 80.

Definition extraction_throws : Env :=
  {| GEMINI_API_KEY := true;
     getUser := User (js "u1");
     formData := Returned (form_with lease_pdf);
     random_suffix := js "k3j9x0a1b";
     storage_upload := Uploaded (js "u1/1-lease.pdf");
     extract_text := Threw (ErrorObject long_message);
     analyze := fun _ => Returned (js "{}");
     db_insert := Inserted (js "row-1");
     clock := fun k => N.of_nat k;
     toFixed1_MB := fun _ => js "0.2";
     inherited_text := fun _ => js "function () { [native code] }" |}.

Definition extraction_throws_scope : Scope :=
  {| sessionId := js "s1"; user := js "u1"; file := lease_pdf;
     uploadPath := js "u1/1-lease.pdf"; leaseType := js "solar";
     analysisModes := [js "standard"; js "legal"];
     extractedText := js "Text extraction failed: " ++ long_message |}.

(** A DOCX upload of 200 KiB. *)
Definition docx_upload : Env :=
  {| GEMINI_API_KEY := true;
     getUser := User (js "u1");
     formData := Returned (form_with lease_docx);
     random_suffix := js "k3j9x0a1b";
     storage_upload := Uploaded (js "u1/1-lease.docx");
     extract_text := Returned long_text;
     analyze := fun _ => Returned (js "{}");
     db_insert := Inserted (js "row-1");
     clock := fun k => N.of_nat k;
     toFixed1_MB := fun _ => js "0.2";
     inherited_text := fun _ => js "function () { [native code] }" |}.

(** Two sessions on the channel. *)
Definition event (s : string) (st : Status) (t : N) : ProgressEvent :=
  {| step := js s; status := st; details := NoDetails; timestamp := t |}.

Definition two_sessions : list ProgressChannel.Op :=
  [ ProgressChannel.Publish (js "a") (event "Parsing form data..." active 1);
    ProgressChannel.Publish (js "b") (event "Parsing form data..." active 2);
    ProgressChannel.Drain (js "b");
    ProgressChannel.Publish (js "a") (event "Form data parsed successfully" completed 3);
    ProgressChannel.Dispose (js "b") ].

Definition only_b : list ProgressChannel.Op :=
  [ ProgressChannel.Publish (js "b") (event "Parsing form data..." active 2);
    ProgressChannel.Drain (js "b");
    ProgressChannel.Dispose (js "b") ].

End UploadSamples.

(** ** Reading the obligation extraction *)

Module ObligationsSpec.
Import Obligations.

(** [s.includes(p)]. *)
Fixpoint includes (p s : jsstring) : bool :=
  Json.starts_with p s
  || match s with
     | [] => false
     | _ :: s' => includes p s'
     end.

Definition open_bracket : N := chr "[".
Definition close_bracket : N := chr "]".
Definition quote : jsstring := [34%N].

(** A text without square brackets: a preamble, a postamble, a fence line. *)
Definition bracket_free (s : jsstring) : Prop :=
  (open_bracket ∉ s) /\ (close_bracket ∉ s).

(** A text that starts with [[] and ends with []]. *)
Definition bracketed (s : jsstring) : Prop :=
  head s = Some open_bracket /\ last s = Some close_bracket.

(** Sample answers of the model. *)

(** The array literal [["```"]]: one string holding a code fence. *)
Definition fence_literal : jsstring :=
  js "[" ++ quote ++ fence ++ quote ++ js "]".

(** The same literal in a fenced block with a preamble and a postamble. *)
Definition fenced_answer : jsstring :=
  js "Here is the list:" ++ nl ++ fence ++ js "json" ++ nl
  ++ fence_literal ++ nl ++ fence ++ nl ++ js "Let me know if you need more.".

(** [[{}]]: one record without any field. *)
Definition empty_record_answer : jsstring := js "[{}]".

(** A well-formed answer: one complete record in a fenced block. *)
Definition one_record_literal : jsstring :=
  js "[{" ++ quote ++ js "party" ++ quote ++ js ":" ++ quote ++ js "Lessee" ++ quote
  ++ js "," ++ quote ++ js "phase" ++ quote ++ js ":" ++ quote ++ js "GENERAL" ++ quote
  ++ js "}]".

Definition one_record_preamble : jsstring :=
  js "Sure, here it is." ++ nl ++ fence ++ js "json" ++ nl.

Definition one_record_postamble : jsstring :=
  nl ++ fence ++ nl ++ js "These are the obligations I found.".

Definition one_record_answer : jsstring :=
  one_record_preamble ++ one_record_literal ++ one_record_postamble.

Definition one_record : jsval :=
  JObject [ (js "party", JString (js "Lessee")); (js "phase", JString (js "GENERAL")) ].

(** A request answered with [[{}]], rendered by some CSV writer. *)
Definition sample_request : Request :=
  {| humanReadableText := Some (js "The lessee shall mow the lawn.");
     fileName := Some (js "lease.pdf");
     leaseType := Some (js "solar") |}.

Definition sample_env : Env :=
  {| request_json := Returned sample_request;
     GEMINI_API_KEY := true;
     generateContent := fun _ => Returned empty_record_answer;
     render_csv := fun _ _ => Returned (js "Document Name,Party", js "lease-technical-obligations.csv") |}.

End ObligationsSpec.

(** ** Reading the chat route *)

Module ChatSpec.
Import Chat.

(** The response the route reserves for a failed model call. *)
Definition generation_failed : Response :=
  JsonError 500 (js "Failed to generate AI response. Please try again.").

(** A response is a success when it is the 200 answer carrying a message. *)
Definition is_success (r : Response) : bool :=
  match r with
  | JsonOk _ _ _ => true
  | JsonError _ _ => false
  end.

(** A single-document chat turn whose model call fails. *)
Definition sample_file : FileRow :=
  {| file_id := js "f1"; file_name := js "lease.pdf";
     extracted_text := Some (js "This lease is made between the parties.");
     analysis_results := None |}.

Definition sample_request : Request :=
  {| message := Some (js "When does the lease end?");
     fileId := Some (js "f1");
     sessionId := Some (js "s1");
     projectId := None;
     fileIds := None |}.

Definition sample_env : Env :=
  {| getUser := Some (js "u1");
     GEMINI_API_KEY := true;
     request_json := Returned sample_request;
     select_file := Some sample_file;
     select_session_file_ids := None;
     select_project_files := fun _ => None;
     insert_session := Some (js "s2");
     insert_user_message := true;
     insert_assistant_message := true |}.

(** A project chat turn over two files, in a new session. *)
Definition sample_project_request : Request :=
  {| message := Some (js "Which lease ends first?");
     fileId := None;
     sessionId := None;
     projectId := Some (js "p1");
     fileIds := Some [js "f1"; js "f2"] |}.

Definition sample_project_env : Env :=
  {| getUser := Some (js "u1");
     GEMINI_API_KEY := true;
     request_json := Returned sample_project_request;
     select_file := None;
     select_session_file_ids := None;
     select_project_files := fun _ => Some [sample_file; sample_file];
     insert_session := Some (js "s2");
     insert_user_message := true;
     insert_assistant_message := true |}.

(** What the service call of lines 123-141 depends on, by the target of
    the turn: the prompt assembled for it, the apology of the method's
    [catch], and the chat type of the answer. *)
Definition prompt_of (document_prompt : list N -> FileRow -> Outcome (list N))
    (project_prompt : list N -> list FileRow -> Outcome (list N))
    (msg : jsstring) (target : Target) : Outcome (list N) :=
  match target with
  | OneFile fileData => document_prompt msg fileData
  | Project projectFiles => project_prompt msg projectFiles
  end.

Definition apology_of (target : Target) (e : Thrown) : jsstring :=
  match target with
  | OneFile _ => document_apology e
  | Project _ => project_apology e
  end.

Definition chatType_of (target : Target) : ChatType :=
  match target with
  | OneFile _ => document
  | Project _ => project
  end.

Definition quota_error : Thrown := ErrorObject (js "quota exceeded").

(** A model that always throws, and a prompt assembly that succeeds. *)
Definition failing_model (fullPrompt : jsstring) : Outcome (list N) := Threw quota_error.
Definition sample_document_prompt (message : jsstring) (doc : FileRow) : Outcome (list N) :=
  Returned (js "Document Text (for reference):" ++ nl ++ default [] (extracted_text doc)
            ++ nl ++ nl ++ js "User Question: " ++ message).
Definition sample_project_prompt (message : jsstring) (docs : list FileRow)
    : Outcome (list N) :=
  Returned (js "Portfolio Context:" ++ nl ++ nl ++ js "User Question: " ++ message).

End ChatSpec.
(** ** CSV output ([src/app/api/generate-obligations-csv/route.ts], lines 126-172) *)

Module CsvExport.
Import Obligations.

Definition comma : N := 44.
Definition dquote : N := 34.
Definition line_feed : N := 10.

(** [s.includes(c)] for a one-character needle. *)
Definition includes (c : N) (s : jsstring) : bool := existsb (N.eqb c) s.

(** [s.replace(re, dq + dq)] where [re] is the global pattern of one
    double quote [dq]: every double quote is doubled. *)
Fixpoint double_quotes (s : jsstring) : jsstring :=
  match s with
  | [] => []
  | c :: s' =>
      if N.eqb c dquote then dquote :: dquote :: double_quotes s'
      else c :: double_quotes s'
  end.

(** [arr.join(sep)] on an array of strings. *)
Fixpoint join (sep : jsstring) (arr : list jsstring) : jsstring :=
  match arr with
  | [] => []
  | x :: rest =>
      match rest with
      | [] => x
      | _ :: _ => x ++ sep ++ join sep rest
      end
  end.

(** The body of [formatCSVField] once [stringField] is computed: a field
    with a comma, a double quote or a line feed is wrapped in double
    quotes, its own quotes doubled. *)
Definition escape (stringField : jsstring) : jsstring :=
  if includes comma stringField || includes dquote stringField
     || includes line_feed stringField
  then [dquote] ++ double_quotes stringField ++ [dquote]
  else stringField.

(** What the engine decides: the double a number lexeme denotes, and the
    date text of the locale. *)
Record Engine := {
  Number_is_zero : jsstring -> bool;       (* the number is +0 or -0 *)
  Number_toString : jsstring -> jsstring;  (* String(n) *)
  toLocaleDateString : nat -> jsstring
      (* new Date().toLocaleDateString(), at its k-th evaluation *)
}.

Section WithEngine.
Context (E : Engine).

(** A value is truthy unless it is [null], [false], a zero or the empty
    string. *)
Definition truthy (v : jsval) : bool :=
  match v with
  | JNull => false
  | JBool b => b
  | JNumber n => negb (Number_is_zero E n)
  | JString [] => false
  | JString (_ :: _) => true
  | JArray _ | JObject _ => true
  end.

(** An object parsed from JSON has the own key. *)
Definition has_own (key : string) (members : list (list N * jsval)) : bool :=
  bool_decide (js key ∈ map fst members).

(** [String(v)]; [None] is the thrown [TypeError].  An array is joined
    with commas, [null] elements giving the empty string; an object gives
    [[object Object]] through the inherited [toString], and cannot be
    converted when an own [toString] key hides it. *)
Fixpoint String_of (v : jsval) : option jsstring :=
  match v with
  | JNull => Some (js "null")
  | JBool true => Some (js "true")
  | JBool false => Some (js "false")
  | JNumber n => Some (Number_toString E n)
  | JString s => Some s
  | JArray items =>
      option_map (join [comma])
        ((fix elements (l : list jsval) : option (list (list N)) :=
            match l with
            | [] => Some []
            | x :: l' =>
                match match x with JNull => Some [] | _ => String_of x end,
                      elements l' with
                | Some a, Some b => Some (a :: b)
                | _, _ => None
                end
            end) items)
  | JObject members =>
      if has_own "toString" members then None else Some (js "[object Object]")
  end.

(** [v || ''] where [v] is [undefined] when absent. *)
Definition or_empty (v : option jsval) : jsval :=
  match v with
  | Some v => if truthy v then v else JString []
  | None => JString []
  end.

Definition csvHeaders : list jsstring :=
  map js [ "Document Name"; "Party"; "Description"; "Timeline"; "Enforceability";
           "Phase"; "Consequence"; "Category"; "Lease Type"; "Generated Date" ]%string.

(** The array built for the [k]-th obligation (lines 140-151); [None] is
    the [TypeError] of reading a property of [null].  Values other than
    objects have none of the seven properties. *)
Definition csvRow (req : Request) (k : nat) (obligation : jsval) : option (list jsval) :=
  match obligation with
  | JNull => None
  | _ =>
      let field key := or_empty (Json.get obligation (js key)) in
      Some [ JString (opt_or_str (fileName req) (js "Unknown Document"));
             field "party"%string; field "description"%string;
             field "timeline"%string; field "enforceability"%string;
             field "phase"%string; field "consequence"%string;
             field "category"%string;
             JString (opt_or_str (leaseType req) []);
             JString (toLocaleDateString E k) ]
  end.

(** [formatCSVField(field)] (lines 154-160). *)
Definition formatCSVField (field : jsval) : option jsstring :=
  option_map escape (String_of (or_empty (Some field))).

(** All or nothing: the results of [f] on a list, unless one throws. *)
Fixpoint all_of {A B} (f : A -> option B) (l : list A) : option (list B) :=
  match l with
  | [] => Some []
  | x :: l' =>
      match f x, all_of f l' with
      | Some y, Some ys => Some (y :: ys)
      | _, _ => None
      end
  end.

(** [obligations.map(obligation => [...])], the callback's index counting
    the evaluations of [new Date()]. *)
Fixpoint csvRows (req : Request) (k : nat) (obligations : list jsval)
    : option (list (list jsval)) :=
  match obligations with
  | [] => Some []
  | obligation :: rest =>
      match csvRow req k obligation, csvRows req (S k) rest with
      | Some row, Some rows => Some (row :: rows)
      | _, _ => None
      end
  end.

(** [row.map(formatCSVField).join(',')]. *)
Definition csvLine (row : list jsval) : option jsstring :=
  option_map (join [comma]) (all_of formatCSVField row).

(** [csvContent] (lines 162-165). *)
Definition csvContent (req : Request) (obligations : list jsval) : option jsstring :=
  match csvRows req 0 obligations with
  | Some rows =>
      option_map (fun lines => join [line_feed] (join [comma] csvHeaders :: lines))
        (all_of csvLine rows)
  | None => None
  end.

End WithEngine.

(** [name.replace(/\.[^/.]+$/, '')]: the leftmost dot that is followed, up
    to the end of the name, by one or more characters other than a slash
    and a dot is removed together with what follows it. *)
Definition extension_char (c : N) : bool :=
  negb (N.eqb c (chr "/")) && negb (N.eqb c (chr ".")).

Fixpoint strip_extension (name : jsstring) : jsstring :=
  match name with
  | [] => []
  | c :: rest =>
      if N.eqb c (chr ".") && negb (bool_decide (rest = [])) && forallb extension_char rest
      then []
      else c :: strip_extension rest
  end.

(** The [fileName] of the response (line 170). *)
Definition download_name (req : Request) : jsstring :=
  opt_or_str (option_map strip_extension (fileName req)) (js "document")
  ++ js "-technical-obligations.csv".

(** Lines 126-172 as a whole: the CSV text and the download name, unless
    building them throws. *)
Definition render (E : Engine) (req : Request) (obligations : list jsval)
    : option (list N * list N) :=
  option_map (fun csv => (csv, download_name req)) (csvContent E req obligations).

End CsvExport.

(** ** The CSV helper ([src/unnamed/part_004]) *)

Module CsvUtils.
Import CsvExport.

(** A value of a [CSVData] record.  A number is given by the text
    [String] renders it with. *)
Inductive CsvValue :=
| VString (s : jsstring)
| VNumber (text : jsstring)
| VBoolean (b : bool)
| VNull
| VUndefined.

(** A [CSVData] record through its index signature: its own keys in the
    order [Object.keys] lists them, and [row[header]]. *)
Record CSVData := {
  Object_keys : list jsstring;
  get : jsstring -> CsvValue
}.

(** [String(field)] of a field that is neither [null] nor [undefined]. *)
Definition String_of (field : CsvValue) : jsstring :=
  match field with
  | VString s => s
  | VNumber text => text
  | VBoolean true => js "true"
  | VBoolean false => js "false"
  | VNull => js "null"
  | VUndefined => js "undefined"
  end.

Definition formatCSVField (field : CsvValue) : jsstring :=
  match field with
  | VNull | VUndefined => []
  | _ => escape (String_of field)
  end.

(** [convertToCSV(data, headers)]; [data] is [None] when it is [null] or
    [undefined]. *)
Definition convertToCSV (data : option (list CSVData)) (headers : option (list (list N)))
    : jsstring :=
  match data with
  | None | Some [] => []
  | Some (first :: rest) =>
      let csvHeaders :=
        match headers with
        | Some h => h
        | None => Object_keys first
        end in
      join [line_feed]
        (join [comma] (map (fun h => formatCSVField (VString h)) csvHeaders)
         :: map (fun row =>
                   join [comma] (map (fun header => formatCSVField (get row header))
                                     csvHeaders))
                (first :: rest))
  end.

End CsvUtils.

(** ** Reading CSV text back *)

(** A reader of the records of RFC 4180: fields separated by commas, a
    field in double quotes holding commas, line breaks and doubled
    quotes, records separated by line breaks, and a line break after the
    last record that starts no further record (the empty text has no
    record).  The writers above end a line with a line feed, which the
    RFC does not have as a line break; a reader either takes the line
    feed alone as the line break and a carriage return as data, or, as a
    reader of RFC 4180 files that also accepts line feeds, takes both
    CR LF and a line feed.  It is no part of the application: the
    properties below use it to say what a consumer of the exported text
    gets. *)
Module CsvReader.
Import CsvExport.

Definition carriage_return : N := 13.

(** What ends a record outside double quotes. *)
Inductive LineBreak :=
| LineFeed       (* a line feed; a carriage return is data *)
| CrLfOrLf.      (* CR LF, or a line feed alone *)

Inductive Position :=
| RecordStart     (* at the start of the text, or after a line break *)
| FieldStart      (* after a comma *)
| Plain           (* inside an unquoted field *)
| Quoted          (* inside a quoted field *)
| AfterQuote.     (* after a double quote met inside a quoted field *)

(** Put a character in front of the first field of the first record. *)
Definition push (c : N) (records : list (list (list N))) : list (list (list N)) :=
  match records with
  | (f :: fields) :: rest => ((c :: f) :: fields) :: rest
  | [] :: rest => [[c]] :: rest
  | [] => [[[c]]]
  end.

(** Start a new field in front of the first record. *)
Definition new_field (records : list (list (list N))) : list (list (list N)) :=
  match records with
  | fields :: rest => ([] :: fields) :: rest
  | [] => [[[]]]
  end.

(** Start a new record in front. *)
Definition new_record (records : list (list (list N))) : list (list (list N)) :=
  [[]] :: records.

Fixpoint read (lb : LineBreak) (p : Position) (text : jsstring)
    : list (list (list N)) :=
  match text with
  | [] =>
      match p with
      | RecordStart => []          (* nothing after the last line break *)
      | _ => [[[]]]
      end
  | c :: rest =>
      match p with
      | Quoted =>
          if N.eqb c dquote then read lb AfterQuote rest
          else push c (read lb Quoted rest)
      | _ =>
          if N.eqb c dquote then
            match p with
            | RecordStart | FieldStart => read lb Quoted rest
            | AfterQuote => push dquote (read lb Quoted rest)
            | _ => push c (read lb Plain rest)
            end
          else if N.eqb c comma then new_field (read lb FieldStart rest)
          else if N.eqb c line_feed then new_record (read lb RecordStart rest)
          else
            match lb, rest with
            | CrLfOrLf, c' :: rest' =>
                if N.eqb c carriage_return && N.eqb c' line_feed
                then new_record (read lb RecordStart rest')
                else push c (read lb Plain rest)
            | _, _ => push c (read lb Plain rest)
            end
      end
  end.

(** The records of a CSV text, each a list of fields. *)
Definition records_with (lb : LineBreak) (text : jsstring) : list (list (list N)) :=
  read lb RecordStart text.

(** The records as the writers mean them, with the line feed as the line
    break. *)
Definition records (text : jsstring) : list (list (list N)) :=
  records_with LineFeed text.

(** The text the writers produce for records of strings. *)
Definition written (rows : list (list (list N))) : jsstring :=
  join [line_feed] (map (fun row => join [comma] (map escape row)) rows).

End CsvReader.
(** ** The obligations endpoint on any request body *)

(** [Obligations.POST] takes the three members of the request body as
    strings, or as absent.  The body is whatever JSON the client sent,
    and the handler does not check it: here the same handler (lines
    51-178) is modelled for any body, with the CSV stage as the code of
    lines 126-172, run by an engine, instead of an oracle. *)
Module CsvEndpoint.
Import Obligations CsvExport.

Record Env := {
  request_json : Outcome jsval;              (* await request.json() *)
  GEMINI_API_KEY : bool;                     (* process.env.GEMINI_API_KEY is set *)
  generateContent : list N -> Outcome (list N)
      (* model.generateContent(fullPrompt), then response.text() *)
}.

Definition suffix : jsstring := js "-technical-obligations.csv".

(** [fileName?.replace(/\.[^/.]+$/, '') || 'document'], then the suffix
    (line 170).  The optional chain stops at [null] and [undefined]
    only; a number, a boolean, an array and an object have no [replace]
    method, and [None] is the [TypeError] of calling it. *)
Definition download_name (fileName : option jsval) : option jsstring :=
  match fileName with
  | None | Some JNull => Some (js "document" ++ suffix)
  | Some (JString name) => Some (or_str (strip_extension name) (js "document") ++ suffix)
  | Some _ => None
  end.

Section WithEngine.
Context (E : Engine).
Context (JSON_parse : list N -> option jsval).

(** [a || b] where [a] is [undefined] when absent. *)
Definition or_else (a : option jsval) (b : jsval) : jsval :=
  match a with
  | Some v => if truthy E v then v else b
  | None => b
  end.

(** The array built for the [k]-th obligation (lines 140-151); [None] is
    the [TypeError] of reading a property of [null]. *)
Definition csvRow (fileName leaseType : option jsval) (k : nat) (obligation : jsval)
    : option (list jsval) :=
  match obligation with
  | JNull => None
  | _ =>
      let field key := or_empty E (Json.get obligation (js key)) in
      Some [ or_else fileName (JString (js "Unknown Document"));
             field "party"%string; field "description"%string;
             field "timeline"%string; field "enforceability"%string;
             field "phase"%string; field "consequence"%string;
             field "category"%string;
             or_else leaseType (JString []);
             JString (toLocaleDateString E k) ]
  end.

Fixpoint csvRows (fileName leaseType : option jsval) (k : nat) (obligations : list jsval)
    : option (list (list jsval)) :=
  match obligations with
  | [] => Some []
  | obligation :: rest =>
      match csvRow fileName leaseType k obligation,
            csvRows fileName leaseType (S k) rest with
      | Some row, Some rows => Some (row :: rows)
      | _, _ => None
      end
  end.

(** [csvContent] (lines 162-165). *)
Definition csvContent (fileName leaseType : option jsval) (obligations : list jsval)
    : option jsstring :=
  match csvRows fileName leaseType 0 obligations with
  | Some rows =>
      option_map (fun lines => join [line_feed] (join [comma] csvHeaders :: lines))
        (all_of (csvLine E) rows)
  | None => None
  end.

(** [POST] (lines 51-178).  Destructuring the body throws on [null];
    every other value that is no object has none of the three members.
    The prompt is [OBLIGATIONS_EXTRACTION_PROMPT + humanReadableText],
    which converts the member as [String] does.  Whatever is thrown is
    answered by the outer [catch]. *)
Definition POST (env : Env) : Response :=
  match request_json env with
  | Threw _ | Returned JNull => JsonError 500 (js "Internal server error")
  | Returned body =>
      let fileName := Json.get body (js "fileName") in
      let leaseType := Json.get body (js "leaseType") in
      match Json.get body (js "humanReadableText") with
      | None => JsonError 400 (js "No analysis text provided")
      | Some humanReadableText =>
          if negb (truthy E humanReadableText) then
            JsonError 400 (js "No analysis text provided")
          else if negb (GEMINI_API_KEY env) then
            JsonError 500 (js "API key not configured")
          else
            match String_of E humanReadableText with
            | None => JsonError 500 (js "Internal server error")
            | Some text =>
                let fullPrompt := OBLIGATIONS_EXTRACTION_PROMPT ++ text in
                match generateContent env fullPrompt with
                | Threw _ => JsonError 500 (js "Internal server error")
                | Returned obligationsText =>
                    let obligations := extractObligations JSON_parse obligationsText in
                    match csvContent fileName leaseType obligations,
                          download_name fileName with
                    | Some csvContent, Some name =>
                        JsonCsv csvContent name (length obligations)
                    | _, _ => JsonError 500 (js "Internal server error")
                    end
                end
            end
      end
  end.

End WithEngine.

End CsvEndpoint.
(** ** Reading the CSV writers *)

Module CsvSpec.
Import Obligations CsvExport CsvReader.

(** A field is wrapped exactly when it holds one of the three characters. *)
Definition special (s : jsstring) : bool :=
  includes comma s || includes dquote s || includes line_feed s.

(** The text after a field: the end, a comma or a line feed. *)
Definition at_separator (rest : jsstring) : Prop :=
  match rest with
  | [] => True
  | c :: _ => c = comma \/ c = line_feed
  end.

Definition prepend (f : jsstring) (rs : list (list (list N))) : list (list (list N)) :=
  foldr push rs f.

(** The text after a line: the end, or a line feed and more lines. *)
Definition following (lb : LineBreak) (tail : jsstring) : list (list (list N)) :=
  match tail with
  | [] => []
  | _ :: s => read lb RecordStart s
  end.

Definition at_line_end (tail : jsstring) : Prop :=
  tail = [] \/ exists s, tail = line_feed :: s.

(** A field in which the two kinds of reader cannot differ. *)
Definition cr_free (lb : LineBreak) (f : jsstring) : Prop :=
  lb = LineFeed \/ carriage_return ∉ f.

(** What is read back from the text written for [rows]: all of them,
    except a last row of one empty field, of which the text holds
    nothing but the line feed before it. *)
Fixpoint readable (rows : list (list (list N))) : list (list (list N)) :=
  match rows with
  | [] => []
  | row :: rest =>
      match rest with
      | [] => if bool_decide (row = [[]]) then [] else [row]
      | _ :: _ => row :: readable rest
      end
  end.

(** The text of a row element: [String(field || '')]. *)
Definition field_text (E : Engine) (field : jsval) : option jsstring :=
  String_of E (or_empty E (Some field)).

(** The rendering step of an environment is the code of lines 126-172,
    run by an engine. *)
Definition renders (E : Engine) (env : Env) : Prop :=
  forall req obligations,
    match render E req obligations with
    | Some out => render_csv env req obligations = Returned out
    | None => exists e, render_csv env req obligations = Threw e
    end.

(** A record whose values are all strings, numbers, booleans or [null]. *)
Definition scalar (v : jsval) : bool :=
  match v with
  | JArray _ | JObject _ => false
  | _ => true
  end.

Definition flat_record (obligation : jsval) : Prop :=
  match obligation with
  | JObject members => Forall (fun m => scalar (snd m) = true) members
  | _ => False
  end.

(** The JSON body a [Request] stands for: an object with the members
    present, each a string. *)
Definition member_of (key : string) (o : option (list N)) : list (list N * jsval) :=
  match o with
  | Some s => [(js key, JString s)]
  | None => []
  end.

Definition body_of (req : Request) : jsval :=
  JObject (member_of "humanReadableText" (humanReadableText req)
           ++ member_of "fileName" (fileName req)
           ++ member_of "leaseType" (leaseType req)).

Definition endpoint_of (env : Env) : CsvEndpoint.Env :=
  {| CsvEndpoint.request_json :=
       match request_json env with
       | Returned req => Returned (body_of req)
       | Threw e => Threw e
       end;
     CsvEndpoint.GEMINI_API_KEY := GEMINI_API_KEY env;
     CsvEndpoint.generateContent := generateContent env |}.

(** The endpoint answers with a CSV under the download name [name]: the
    count is [n], and the text reads back as the header row and [n]
    rows. *)
Definition exported (response : Response) (name : jsstring) (n : nat) : Prop :=
  exists csv rows,
    response = JsonCsv csv name n
    /\ records csv = csvHeaders :: rows
    /\ length rows = n.

(** The text [convertToCSV] writes for a value, before escaping. *)
Definition cell (field : CsvUtils.CsvValue) : jsstring :=
  match field with
  | CsvUtils.VNull | CsvUtils.VUndefined => []
  | _ => CsvUtils.String_of field
  end.

End CsvSpec.

(** ** Sample exports *)

Module CsvSamples.
Import Obligations CsvExport CsvReader CsvSpec.

Definition engine : Engine :=
  {| Number_is_zero := fun lexeme => str_eqb lexeme (js "0");
     Number_toString := fun lexeme => lexeme;
     toLocaleDateString := fun _ => js "11/2/2026" |}.

Definition request : Request :=
  {| humanReadableText := Some (js "The lessee pays rent, quarterly.");
     fileName := Some (js "lease.v2.pdf");
     leaseType := Some (js "solar") |}.

(** An environment whose model answers [text] and whose rendering step
    is the code. *)
Definition answering (text : jsstring) : Env :=
  {| request_json := Returned request;
     GEMINI_API_KEY := true;
     generateContent := fun _ => Returned text;
     render_csv := fun req obligations =>
       match render engine req obligations with
       | Some out => Returned out
       | None => Threw (ErrorObject (js "Cannot read properties of null"))
       end |}.

(** An answer of one record whose description holds a comma, and its
    parse. *)
Definition rent_answer : jsstring :=
  js "[{" ++ [dquote] ++ js "party" ++ [dquote] ++ js ":"
  ++ [dquote] ++ js "Lessee" ++ [dquote] ++ js ","
  ++ [dquote] ++ js "description" ++ [dquote] ++ js ":"
  ++ [dquote] ++ js "Pay rent, quarterly" ++ [dquote] ++ js "}]".

Definition rent : jsval :=
  JObject [ (js "party", JString (js "Lessee"));
            (js "description", JString (js "Pay rent, quarterly")) ].

(** A request body with the three members, and one whose [fileName] is a
    number. *)
Definition body (fileName : jsval) : jsval :=
  JObject [ (js "humanReadableText", JString (js "The lessee pays rent, quarterly."));
            (js "fileName", fileName);
            (js "leaseType", JString (js "solar")) ].

Definition sending (fileName : jsval) : CsvEndpoint.Env :=
  {| CsvEndpoint.request_json := Returned (body fileName);
     CsvEndpoint.GEMINI_API_KEY := true;
     CsvEndpoint.generateContent := fun _ => Returned rent_answer |}.

(** A table whose fields hold a comma, quotes and a line feed. *)
Definition table : list (list (list N)) :=
  [ [js "Party"; js "Description"];
    [js "Lessee"; js "Pay rent, quarterly"];
    [[dquote] ++ js "PRP" ++ [dquote]; js "line one" ++ nl ++ js "line two"] ].

(** A record of three columns, as [convertToCSV] takes it. *)
Definition table_row (name note : jsstring) (n : jsstring) : CsvUtils.CSVData :=
  {| CsvUtils.Object_keys := [js "name"; js "note"; js "count"];
     CsvUtils.get := fun key =>
       if str_eqb key (js "name") then CsvUtils.VString name
       else if str_eqb key (js "note") then CsvUtils.VString note
       else if str_eqb key (js "count") then CsvUtils.VNumber n
       else CsvUtils.VUndefined |}.

End CsvSamples.
(** ** Reading the traces of the upload handler *)

From Stdlib Require Import Sorted.

Module UploadTrace.
Import Upload.

(** How far a request has come, by the external calls it has made. *)
Inductive Stage :=
| Fresh           (* no call yet *)
| Stored          (* the file is in storage *)
| Extracted       (* the text-extraction call is made *)
| Analysing       (* at least one analysis call is made *)
| Saved.          (* the insert is made *)

Definition after (s : Stage) (c : Call) : option Stage :=
  match s, c with
  | Fresh, StorageUpload _ _ _ => Some Stored
  | Stored, ExtractText _ _ => Some Extracted
  | Extracted, Analyze _ | Analysing, Analyze _ => Some Analysing
  | Extracted, DbInsert _ | Analysing, DbInsert _ => Some Saved
  | _, _ => None
  end.

(** The stage a list of calls leads to from [s]; [None] when the calls
    are out of order. *)
Fixpoint stage (s : Stage) (cs : list Call) : option Stage :=
  match cs with
  | [] => Some s
  | c :: cs' =>
      match after s c with
      | Some s' => stage s' cs'
      | None => None
      end
  end.

(** The time stamps of [evs] are readings of the clock, taken in the
    order of the events, each a later reading than the one before, all
    among the readings number [k] to [k' - 1]. *)
Definition stamped (env : Env) (k k' : nat) (evs : list ProgressEvent) : Prop :=
  exists ks,
    map timestamp evs = map (clock env) ks
    /\ StronglySorted lt ks
    /\ Forall (fun i => k <= i < k') ks.

(** The session id a request works with once its form is parsed: the
    one the client sent, or a generated one. *)
Definition chosen (env : Env) (sid : jsstring) : Prop :=
  exists form,
    formData env = Returned form
    /\ match get_sessionId form with
       | Some (c :: s) => sid = c :: s
       | _ => exists t, sid = js "upload-" ++ decimal t ++ js "-" ++ random_suffix env
       end.

(** What a request that started in [w0] has done to the progress store
    when it is in [w]: nothing before its session id is fixed ([None]),
    and afterwards only appended events to the queue of that session. *)
Definition store_grows (env : Env) (w0 : World) (osid : option (list N)) (w : World)
    : Prop :=
  match osid with
  | None => progressStore w = progressStore w0
  | Some sid =>
      chosen env sid
      /\ (forall s, s <> sid -> progressStore w !! s = progressStore w0 !! s)
      /\ exists evs,
           ProgressChannel.queue sid (progressStore w)
           = ProgressChannel.queue sid (progressStore w0) ++ evs
           /\ stamped env (reads w0) (reads w) evs
  end.

(** The invariant of a request between two statements. *)
Definition Inv (env : Env) (w0 : World) (osid : option (list N)) (st : Stage) (w : World)
    : Prop :=
  store_grows env w0 osid w
  /\ reads w0 <= reads w
  /\ exists cs, calls w = calls w0 ++ cs /\ stage Fresh cs = Some st.

(** How a piece of handler code leaves: by [return] or by [throw]. *)
Definition Exit : Type := Response + Thrown.

(** [triple P m Q X]: from a world that satisfies [P], the code [m]
    either falls through with a value and a world that satisfy [Q], or
    leaves with an exit and a world that satisfy [X]. *)
Definition triple {A} (P : World -> Prop) (m : M A)
    (Q : A -> World -> Prop) (X : Exit -> World -> Prop) : Prop :=
  forall w, P w ->
    match m w with
    | (Next a, w') => Q a w'
    | (Return r, w') => X (inl r) w'
    | (Throw e, w') => X (inr e) w'
    end.

Definition is_success (r : Response) : bool :=
  match r with
  | JsonOk _ _ _ => true
  | _ => false
  end.

(** Every early exit of the handler: an error response or a thrown
    value, in a world that satisfies the invariant at some stage. *)
Definition leaves (env : Env) (w0 : World) (x : Exit) (w : World) : Prop :=
  match x with
  | inl r => is_success r = false
  | inr _ => True
  end
  /\ exists osid st, Inv env w0 osid st w.

(** The events a request appended to the queue of a session. *)
Definition appended (sid : jsstring) (w w' : World) : list ProgressEvent :=
  drop (length (ProgressChannel.queue sid (progressStore w)))
       (ProgressChannel.queue sid (progressStore w')).

(** The session a statement may emit to: none before the session id is
    fixed, that session afterwards. *)
Definition may_emit (osid : option (list N)) (sid : jsstring) : Prop :=
  sid = [] \/ osid = Some sid.

(** The steps of the [active] events among [evs], in order. *)
Definition active_steps (evs : list ProgressEvent) : list jsstring :=
  map step
    (List.filter (fun e => match status e with active => true | _ => false end) evs).

(** Since [w0], the request has appended to the queue of [sid] events
    whose active steps are [steps]. *)
Definition announced (sid : jsstring) (w0 : World) (steps : list (list N)) (w : World)
    : Prop :=
  exists evs,
    ProgressChannel.queue sid (progressStore w)
    = ProgressChannel.queue sid (progressStore w0) ++ evs
    /\ active_steps evs = steps.

(** The active steps of a request that gets to its end, for the modes
    it runs. *)
Definition steps_before_analysis : list jsstring :=
  [ js "Parsing form data..."; js "Converting file to buffer...";
    js "Uploading to storage..."; js "Extracting text with Gemini...";
    js "Starting analysis..." ].

Definition running (mode : jsstring) : jsstring :=
  js "Running " ++ mode ++ js " analysis...".

Definition steps_to_the_end (modes : list jsstring) : list jsstring :=
  steps_before_analysis ++ map running modes
  ++ [ js "Analysis completed, saving to database..." ].

(** The loop body runs an analysis for [mode]: the registry lookup gives
    a prompt or an inherited member. *)
Definition runs (mode : jsstring) : bool :=
  match lookup_prompt mode with
  | Undefined => false
  | _ => true
  end.

(** An early exit: an error response or a thrown value. *)
Definition failed (x : Exit) (_ : World) : Prop :=
  match x with
  | inl r => is_success r = false
  | inr _ => True
  end.

End UploadTrace.

(** ** Sample uploads *)

Module UploadTraceSamples.
Import Upload.
Definition world : World := {| progressStore := ∅; reads := 0; calls := [] |}.

Definition pdf : File :=
  {| file_name := js "lease.pdf"; file_type := js "application/pdf"; file_size := 204800;
     arrayBuffer := Returned [37; 80; 68; 70]%N |}.

Definition form : FormData :=
  {| get_sessionId := Some (js "s1");
     get_file := Some (FileValue pdf);
     get_leaseType := Some (js "wind");
     get_analysisModes := Some (js "standard,renewal") |}.

(** Every external call succeeds; the clock advances by one at each reading. *)
Definition good_upload : Env :=
  {| GEMINI_API_KEY := true;
     getUser := User (js "u1");
     formData := Returned form;
     random_suffix := js "k3j9x0a1b";
     storage_upload := Uploaded (js "u1/7-lease.pdf");
     extract_text := Returned (repeat (chr "x") 150);
     analyze := fun _ => Returned (js "{}");
     db_insert := Inserted (js "row-1");
     clock := fun k => N.of_nat (1000 + k);
     toFixed1_MB := fun _ => js "0.2";
     inherited_text := fun _ => js "function () { [native code] }" |}.

(** The same request without a signed-in user. *)
Definition signed_out : Env :=
  {| GEMINI_API_KEY := true;
     getUser := NoUser;
     formData := Returned form;
     random_suffix := js "k3j9x0a1b";
     storage_upload := Uploaded (js "u1/7-lease.pdf");
     extract_text := Returned (repeat (chr "x") 150);
     analyze := fun _ => Returned (js "{}");
     db_insert := Inserted (js "row-1");
     clock := fun k => N.of_nat (1000 + k);
     toFixed1_MB := fun _ => js "0.2";
     inherited_text := fun _ => js "function () { [native code] }" |}.
End UploadTraceSamples.
(** ** Reading the event stream ([src/unnamed/part_001]) *)

Module ProgressStream.
Import ProgressChannel.

(** What happens on the single thread while the stream of one session is
    open: some request emits an event, the interval callback of the
    stream fires, the client of the stream goes away. *)
Inductive Happening :=
| Emit (sessionId : jsstring) (progressData : ProgressEvent)
| Interval
| Abort.

Definition happen (sessionId : jsstring) (h : Happening) (c : Stream * Store)
    : Stream * Store :=
  match h with
  | Emit s progressData => (fst c, publish s progressData (snd c))
  | Interval => tick sessionId c
  | Abort => abort sessionId c
  end.

Definition play (sessionId : jsstring) (hs : list Happening) (c : Stream * Store)
    : Stream * Store :=
  foldl (fun c h => happen sessionId h c) c hs.

(** The updates among the messages of a stream, in order. *)
Definition updates (ms : list Message) : list ProgressEvent :=
  flat_map (fun m => match m with Update u => [u] | Connected _ => [] end) ms.

(** The events emitted to a session, in order. *)
Definition emitted (sessionId : jsstring) (hs : list Happening) : list ProgressEvent :=
  flat_map (fun h =>
    match h with
    | Emit s progressData => if bool_decide (s = sessionId) then [progressData] else []
    | _ => []
    end) hs.

Definition is_Abort (h : Happening) : bool :=
  match h with Abort => true | _ => false end.

(** A sample run: two events, a tick, a third event. *)
Definition ev (s : string) (t : N) : ProgressEvent :=
  {| step := js s; status := active; details := NoDetails; timestamp := t |}.

Definition sample_run : list Happening :=
  [ Emit (js "s1") (ev "Parsing form data..." 1);
    Emit (js "s2") (ev "Parsing form data..." 2);
    Emit (js "s1") (ev "Uploading to storage..." 3);
    Interval;
    Emit (js "s1") (ev "Extracting text with Gemini..." 4) ].

End ProgressStream.
(** ** The upload page ([src/app/upload/page.tsx]) *)

Module UploadPage.
Import CsvExport.

(** The state update of [handleModeToggle(modeId)] (lines 101-103): a
    selected mode is removed, another one is added at the end. *)
Definition handleModeToggle (modeId : jsstring) (prev : list jsstring) : list jsstring :=
  if bool_decide (modeId ∈ prev)
  then filter (fun id => id <> modeId) prev
  else prev ++ [modeId].

(** [useState(["standard", "legal"])]. *)
Definition initial_modes : list jsstring := [js "standard"; js "legal"].

(** The selection after a series of clicks. *)
Definition toggled (clicks : list jsstring) : list jsstring :=
  foldl (fun prev modeId => handleModeToggle modeId prev) initial_modes clicks.

(** [prev.filter((_, i) => i !== index)], the callback's index counting
    from [i]. *)
Fixpoint filter_other {A} (index i : nat) (prev : list A) : list A :=
  match prev with
  | [] => []
  | x :: rest =>
      if Nat.eqb i index then filter_other index (S i) rest
      else x :: filter_other index (S i) rest
  end.

(** The state update of [removeFile(index)] (lines 312-314). *)
Definition removeFile {A} (index : nat) (prev : list A) : list A :=
  filter_other index 0 prev.

(** [formData.append('analysisModes', selectedModes.join(','))] (line 433). *)
Definition analysisModes_field (selectedModes : list jsstring) : jsstring :=
  join [comma] selectedModes.

(** A step of the progress list; its [status] starts as [pending]. *)
Record ProgressStep := { id : jsstring; name : jsstring }.

(** The steps [initializeProgress(sessionId)] lists (lines 316-335). *)
Definition initializeProgress (selectedModes : list jsstring) : list ProgressStep :=
  [ {| id := js "Parsing form data..."; name := js "Parsing form data" |};
    {| id := js "Converting file to buffer..."; name := js "Converting file to buffer" |};
    {| id := js "Uploading to storage..."; name := js "Uploading to storage" |};
    {| id := js "Extracting text with Gemini...";
       name := js "Extracting text with Gemini" |} ]
  ++ map (fun mode =>
            {| id := js "Running " ++ mode ++ js " analysis...";
               name := js "Running " ++ mode ++ js " analysis" |}) selectedModes
  ++ [ {| id := js "Analysis completed, saving to database...";
          name := js "Saving to database" |} ].

End UploadPage.

(** ** The chat history page ([src/app/chat-history/page.tsx]) *)

Module ChatHistoryPage.

(** [truncateMessage(message, maxLength)] (lines 127-130), for an
    integer [maxLength]; [message] is [None] when it is [null] or
    [undefined]. *)
Definition truncateMessage (message : option jsstring) (maxLength : Z) : jsstring :=
  match message with
  | None | Some [] => []
  | Some message =>
      if (maxLength <? Z.of_nat (length message))%Z
      then substring message 0 maxLength ++ js "..."
      else message
  end.

End ChatHistoryPage.
(** ** Reading the cleaning step *)

Module CleaningSpec.

(** The character the fence is made of. *)
Definition backtick : N := 96.

End CleaningSpec.

(** * Properties *)

(** ** The progress channel *)

Module ProgressChannelFacts.
Import ProgressChannel.

Implicit Types (s t : list N) (st : gmap (list N) (list ProgressEvent)).

Lemma publish_lookup s ev st :
  publish s ev st !! s = Some (queue s st ++ [ev]).
Proof.
  unfold publish, queue.
  destruct (st !! s) as [q|] eqn:E.
  - rewrite E. simpl. apply lookup_insert_eq.
  - rewrite lookup_insert_eq. simpl. apply lookup_insert_eq.
Qed.

Lemma publish_lookup_ne s t ev st :
  s ≠ t -> publish s ev st !! t = st !! t.
Proof.
  intros Hne. unfold publish.
  destruct (st !! s) as [q|] eqn:E.
  - rewrite E. by rewrite lookup_insert_ne.
  - rewrite lookup_insert_eq. by rewrite !lookup_insert_ne.
Qed.

Lemma queue_publish s ev st : queue s (publish s ev st) = queue s st ++ [ev].
Proof. unfold queue at 1. by rewrite publish_lookup. Qed.

Lemma queue_other s t st st' : st' !! t = st !! t -> queue t st' = queue t st.
Proof. unfold queue. by intros ->. Qed.

Lemma drain_sends_queue s st : fst (drain s st) = queue s st.
Proof.
  unfold drain, queue.
  destruct (st !! s) as [q|]; [|done].
  case_bool_decide as Hlen; [done|].
  destruct q; [done|]. simpl in Hlen. lia.
Qed.

Lemma drain_empties s st : queue s (snd (drain s st)) = [].
Proof.
  unfold drain, queue.
  destruct (st !! s) as [q|] eqn:E.
  - case_bool_decide as Hlen; simpl.
    + by rewrite lookup_insert_eq.
    + rewrite E. destruct q; [done|]. simpl in Hlen. lia.
  - simpl. by rewrite E.
Qed.

Lemma drain_lookup_ne s t st :
  s ≠ t -> snd (drain s st) !! t = st !! t.
Proof.
  intros Hne. unfold drain.
  destruct (st !! s) as [q|]; [|done].
  case_bool_decide; simpl; [|done].
  by rewrite lookup_insert_ne.
Qed.

Lemma dispose_lookup_ne s t st :
  s ≠ t -> dispose s st !! t = st !! t.
Proof. intros Hne. unfold dispose. by rewrite lookup_delete_ne. Qed.

Lemma apply_lookup_ne op t st :
  session_of op ≠ t -> apply op st !! t = st !! t.
Proof.
  destruct op as [s ev|s|s]; simpl; intros Hne.
  - by apply publish_lookup_ne.
  - by apply drain_lookup_ne.
  - by apply dispose_lookup_ne.
Qed.

Lemma run_lookup_ne ops t st :
  Forall (fun op => session_of op ≠ t) ops -> run ops st !! t = st !! t.
Proof.
  intros Hall. revert st.
  induction Hall as [|op ops Hop _ IH]; intros st; [done|].
  unfold run in *. simpl. rewrite IH. by apply apply_lookup_ne.
Qed.

(** An operation that does not consume the queue of [s] appends to it
    what it publishes to [s]. *)
Lemma queue_apply s op st :
  consumes s op = false ->
  queue s (apply op st) = queue s st ++ published s [op].
Proof.
  destruct op as [s' ev|s'|s']; simpl; intros Hc.
  - case_bool_decide as Hs.
    + subst s'. apply queue_publish.
    + rewrite app_nil_r. apply (queue_other s'). by apply publish_lookup_ne.
  - apply bool_decide_eq_false in Hc. rewrite app_nil_r.
    apply (queue_other s'). by apply drain_lookup_ne.
  - apply bool_decide_eq_false in Hc. rewrite app_nil_r.
    apply (queue_other s'). by apply dispose_lookup_ne.
Qed.

Lemma queue_run s ops st :
  Forall (fun op => consumes s op = false) ops ->
  queue s (run ops st) = queue s st ++ published s ops.
Proof.
  intros Hall. revert st.
  induction Hall as [|op ops Hop _ IH]; intros st.
  - simpl. by rewrite app_nil_r.
  - unfold run in *. simpl foldl. rewrite IH, (queue_apply _ _ _ Hop).
    unfold published. simpl. by rewrite app_nil_r, <- app_assoc.
Qed.

(** C6.  A drain of session [s] sends exactly the events published to [s]
    since its previous drain, oldest first, whatever happened to other
    sessions meanwhile; a second drain right after a drain sends nothing;
    and events published from the start of the process, before any stream
    was opened, are all sent by the first drain.  [ops] ranges over the
    operations between the two drains, none of which drains or disposes
    [s]. *)
Theorem drain_fifo_destructive s st ops :
  Forall (fun op => consumes s op = false) ops ->
  fst (drain s (run ops (snd (drain s st)))) = published s ops
  /\ fst (drain s (snd (drain s st))) = []
  /\ fst (drain s (run ops ∅)) = published s ops
  /\ fst (tick s (start s, run ops ∅))
     = {| isConnected := true; closed := false;
          enqueued := Connected s :: map Update (published s ops) |}.
Proof.
  intros Hall. repeat split.
  - by rewrite drain_sends_queue, (queue_run _ _ _ Hall), drain_empties.
  - by rewrite drain_sends_queue, drain_empties.
  - by rewrite drain_sends_queue, (queue_run _ _ _ Hall).
  - unfold tick, start. simpl.
    pose proof (drain_sends_queue s (run ops ∅)) as Hd.
    rewrite (queue_run _ _ _ Hall) in Hd. simpl in Hd.
    destruct (drain s (run ops ∅)) as [progress st']. simpl in *. by subst.
Qed.

(** C9.  For distinct sessions [s] and [t], publishing to [s], draining
    [s] and disposing [s] (as store operations, and as the handler's
    [emitProgress], the stream's interval callback and its abort listener),
    and any sequence of such operations on [s], leave the entry of [t] in
    the store, hence its queued events, unchanged. *)
Theorem sessions_do_not_interfere s t ev st ops :
  s ≠ t ->
  publish s ev st !! t = st !! t
  /\ snd (drain s st) !! t = st !! t
  /\ dispose s st !! t = st !! t
  /\ (forall env step status details w,
        Upload.progressStore (snd (Upload.emitProgress env s step status details w)) !! t
        = Upload.progressStore w !! t)
  /\ (forall stream, snd (tick s (stream, st)) !! t = st !! t)
  /\ (forall stream, snd (abort s (stream, st)) !! t = st !! t)
  /\ (Forall (fun op => session_of op = s) ops ->
      run ops st !! t = st !! t /\ queue t (run ops st) = queue t st).
Proof.
  intros Hne. repeat split.
  - by apply publish_lookup_ne.
  - by apply drain_lookup_ne.
  - by apply dispose_lookup_ne.
  - intros env step status details w. simpl. by apply publish_lookup_ne.
  - intros stream. unfold tick. destruct (isConnected stream); simpl; [|done].
    pose proof (drain_lookup_ne s t st Hne) as Hd.
    by destruct (drain s st).
  - intros stream. simpl. by apply dispose_lookup_ne.
  - apply run_lookup_ne. eapply Forall_impl; [eassumption|].
    simpl. intros op ->. exact Hne.
  - apply (queue_other s). apply run_lookup_ne.
    eapply Forall_impl; [eassumption|]. simpl. intros op ->. exact Hne.
Qed.

End ProgressChannelFacts.

(** ** The upload pipeline *)

Module UploadFacts.
Import Upload UploadSpec.

#[local] Arguments ProgressChannel.publish : simpl never.
#[local] Arguments js : simpl never.
#[local] Arguments decimal : simpl never.
#[local] Arguments substring : simpl never.
#[local] Arguments contextualPrompt : simpl never.
#[local] Arguments lookup_prompt : simpl never.
#[local] Arguments obj_set : simpl never.
#[local] Arguments error_info : simpl never.
#[local] Arguments insufficient : simpl never.

(** Evaluate a straight-line piece of handler code. *)
Ltac run_handler :=
  cbn [bind ret respond throw await when now call emitProgress logProgress
       logProgressCompleted handleError fail truthy advance
       progressStore reads calls fst snd].

Section Loop.
Context (env : Env) (lt text : list N).

Lemma analyze_mode_known sid mode k res w :
  known mode = true ->
  exists t w',
    analyze_mode env sid lt text mode k res w
    = (Next (S k, obj_set mode (stored (analyze env k) t) res), w')
    /\ calls w' = calls w ++ [analysis_call env lt text mode].
Proof.
  unfold known, analyze_mode, analysis_call, mode_prompt.
  destruct (lookup_prompt mode); intros Hk; try discriminate Hk;
    destruct (analyze env k) as [analysisText|e]; destruct sid as [|c sid'];
    run_handler; unfold stored;
    first [ exists 0%N; eexists; split; reflexivity
          | eexists _, _; split; reflexivity ].
Qed.

Lemma analyze_mode_unknown sid mode k res w :
  known mode = false ->
  exists w',
    analyze_mode env sid lt text mode k res w = (Next (k, res), w')
    /\ calls w' = calls w.
Proof.
  unfold known, analyze_mode.
  destruct (lookup_prompt mode); intros Hk; try discriminate Hk.
  run_handler. eexists; split; reflexivity.
Qed.

Lemma analyze_modes_spec sid modes : forall k res w,
  exists ts w',
    length ts = length (List.filter known modes)
    /\ analyze_modes env sid lt text modes k res w
       = (Next (store_all env k (zip (List.filter known modes) ts) res), w')
    /\ calls w' = calls w ++ map (analysis_call env lt text) (List.filter known modes).
Proof.
  induction modes as [|mode modes IH]; intros k res w.
  - exists [], w. simpl. by rewrite app_nil_r.
  - simpl analyze_modes. unfold bind. simpl List.filter.
    destruct (known mode) eqn:Hk.
    + destruct (analyze_mode_known sid mode k res w Hk) as (t & w1 & -> & Hc1).
      simpl fst. simpl snd.
      destruct (IH (S k) (obj_set mode (stored (analyze env k) t) res) w1)
        as (ts & w2 & Hlen & -> & Hc2).
      exists (t :: ts), w2. simpl. rewrite Hlen, Hc2, Hc1, <- app_assoc.
      done.
    + destruct (analyze_mode_unknown sid mode k res w Hk) as (w1 & -> & Hc1).
      simpl fst. simpl snd.
      destruct (IH k res w1) as (ts & w2 & Hlen & -> & Hc2).
      exists ts, w2. by rewrite Hlen, Hc2, Hc1.
Qed.
End Loop.


(** *** Which external calls a piece of handler code can make *)

Section AddsOnly.
Context (env : Env) (P : Call -> Prop).

Lemma adds_nothing {A} (m : M A) :
  (forall w, calls (snd (m w)) = calls w) -> adds_only P m.
Proof. intros H w. exists []. rewrite app_nil_r. split; [apply H|constructor]. Qed.

Lemma adds_only_ret {A} (a : A) : adds_only P (ret a).
Proof. by apply adds_nothing. Qed.

Lemma adds_only_respond {A} r : adds_only P (@respond A r).
Proof. by apply adds_nothing. Qed.

Lemma adds_only_throw {A} e : adds_only P (@throw A e).
Proof. by apply adds_nothing. Qed.

Lemma adds_only_now : adds_only P (now env).
Proof. by apply adds_nothing. Qed.

Lemma adds_only_call c : P c -> adds_only P (call c).
Proof. intros Hc w. exists [c]. split; [reflexivity|by constructor]. Qed.

Lemma adds_only_bind {A B} (m : M A) (k : A -> M B) :
  adds_only P m -> (forall a, adds_only P (k a)) -> adds_only P (bind m k).
Proof.
  intros Hm Hk w. unfold bind.
  destruct (Hm w) as (e1 & H1 & F1).
  destruct (m w) as [[a|r|e] w1]; simpl in H1.
  - destruct (Hk a w1) as (e2 & H2 & F2).
    exists (e1 ++ e2). rewrite H2, H1, <- app_assoc. split; [done|].
    by apply Forall_app.
  - by exists e1.
  - by exists e1.
Qed.

Lemma adds_only_when c m : adds_only P m -> adds_only P (when c m).
Proof. destruct c; simpl; [done|]. intros _. apply adds_only_ret. Qed.

Lemma adds_only_await {A} (o : Outcome A) : adds_only P (await o).
Proof. destruct o; [apply adds_only_ret|apply adds_only_throw]. Qed.

Lemma adds_only_emitProgress sid st s d : adds_only P (emitProgress env sid st s d).
Proof. by apply adds_nothing. Qed.

Lemma adds_only_logProgress s d sid : adds_only P (logProgress env s d sid).
Proof. apply adds_nothing. intros w. by destruct sid. Qed.

Lemma adds_only_logProgressCompleted s d sid :
  adds_only P (logProgressCompleted env s d sid).
Proof. apply adds_nothing. intros w. by destruct sid. Qed.

Lemma adds_only_handleError e c : adds_only P (handleError env e c).
Proof. by apply adds_nothing. Qed.

Lemma adds_only_fail {A} e c s : adds_only P (@fail env A e c s).
Proof. by apply adds_nothing. Qed.
End AddsOnly.

(** Break a handler into its statements. *)
Ltac adds_only_steps :=
  repeat first
    [ apply adds_only_emitProgress | apply adds_only_logProgress
    | apply adds_only_logProgressCompleted | apply adds_only_handleError
    | apply adds_only_fail
    | apply adds_only_ret | apply adds_only_respond | apply adds_only_throw
    | apply adds_only_now | apply adds_only_when | apply adds_only_await
    | apply adds_only_call; done
    | apply adds_only_bind; [|intros ?]
    | match goal with
      | |- adds_only _ (match ?x with _ => _ end) => destruct x
      end ].

(** Before the analysis loop the handler calls storage and the text
    extraction only. *)
Lemma prepare_adds_no_analysis env :
  adds_only (fun c => is_Analyze c = false) (prepare env).
Proof. unfold prepare, validate, extract. adds_only_steps. Qed.

(** *** The bindings in scope after a successful first half *)

Lemma bind_Next_inv {A B} (m : M A) (k : A -> M B) w b w' :
  bind m k w = (Next b, w') ->
  exists a w1, m w = (Next a, w1) /\ k a w1 = (Next b, w').
Proof.
  unfold bind. destruct (m w) as [[a|r|e] w1]; intros H; try discriminate H.
  by exists a, w1.
Qed.

Ltac invert_handler H :=
  repeat
    (cbv beta in H;
     lazymatch type of H with
     | bind (logProgress _ _ _ _) _ _ = (Next _, _) =>
         apply bind_Next_inv in H; destruct H as (_ & ? & _ & H)
     | bind (logProgressCompleted _ _ _ _) _ _ = (Next _, _) =>
         apply bind_Next_inv in H; destruct H as (_ & ? & _ & H)
     | bind (call _) _ _ = (Next _, _) =>
         apply bind_Next_inv in H; destruct H as (_ & ? & _ & H)
     | bind (now _) _ _ = (Next _, _) =>
         apply bind_Next_inv in H; destruct H as (? & ? & _ & H)
     | bind _ _ _ = (Next _, _) =>
         let H1 := fresh "Hstep" in
         apply bind_Next_inv in H; destruct H as (? & ? & H1 & H)
     end).

Lemma prepare_scope env w c :
  fst (prepare env w) = Next c ->
  exists form,
    GEMINI_API_KEY env = true
    /\ getUser env = User (user c)
    /\ formData env = Returned form
    /\ get_file form = Some (FileValue (file c))
    /\ file_type (file c) = js "application/pdf"
    /\ (file_size (file c) <= maxSize)%N
    /\ storage_upload env = Uploaded (uploadPath c)
    /\ leaseType c = opt_or_str (get_leaseType form) (js "solar")
    /\ analysisModes c
       = split_on (chr ",") (opt_or_str (get_analysisModes form) (js "standard"))
    /\ extractedText c = extraction env.
Proof.
  destruct (prepare env w) as [r w'] eqn:H. cbn [fst]. intros ->.
  unfold prepare in H. invert_handler H.
  injection H as <- _. cbn [user file uploadPath leaseType analysisModes extractedText].
  match goal with f : FormData |- _ => exists f end.
  (* the API key *)
  destruct (GEMINI_API_KEY env); [|discriminate Hstep].
  (* the user *)
  destruct (getUser env) as [e| |uid]; try discriminate Hstep0.
  injection Hstep0 as <- _.
  (* the form *)
  unfold await in Hstep1.
  destruct (formData env) as [form|e]; [|discriminate Hstep1].
  injection Hstep1 as <- _.
  (* validation *)
  unfold validate in Hstep3.
  destruct (get_file form) as [[[|ch s]|f]|]; try discriminate Hstep3.
  unfold str_eqb in Hstep3.
  case_bool_decide as Htype; [|discriminate Hstep3]. cbn [negb] in Hstep3.
  destruct (maxSize <? file_size f)%N eqn:Hsize; [discriminate Hstep3|].
  injection Hstep3 as <- _.
  apply N.ltb_ge in Hsize.
  (* storage *)
  destruct (storage_upload env) as [e|path].
  { apply bind_Next_inv in Hstep5 as (? & ? & _ & Hf). discriminate Hf. }
  injection Hstep5 as <- _.
  (* extraction *)
  match type of Hstep6 with
  | _ = (Next ?txt, _) => assert (Hext : extraction env = txt)
  end.
  { unfold extract in Hstep6. unfold extraction.
    invert_handler Hstep6.
    destruct (extract_text env) as [txt|e]; invert_handler Hstep6.
    - by injection Hstep6 as <- _.
    - match goal with H : handleError _ _ _ _ = _ |- _ => injection H as <- _ end.
      by injection Hstep6 as <- _. }
  by repeat split.
Qed.

(** *** The second half: gate, loop, insert *)

Lemma bind_step {A B} (m : M A) (k : A -> M B) w a w1 :
  m w = (Next a, w1) -> bind m k w = k a w1.
Proof. unfold bind. by intros ->. Qed.

Lemma finish_insufficient env c w :
  insufficient (extractedText c) = true ->
  exists t w',
    finish env c w
    = (Return (JsonError 400
                 {| error_message :=
                      js "Insufficient text content extracted from PDF for analysis";
                    error_context := js "Text Analysis Prerequisite";
                    error_timestamp := t |}), w')
    /\ calls w' = calls w.
Proof.
  intros Hgate. unfold finish. rewrite Hgate.
  destruct (sessionId c); run_handler; eexists _, _; split; reflexivity.
Qed.

Lemma finish_sufficient env c w :
  insufficient (extractedText c) = false ->
  exists ts,
    let ran := List.filter known (analysisModes c) in
    let results := store_all env 0 (zip ran ts) [] in
    length ts = length ran
    /\ calls (snd (finish env c w))
       = calls w ++ map (analysis_call env (leaseType c) (extractedText c)) ran
                 ++ [DbInsert (file_row c results)]
    /\ match db_insert env with
       | Inserted i =>
           fst (finish env c w)
           = Next (JsonOk {| id := i; row := file_row c results |} results (sessionId c))
       | DbError dbError =>
           exists t,
             fst (finish env c w)
             = Return (JsonError 500 (error_info t dbError (js "Database Save")))
       end.
Proof.
  intros Hgate. unfold finish. rewrite Hgate.
  set (w0 := snd (logProgress env (js "Starting analysis...")
                    (ModesDetails (analysisModes c) (leaseType c)) (sessionId c) w)).
  assert (Hw0 : calls w0 = calls w) by (subst w0; by destruct (sessionId c)).
  destruct (analyze_modes_spec env (leaseType c) (extractedText c) (sessionId c)
              (analysisModes c) 0 [] w0) as (ts & w1 & Hlen & Hrun & Hcalls).
  exists ts. cbn zeta. split; [exact Hlen|].
  assert (Hstart : logProgress env (js "Starting analysis...")
                     (ModesDetails (analysisModes c) (leaseType c)) (sessionId c) w
                   = (Next tt, w0)) by (subst w0; by destruct (sessionId c)).
  rewrite !(bind_step _ _ _ _ _ Hstart).
  rewrite !(bind_step (ret tt) _ w0 tt w0 eq_refl).
  rewrite !(bind_step _ _ _ _ _ Hrun).
  rewrite <- Hw0, app_assoc, <- Hcalls.
  destruct (db_insert env) as [e|i]; destruct (sessionId c);
    run_handler; (split; [reflexivity|]);
    first [reflexivity | eexists; reflexivity].
Qed.

Lemma POST_finish env w c :
  fst (prepare env w) = Next c ->
  forall r,
    (fst (finish env c (snd (prepare env w))) = Next r
     \/ fst (finish env c (snd (prepare env w))) = Return r) ->
    POST env w = (r, snd (finish env c (snd (prepare env w)))).
Proof.
  intros Hc r Hr. unfold POST, body, bind.
  destruct (prepare env w) as [s w1]. cbn [fst snd] in *. subst s.
  destruct (finish env c w1) as [s w2]. cbn [fst snd] in *.
  by destruct Hr as [-> | ->].
Qed.

(** *** The result object *)

Lemma replace_key_keys k v o o' :
  replace_key k v o = Some o' -> Object_keys o' = Object_keys o /\ k ∈ Object_keys o.
Proof.
  revert o'. induction o as [|[k' v'] o IH]; intros o'; simpl; [done|].
  unfold str_eqb. case_bool_decide as Hk.
  - intros [= <-]. subst k'. split; [done|]. simpl. apply list_elem_of_here.
  - destruct (replace_key k v o) as [o1|]; simpl; [|done].
    intros [= <-]. destruct (IH o1 eq_refl) as [IH1 IH2]. simpl. split.
    + by rewrite IH1.
    + by apply list_elem_of_further.
Qed.

Lemma replace_key_None k v o :
  replace_key k v o = None -> k ∉ Object_keys o.
Proof.
  induction o as [|[k' v'] o IH]; simpl.
  - intros _. apply not_elem_of_nil.
  - unfold str_eqb. case_bool_decide as Hk; [done|].
    destruct (replace_key k v o) as [o1|]; simpl; [done|].
    intros _. apply not_elem_of_cons. split; [congruence|by apply IH].
Qed.

Lemma replace_key_get k v o o' :
  replace_key k v o = Some o' ->
  obj_get k o' = Some v /\ forall k', k' ≠ k -> obj_get k' o' = obj_get k' o.
Proof.
  revert o'. induction o as [|[k1 v1] o IH]; intros o'; simpl; [done|].
  unfold str_eqb. case_bool_decide as Hk.
  - intros [= <-]. subst k1. simpl. unfold str_eqb.
    rewrite bool_decide_eq_true_2 by done. split; [done|].
    intros k' Hne. by rewrite bool_decide_eq_false_2 by congruence.
  - destruct (replace_key k v o) as [o1|]; simpl; [|done].
    intros [= <-]. destruct (IH o1 eq_refl) as [IH1 IH2]. simpl. unfold str_eqb.
    rewrite (bool_decide_eq_false_2 (k1 = k)) by done. split; [done|].
    intros k' Hne. case_bool_decide; [done|]. by apply IH2.
Qed.

Lemma obj_get_app_None k o o' :
  k ∉ Object_keys o -> obj_get k (o ++ o') = obj_get k o'.
Proof.
  induction o as [|[k1 v1] o IH]; simpl; [done|].
  intros Hk. apply not_elem_of_cons in Hk as [Hne Hk].
  unfold str_eqb. rewrite bool_decide_eq_false_2 by congruence. by apply IH.
Qed.

Lemma obj_get_app_l k o o' :
  k ∈ Object_keys o -> obj_get k (o ++ o') = obj_get k o.
Proof.
  induction o as [|[k1 v1] o IH]; simpl.
  - intros H. by apply elem_of_nil in H.
  - intros Hk. unfold str_eqb. case_bool_decide as Hk1; [done|].
    apply elem_of_cons in Hk as [Hk|Hk]; [congruence|]. by apply IH.
Qed.

Lemma obj_get_None k o : k ∉ Object_keys o -> obj_get k o = None.
Proof.
  induction o as [|[k1 v1] o IH]; simpl; [done|].
  intros Hk. apply not_elem_of_cons in Hk as [Hne Hk].
  unfold str_eqb. rewrite bool_decide_eq_false_2 by congruence. by apply IH.
Qed.

Lemma keys_obj_set k v o :
  k ≠ proto ->
  Object_keys (obj_set k v o)
  = if bool_decide (k ∈ Object_keys o) then Object_keys o else Object_keys o ++ [k].
Proof.
  intros Hp. unfold obj_set, str_eqb. fold proto.
  rewrite bool_decide_eq_false_2 by done.
  destruct (replace_key k v o) as [o'|] eqn:E.
  - apply replace_key_keys in E as [-> Hin]. by rewrite bool_decide_eq_true_2.
  - apply replace_key_None in E. rewrite bool_decide_eq_false_2 by done.
    unfold Object_keys. by rewrite map_app.
Qed.

Lemma get_obj_set_eq k v o : k ≠ proto -> obj_get k (obj_set k v o) = Some v.
Proof.
  intros Hp. unfold obj_set, str_eqb. fold proto.
  rewrite bool_decide_eq_false_2 by done.
  destruct (replace_key k v o) as [o'|] eqn:E.
  - by apply replace_key_get in E as [-> _].
  - apply replace_key_None in E. rewrite obj_get_app_None by done.
    simpl. unfold str_eqb. by rewrite bool_decide_eq_true_2.
Qed.

Lemma get_obj_set_ne k k' v o : k' ≠ k -> obj_get k' (obj_set k v o) = obj_get k' o.
Proof.
  intros Hne. unfold obj_set. destruct (str_eqb k (js "__proto__")); [done|].
  destruct (replace_key k v o) as [o'|] eqn:E.
  - apply replace_key_get in E as [_ E]. by apply E.
  - destruct (decide (k' ∈ Object_keys o)) as [Hin|Hin].
    + by apply obj_get_app_l.
    + rewrite obj_get_app_None by done. simpl. unfold str_eqb.
      rewrite bool_decide_eq_false_2 by congruence. by rewrite obj_get_None.
Qed.

Section StoreAll.
Context (env : Env).

Lemma keys_store_all runs : forall k o,
  Forall (fun r => fst r ≠ proto) runs ->
  forall m, m ∈ Object_keys (store_all env k runs o)
            <-> m ∈ Object_keys o \/ m ∈ map fst runs.
Proof.
  induction runs as [|[mode t] runs IH]; intros k o Hp m; simpl.
  - split; [by left|]. intros [H|H]; [done|]. by apply elem_of_nil in H.
  - apply Forall_cons in Hp as [Hp1 Hp]. simpl in Hp1.
    rewrite (IH _ _ Hp), keys_obj_set by done.
    rewrite elem_of_cons. case_bool_decide as Hin.
    + split; [tauto|]. intros [H|[->|H]]; tauto.
    + rewrite elem_of_app, list_elem_of_singleton. tauto.
Qed.

Lemma nodup_store_all runs : forall k o,
  Forall (fun r => fst r ≠ proto) runs ->
  NoDup (Object_keys o) -> NoDup (Object_keys (store_all env k runs o)).
Proof.
  induction runs as [|[mode t] runs IH]; intros k o Hp Hnd; simpl; [done|].
  apply Forall_cons in Hp as [Hp1 Hp]. simpl in Hp1.
  apply IH; [done|]. rewrite keys_obj_set by done.
  case_bool_decide as Hin; [done|].
  apply NoDup_app. split; [done|]. split.
  - intros x Hx Hx'. apply list_elem_of_singleton in Hx'. by subst.
  - apply NoDup_singleton.
Qed.

Lemma keys_store_all_fresh runs : forall k o,
  Forall (fun r => fst r ≠ proto) runs ->
  NoDup (map fst runs) ->
  (forall m, m ∈ map fst runs -> m ∉ Object_keys o) ->
  Object_keys (store_all env k runs o) = Object_keys o ++ map fst runs.
Proof.
  induction runs as [|[mode t] runs IH]; intros k o Hp Hnd Hfresh; simpl.
  - by rewrite app_nil_r.
  - apply Forall_cons in Hp as [Hp1 Hp]. simpl in Hp1, Hnd.
    apply NoDup_cons in Hnd as [Hhd Hnd].
    rewrite IH; [|done|done|].
    + rewrite keys_obj_set by done.
      rewrite bool_decide_eq_false_2 by (apply Hfresh; simpl; apply list_elem_of_here).
      by rewrite <- app_assoc.
    + intros m Hm. rewrite keys_obj_set by done.
      rewrite bool_decide_eq_false_2 by (apply Hfresh; simpl; apply list_elem_of_here).
      apply not_elem_of_app. split.
      * apply Hfresh. simpl. by apply list_elem_of_further.
      * apply not_elem_of_cons. split; [|apply not_elem_of_nil].
        intros ->. done.
Qed.

Lemma get_store_all_later runs : forall k o m,
  m ∉ map fst runs -> obj_get m (store_all env k runs o) = obj_get m o.
Proof.
  induction runs as [|[mode t] runs IH]; intros k o m Hm; simpl; [done|].
  simpl in Hm. apply not_elem_of_cons in Hm as [Hne Hm].
  rewrite IH by done. by apply get_obj_set_ne.
Qed.

(** The key of a mode holds the outcome of the last call made for it. *)
Lemma get_store_all runs : forall k o i m t,
  Forall (fun r => fst r ≠ proto) runs ->
  runs !! i = Some (m, t) ->
  (forall j r, i < j -> runs !! j = Some r -> fst r ≠ m) ->
  obj_get m (store_all env k runs o) = Some (stored (analyze env (k + i)) t).
Proof.
  induction runs as [|[mode t0] runs IH]; intros k o i m t Hp Hi Hlast; [done|].
  apply Forall_cons in Hp as [Hp1 Hp]. simpl in Hp1.
  destruct i as [|i]; simpl in Hi.
  - injection Hi as -> ->. simpl. rewrite get_store_all_later.
    + rewrite Nat.add_0_r. by apply get_obj_set_eq.
    + intros Hin. apply list_elem_of_lookup in Hin as [j Hj].
      rewrite list_lookup_fmap in Hj.
      destruct (runs !! j) as [r|] eqn:Hr; [|done]. simpl in Hj.
      injection Hj as Hj. apply (Hlast (S j) r); [lia|done|done].
  - simpl. rewrite (IH (S k) _ i m t); [|done|done|].
    + by replace (S k + i) with (k + S i) by lia.
    + intros j r Hj Hr. apply (Hlast (S j) r); [lia|done].
Qed.
End StoreAll.

(** *** Registered modes *)

Lemma registered_cases m :
  is_registered m = true ->
  m = js "standard" \/ m = js "parsing" \/ m = js "redlining"
  \/ m = js "obligations" \/ m = js "renewal" \/ m = js "legal".
Proof.
  intros H. apply bool_decide_eq_true in H.
  unfold registry, LEASE_ANALYSIS_PROMPTS in H. cbn [map fst] in H.
  rewrite !elem_of_cons in H. rewrite elem_of_nil in H. tauto.
Qed.

Lemma registered_known m :
  is_registered m = true -> known m = true /\ m ≠ proto.
Proof.
  intros H. apply registered_cases in H.
  destruct H as [->|[->|[->|[->|[->| ->]]]]];
    (split; [by vm_compute | intros E; vm_compute in E; discriminate E]).
Qed.

Lemma registered_own_prompt m :
  is_registered m = true ->
  exists p, own_prompt m LEASE_ANALYSIS_PROMPTS = Some p
            /\ lookup_prompt m = OwnPrompt p.
Proof.
  intros H. apply registered_cases in H.
  destruct H as [->|[->|[->|[->|[->| ->]]]]];
    eexists; (split; [by vm_compute | by vm_compute]).
Qed.

Lemma filter_known_registered modes :
  Forall (fun m => is_registered m = true) modes -> List.filter known modes = modes.
Proof.
  induction 1 as [|m modes Hm _ IH]; simpl; [done|].
  destruct (registered_known m Hm) as [-> _]. by rewrite IH.
Qed.

Lemma zip_lookup_l {A B} (l : list A) (ts : list B) i a :
  length ts = length l -> l !! i = Some a -> exists b, zip l ts !! i = Some (a, b).
Proof.
  revert ts i. induction l as [|x l IH]; intros ts i Hlen Hi; [done|].
  destruct ts as [|b ts]; [done|]. destruct i as [|i]; simpl in *.
  - injection Hi as ->. by exists b.
  - apply IH; [lia|done].
Qed.

Lemma zip_lookup_fst {A B} (l : list A) (ts : list B) i r :
  zip l ts !! i = Some r -> l !! i = Some (fst r).
Proof.
  revert ts i. induction l as [|x l IH]; intros ts i Hi; [done|].
  destruct ts as [|b ts]; [done|]. destruct i as [|i]; simpl in *.
  - by injection Hi as <-.
  - by apply (IH ts).
Qed.

Lemma zip_Forall_fst {A B} (P : A -> Prop) (l : list A) (ts : list B) :
  Forall P l -> Forall (fun r => P (fst r)) (zip l ts).
Proof.
  intros H. revert ts. induction H as [|x l Hx _ IH]; intros ts; [constructor|].
  destruct ts as [|b ts]; [constructor|]. simpl. constructor; [done|apply IH].
Qed.

Lemma new_calls_app w w' extra :
  calls w' = calls w ++ extra -> new_calls w w' = extra.
Proof. unfold new_calls. intros ->. by rewrite drop_app_length. Qed.



(** *** The whole request, once the first half has succeeded *)

Lemma POST_insufficient env w c :
  fst (prepare env w) = Next c ->
  insufficient (extractedText c) = true ->
  exists t,
    fst (POST env w) = insufficient_content t
    /\ calls (snd (POST env w)) = calls (snd (prepare env w)).
Proof.
  intros Hc Hgate.
  destruct (finish_insufficient env c (snd (prepare env w)) Hgate) as (t & w' & Hf & Hcalls).
  exists t. rewrite (POST_finish env w c Hc (insufficient_content t)).
  - by rewrite Hf.
  - right. by rewrite Hf.
Qed.

Lemma POST_sufficient env w c :
  fst (prepare env w) = Next c ->
  insufficient (extractedText c) = false ->
  exists ts,
    let ran := List.filter known (analysisModes c) in
    let results := store_all env 0 (zip ran ts) [] in
    length ts = length ran
    /\ new_calls (snd (prepare env w)) (snd (POST env w))
       = map (analysis_call env (leaseType c) (extractedText c)) ran
         ++ [DbInsert (file_row c results)]
    /\ match db_insert env with
       | Inserted i =>
           fst (POST env w)
           = JsonOk {| id := i; row := file_row c results |} results (sessionId c)
       | DbError dbError =>
           exists t,
             fst (POST env w) = JsonError 500 (error_info t dbError (js "Database Save"))
       end.
Proof.
  intros Hc Hgate.
  destruct (finish_sufficient env c (snd (prepare env w)) Hgate) as (ts & Hlen & Hcalls & Hr).
  exists ts. cbn zeta in *. split; [done|].
  destruct (db_insert env) as [e|i].
  - destruct Hr as (t & Hr).
    rewrite (POST_finish env w c Hc _ (or_intror Hr)). cbn [fst snd]. split.
    + by apply new_calls_app.
    + by exists t.
  - rewrite (POST_finish env w c Hc _ (or_introl Hr)). cbn [fst snd]. split.
    + by apply new_calls_app.
    + done.
Qed.

Lemma split_on_nonempty c s : split_on c s ≠ [].
Proof.
  induction s as [|x s IH]; simpl; [done|].
  destruct (N.eqb x c); [done|]. by destruct (split_on c s).
Qed.

Lemma substring_take s (z : Z) :
  (0 <= z)%Z -> substring s 0 z = take (Z.to_nat z) s.
Proof.
  intros Hz. unfold substring. cbv zeta.
  set (len := Z.of_nat (length s)).
  set (a := Z.min (Z.max 0 0) len). set (b := Z.min (Z.max z 0) len).
  assert (Hlo : Z.to_nat (Z.min a b) = 0) by (subst a b len; lia).
  assert (Hhi : Z.to_nat (Z.max a b) = Nat.min (Z.to_nat z) (length s))
    by (subst a b len; lia).
  rewrite Hlo, Hhi, Nat.sub_0_r, drop_0.
  destruct (decide (Z.to_nat z <= length s)).
  - by rewrite Nat.min_l.
  - rewrite Nat.min_r by lia. by rewrite !take_ge by lia.
Qed.

(** C1.  Once the first half of the handler has succeeded and the text
    passes the content gate, and every requested name is one of the six
    registered modes: the handler calls the model once for each requested
    mode, in order, whatever the earlier calls did, and then makes the
    insert with the result object; in that object the key of each mode
    holds the raw text when the (last) call for that mode returned and an
    error envelope with the reported message when it threw; and the
    response carries that same object whenever the insert succeeds (a failed
    insert is the handler's own fatal error, status 500). *)
Theorem mode_failures_are_isolated env w c :
  fst (prepare env w) = Next c ->
  insufficient (extractedText c) = false ->
  Forall (fun m => is_registered m = true) (analysisModes c) ->
  exists results,
    new_calls (snd (prepare env w)) (snd (POST env w))
    = map (analysis_call env (leaseType c) (extractedText c)) (analysisModes c)
      ++ [DbInsert (file_row c results)]
    /\ (forall i mode,
          analysisModes c !! i = Some mode ->
          (forall j, i < j -> analysisModes c !! j ≠ Some mode) ->
          match analyze env i with
          | Returned analysisText =>
              obj_get mode results = Some (AnalysisText analysisText)
          | Threw e =>
              exists t, obj_get mode results = Some (ErrorEnvelope (reported e) t)
          end)
    /\ match db_insert env with
       | Inserted i =>
           fst (POST env w)
           = JsonOk {| id := i; row := file_row c results |} results (sessionId c)
       | DbError dbError =>
           exists t,
             fst (POST env w) = JsonError 500 (error_info t dbError (js "Database Save"))
       end.
Proof.
  intros Hc Hgate Hreg.
  destruct (POST_sufficient env w c Hc Hgate) as (ts & Hlen & Hcalls & Hresp).
  cbn zeta in *. rewrite (filter_known_registered _ Hreg) in *.
  eexists. split; [exact Hcalls|]. split; [|exact Hresp].
  intros i mode Hi Hlast.
  destruct (zip_lookup_l _ ts i mode Hlen Hi) as (t & Hz).
  pose proof (get_store_all env (zip (analysisModes c) ts) 0 [] i mode t) as Hget.
  rewrite Hget.
  - simpl. unfold stored. destruct (analyze env i) as [txt|e]; [done|by exists t].
  - apply (zip_Forall_fst (fun m => m ≠ proto)).
    eapply Forall_impl; [exact Hreg|]. intros m Hm. by apply registered_known.
  - exact Hz.
  - intros j r Hj Hr Heq. apply zip_lookup_fst in Hr. rewrite Heq in Hr.
    by apply (Hlast j Hj).
Qed.

(** C3.  Once the first half of the handler has succeeded with an
    extracted text of fewer than 100 characters, the response is the
    status-400 content error of the gate, no external call is made after
    the extraction, and the whole request makes no analysis call. *)
Theorem short_text_fails_at_gate env w c :
  fst (prepare env w) = Next c ->
  length (extractedText c) < 100 ->
  exists t,
    fst (POST env w) = insufficient_content t
    /\ calls (snd (POST env w)) = calls (snd (prepare env w))
    /\ Forall (fun call => is_Analyze call = false) (new_calls w (snd (POST env w))).
Proof.
  intros Hc Hlen.
  assert (Hgate : insufficient (extractedText c) = true).
  { unfold insufficient. rewrite (bool_decide_eq_true_2 _ Hlen). apply orb_true_r. }
  destruct (POST_insufficient env w c Hc Hgate) as (t & Hr & Hcalls).
  exists t. split; [done|]. split; [done|].
  destruct (prepare_adds_no_analysis env w) as (extra & Hextra & Hall).
  rewrite Hextra in Hcalls. by rewrite (new_calls_app _ _ _ Hcalls).
Qed.

(** C4.  When every requested name is one of the six registered modes and
    the handler answers with its success response, the keys of the
    per-mode object in that response are exactly the requested modes: the
    same names, each once, in the order of first request (so the key list
    is the request list when no mode is requested twice); the request list
    is never empty. *)
Theorem result_keys_are_requested_modes env w c analysis :
  fst (prepare env w) = Next c ->
  Forall (fun m => is_registered m = true) (analysisModes c) ->
  response_analysis (fst (POST env w)) = Some analysis ->
  (forall m, m ∈ Object_keys analysis <-> m ∈ analysisModes c)
  /\ NoDup (Object_keys analysis)
  /\ (NoDup (analysisModes c) -> Object_keys analysis = analysisModes c)
  /\ analysisModes c ≠ [].
Proof.
  intros Hc Hreg Hok.
  destruct (insufficient (extractedText c)) eqn:Hgate.
  { destruct (POST_insufficient env w c Hc Hgate) as (t & Hr & _).
    rewrite Hr in Hok. discriminate Hok. }
  destruct (POST_sufficient env w c Hc Hgate) as (ts & Hlen & _ & Hresp).
  cbn zeta in *. rewrite (filter_known_registered _ Hreg) in *.
  destruct (db_insert env) as [e|i].
  { destruct Hresp as (t & Hr). rewrite Hr in Hok. discriminate Hok. }
  rewrite Hresp in Hok. injection Hok as <-.
  assert (Hp : Forall (fun r : list N * N => fst r ≠ proto) (zip (analysisModes c) ts)).
  { apply (zip_Forall_fst (fun m => m ≠ proto)).
    eapply Forall_impl; [exact Hreg|]. intros m Hm. by apply registered_known. }
  assert (Hfst : map fst (zip (analysisModes c) ts) = analysisModes c).
  { apply fst_zip. lia. }
  repeat split.
  - intros Hm. apply (keys_store_all env _ _ _ Hp) in Hm as [Hm|Hm].
    + by apply elem_of_nil in Hm.
    + by rewrite Hfst in Hm.
  - intros Hm. apply (keys_store_all env _ _ _ Hp). right. by rewrite Hfst.
  - apply nodup_store_all; [done|]. apply NoDup_nil_2.
  - intros Hnd. rewrite keys_store_all_fresh; [by rewrite Hfst|done|by rewrite Hfst|].
    intros m _. apply not_elem_of_nil.
  - destruct (prepare_scope env w c Hc) as (form & _ & _ & _ & _ & _ & _ & _ & _ & -> & _).
    apply split_on_nonempty.
Qed.

(** C5 (amended).  The validation stage lets an upload through exactly when
    a file is present, its declared type is [application/pdf] and its size
    is at most 50 MiB; every other upload, among them one declared as DOCX
    or as legacy DOC, is answered with status 400 under the context
    [File Validation]. *)
Theorem validation_accepts_pdf_only env file w :
  (acceptable file ->
     exists f, file = Some (FileValue f) /\ validate env file w = (Next f, w))
  /\ (~ acceptable file ->
        exists message,
          validate env file w
          = (Return (JsonError 400
                       {| error_message := message;
                          error_context := js "File Validation";
                          error_timestamp := clock env (reads w) |}),
             advance w))
  /\ (forall f, file = Some (FileValue f) ->
        file_type f = DOCX \/ file_type f = DOC -> ~ acceptable file).
Proof.
  split; [|split].
  - intros (f & -> & Htype & Hsize). exists f. split; [done|].
    unfold validate, str_eqb. rewrite bool_decide_eq_true_2 by done. cbn [negb].
    apply N.ltb_ge in Hsize. by rewrite Hsize.
  - intros Hno. unfold validate.
    destruct file as [[[|ch s]|f]|]; try (eexists; reflexivity).
    unfold str_eqb. case_bool_decide as Htype; cbn [negb]; [|eexists; reflexivity].
    destruct (maxSize <? file_size f)%N eqn:Hsize; [eexists; reflexivity|].
    exfalso. apply Hno. exists f. apply N.ltb_ge in Hsize. done.
  - intros f -> Htype (f' & [= <-] & Hpdf & _). rewrite Hpdf in Htype.
    destruct Htype as [E|E]; vm_compute in E; discriminate E.
Qed.

(** C10.  When the text-extraction call throws, the extracted text is the
    prefix [Text extraction failed: ] followed by the message [handleError]
    reports, which is the thrown value's own message whenever that is a
    non-empty string.  This text never equals [Text extraction failed], so
    the gate decides by length alone; when the text has at least 100
    characters the gate passes, the model is called for every requested
    mode the registry answers for, with the first 8000 characters of that
    text as the document content, and the text is what the insert stores as
    the extracted text. *)
Theorem extraction_failure_text_passes_gate env w c e :
  fst (prepare env w) = Next c ->
  extract_text env = Threw e ->
  let sentinel := js "Text extraction failed: " ++ reported e in
  extractedText c = sentinel
  /\ (forall m, thrown_message e = Some m -> m ≠ [] -> reported e = m)
  /\ sentinel ≠ js "Text extraction failed"
  /\ insufficient sentinel = bool_decide (length sentinel < 100)
  /\ (100 <= length sentinel ->
      exists results,
        new_calls (snd (prepare env w)) (snd (POST env w))
        = map (analysis_call env (leaseType c) sentinel)
              (List.filter known (analysisModes c))
          ++ [DbInsert (file_row c results)]
        /\ extracted_text (file_row c results) = sentinel
        /\ (forall mode,
              mode ∈ analysisModes c -> is_registered mode = true ->
              analysis_call env (leaseType c) sentinel mode
              ∈ new_calls (snd (prepare env w)) (snd (POST env w)))
        /\ (forall mode,
              analysis_call env (leaseType c) sentinel mode
              = Analyze (mode_prompt env mode ++ nl ++ nl ++ js "Lease Type: "
                         ++ leaseType c ++ nl ++ nl ++ js "Document Content:" ++ nl
                         ++ take (Z.to_nat 8000) sentinel))).
Proof.
  intros Hc He sentinel.
  assert (Htext : extractedText c = sentinel).
  { destruct (prepare_scope env w c Hc) as (form & _ & _ & _ & _ & _ & _ & _ & _ & _ & ->).
    unfold extraction. by rewrite He. }
  assert (Hne : sentinel ≠ js "Text extraction failed").
  { intros E. apply (f_equal length) in E. subst sentinel.
    rewrite length_app in E. vm_compute in E. lia. }
  assert (Hins : insufficient sentinel = bool_decide (length sentinel < 100)).
  { unfold insufficient, str_eqb. by rewrite bool_decide_eq_false_2. }
  split; [done|]. split.
  { intros m Hm Hnil. unfold reported. rewrite Hm. by destruct m. }
  split; [done|]. split; [done|].
  intros Hlen.
  assert (Hgate : insufficient (extractedText c) = false).
  { rewrite Htext, Hins. apply bool_decide_eq_false_2. lia. }
  destruct (POST_sufficient env w c Hc Hgate) as (ts & _ & Hcalls & _).
  cbn zeta in Hcalls. rewrite Htext in Hcalls.
  eexists. split; [exact Hcalls|]. split; [by cbn [file_row extracted_text]|].
  split.
  - intros mode Hin Hreg. rewrite Hcalls. apply elem_of_app. left.
    apply list_elem_of_fmap. exists mode. split; [done|].
    apply list_elem_of_In, filter_In. split; [by apply list_elem_of_In|].
    by apply registered_known.
  - intros mode. unfold analysis_call, contextualPrompt.
    by rewrite (substring_take sentinel 8000) by lia.
Qed.

End UploadFacts.

(** ** The properties on sample requests *)

Module SampleFacts.
Import Upload UploadSpec UploadSamples.

(** Session [a] receives its two events in order, whatever happens to [b]. *)
Lemma drain_fifo_destructive_witness :
  fst (ProgressChannel.drain (js "a") (ProgressChannel.run two_sessions ∅))
  = [ event "Parsing form data..." active 1;
      event "Form data parsed successfully" completed 3 ].
Proof.
  refine (proj1 (proj2 (proj2
            (ProgressChannelFacts.drain_fifo_destructive (js "a") ∅ two_sessions _)))).
  by repeat constructor.
Defined.

(** Publishing to, draining and disposing [b] leaves the queue of [a]. *)
Lemma sessions_do_not_interfere_witness :
  ProgressChannel.queue (js "a")
    (ProgressChannel.run only_b
       (ProgressChannel.publish (js "a") (event "Parsing form data..." active 1) ∅))
  = [ event "Parsing form data..." active 1 ].
Proof.
  refine (eq_trans
            (proj2 (proj2 (proj2 (proj2 (proj2 (proj2 (proj2
               (ProgressChannelFacts.sessions_do_not_interfere (js "b") (js "a")
                  (event "Parsing form data..." active 2)
                  (ProgressChannel.publish (js "a")
                     (event "Parsing form data..." active 1) ∅)
                  only_b _)))))) _)) _).
  - intros E. vm_compute in E. discriminate E.
  - by repeat constructor.
  - by vm_compute.
Defined.

Lemma legal_fails_reaches_gate : fst (prepare legal_fails empty_world) = Next legal_fails_scope.
Proof. by vm_compute. Qed.

Lemma legal_fails_registered :
  Forall (fun m => is_registered m = true) (analysisModes legal_fails_scope).
Proof. repeat constructor. Qed.

(** With modes [standard,legal] and a failing [legal] call, the response
    holds the text for [standard] and the envelope for [legal]. *)
Lemma mode_failures_are_isolated_witness :
  exists results,
    obj_get (js "standard") results = Some (AnalysisText (js "{}"))
    /\ (exists t, obj_get (js "legal") results
                  = Some (ErrorEnvelope (js "model overloaded") t))
    /\ fst (POST legal_fails empty_world)
       = JsonOk {| id := js "row-1"; row := file_row legal_fails_scope results |}
           results (js "s1").
Proof.
  destruct (UploadFacts.mode_failures_are_isolated legal_fails empty_world legal_fails_scope
              legal_fails_reaches_gate eq_refl legal_fails_registered)
    as (results & _ & Hget & Hresp).
  exists results. split; [|split].
  - apply (Hget 0 (js "standard") eq_refl).
    intros [|[|j]] Hj E; [lia|discriminate E|discriminate E].
  - apply (Hget 1 (js "legal") eq_refl).
    intros [|[|j]] Hj E; [lia|lia|discriminate E].
  - exact Hresp.
Defined.

Lemma short_text_reaches_gate : fst (prepare short_text empty_world) = Next short_text_scope.
Proof. by vm_compute. Qed.

(** A nine-character text stops the request at the gate. *)
Lemma short_text_fails_at_gate_witness :
  exists t,
    fst (POST short_text empty_world) = insufficient_content t
    /\ calls (snd (POST short_text empty_world))
       = calls (snd (prepare short_text empty_world))
    /\ Forall (fun call => is_Analyze call = false)
              (new_calls empty_world (snd (POST short_text empty_world))).
Proof.
  apply (UploadFacts.short_text_fails_at_gate short_text empty_world short_text_scope
           short_text_reaches_gate).
  vm_compute. lia.
Defined.

(** The same request answers with the keys [standard] and [legal]. *)
Lemma result_keys_are_requested_modes_witness :
  exists analysis,
    response_analysis (fst (POST legal_fails empty_world)) = Some analysis
    /\ Object_keys analysis = [js "standard"; js "legal"].
Proof.
  eexists. split; [by vm_compute|].
  refine (proj1 (proj2 (proj2
            (UploadFacts.result_keys_are_requested_modes legal_fails empty_world
               legal_fails_scope _ legal_fails_reaches_gate legal_fails_registered _))) _).
  - by vm_compute.
  - apply (bool_decide_unpack _). by vm_compute.
Defined.

Lemma extraction_throws_reaches_gate :
  fst (prepare extraction_throws empty_world) = Next extraction_throws_scope.
Proof. by vm_compute. Qed.

(** An extraction error with an 80-character message passes the gate and
    both modes are run on the error text. *)
Lemma extraction_failure_text_passes_gate_witness :
  extractedText extraction_throws_scope = js "Text extraction failed: " ++ long_message
  /\ exists results,
       new_calls (snd (prepare extraction_throws empty_world))
                 (snd (POST extraction_throws empty_world))
       = [ analysis_call extraction_throws (js "solar")
             (js "Text extraction failed: " ++ long_message) (js "standard");
           analysis_call extraction_throws (js "solar")
             (js "Text extraction failed: " ++ long_message) (js "legal");
           DbInsert (file_row extraction_throws_scope results) ].
Proof.
  destruct (UploadFacts.extraction_failure_text_passes_gate extraction_throws empty_world
              extraction_throws_scope (ErrorObject long_message)
              extraction_throws_reaches_gate eq_refl)
    as (Htext & _ & _ & _ & Hrun).
  split; [exact Htext|].
  destruct Hrun as (results & Hcalls & _).
  - vm_compute. lia.
  - exists results. exact Hcalls.
Defined.

(** C5, as stated, fails: an upload declared as DOCX, well within the
    size limit, is rejected by the validation stage, and the request is
    answered with status 400. *)
Lemma docx_upload_is_rejected :
  file_type lease_docx = DOCX
  /\ (file_size lease_docx <= maxSize)%N
  /\ fst (validate docx_upload (Some (FileValue lease_docx)) empty_world)
     = Return (JsonError 400
                 {| error_message :=
                      js "Invalid file type: application/vnd.openxmlformats-officedocument.wordprocessingml.document. Only PDF files are allowed.";
                    error_context := js "File Validation";
                    error_timestamp := 0 |})
  /\ fst (POST docx_upload empty_world)
     = JsonError 400
         {| error_message :=
              js "Invalid file type: application/vnd.openxmlformats-officedocument.wordprocessingml.document. Only PDF files are allowed.";
            error_context := js "File Validation";
            error_timestamp := 6 |}.
Proof. repeat split; by vm_compute. Qed.

End SampleFacts.

(** ** Obligation extraction *)

Module ObligationsFacts.
Import Obligations ObligationsSpec.

(** *** Prefix tests and fence stripping *)

Lemma starts_with_app_stop pat : forall a x b,
  x ∉ pat -> Json.starts_with pat (a ++ x :: b) = Json.starts_with pat a.
Proof.
  induction pat as [|p pat IH]; intros a x b Hx; [by destruct a|].
  apply not_elem_of_cons in Hx as [Hne Hx].
  destruct a as [|c a]; simpl.
  - rewrite (proj2 (N.eqb_neq p x)) by congruence. done.
  - by rewrite IH.
Qed.

Lemma starts_with_length pat : forall s,
  Json.starts_with pat s = true -> length pat <= length s.
Proof.
  induction pat as [|p pat IH]; intros s; simpl; [lia|].
  destruct s as [|c s]; [done|]. intros H. apply andb_true_iff in H as [_ H].
  apply IH in H. simpl. lia.
Qed.

Lemma starts_with_app pat r : forall s,
  Json.starts_with (pat ++ r) s = true -> Json.starts_with pat s = true.
Proof.
  induction pat as [|p pat IH]; intros s; simpl; [done|].
  destruct s as [|c s]; [done|]. intros H. apply andb_true_iff in H as [H1 H].
  rewrite H1. by apply IH.
Qed.

(** Stripping stops at a character that is neither in the pattern nor a
    line feed: nothing before it can match across it. *)
Lemma strip_app_stop pat x X :
  x ∉ pat -> x ≠ 10%N ->
  forall pre st,
    (forall n, st = Some n -> n <= length pre) ->
    strip pat st (pre ++ x :: X) = strip pat st pre ++ strip pat None (x :: X).
Proof.
  intros Hx Hnl. induction pre as [|c pre IH]; intros st Hst.
  - destruct st as [[|n]|]; simpl.
    + by rewrite (proj2 (N.eqb_neq x 10)).
    + specialize (Hst (S n) eq_refl). simpl in Hst. lia.
    + done.
  - assert (Hscan :
      (if Json.starts_with pat (c :: pre ++ x :: X)
       then strip pat (Some (length pat - 1)) (pre ++ x :: X)
       else c :: strip pat None (pre ++ x :: X))
      = (if Json.starts_with pat (c :: pre)
         then strip pat (Some (length pat - 1)) pre
         else c :: strip pat None pre) ++ strip pat None (x :: X)).
    { rewrite app_comm_cons, (starts_with_app_stop pat (c :: pre) x X Hx).
      destruct (Json.starts_with pat (c :: pre)) eqn:Hm.
      - apply IH. intros n [= <-]. apply starts_with_length in Hm. simpl in Hm. lia.
      - simpl. f_equal. apply IH. by intros n. }
    destruct st as [[|n]|]; cbn [app strip].
    + destruct (N.eqb c 10).
      * apply IH. by intros n.
      * exact Hscan.
    + apply IH. intros m [= <-]. specialize (Hst (S n) eq_refl). simpl in Hst. lia.
    + exact Hscan.
Qed.

(** Where no occurrence starts, nothing is removed. *)
Lemma strip_no_match pat post : forall lit,
  (forall a b, lit = a ++ b -> b ≠ [] -> Json.starts_with pat (b ++ post) = false) ->
  strip pat None (lit ++ post) = lit ++ strip pat None post.
Proof.
  induction lit as [|c lit IH]; intros H; [done|].
  cbn [app strip].
  pose proof (H [] (c :: lit) eq_refl) as H0. cbn [app] in H0.
  rewrite H0 by done.
  f_equal. apply IH. intros a b -> Hb. by apply (H (c :: a) b).
Qed.

Lemma includes_suffix p : forall a b, includes p (a ++ b) = false -> includes p b = false.
Proof.
  induction a as [|c a IH]; intros b H; [done|].
  simpl in H. apply orb_false_iff in H as [_ H]. by apply IH.
Qed.

Lemma includes_head p s : includes p s = false -> Json.starts_with p s = false.
Proof. destruct s; simpl; intros H; by apply orb_false_iff in H as [H _]. Qed.

Lemma last_suffix {A} (a b : list A) x : b ≠ [] -> last (a ++ b) = Some x -> last b = Some x.
Proof.
  intros Hb H. apply last_app_Some in H as [H|[H _]]; [done|].
  by apply last_None in H.
Qed.

(** A text that holds no fence and ends with []] starts no fence, even
    when continued. *)
Lemma no_fence_start b post :
  b ≠ [] -> last b = Some close_bracket -> includes fence b = false ->
  Json.starts_with fence (b ++ post) = false.
Proof.
  intros Hb Hlast Hinc. apply includes_head in Hinc.
  destruct b as [|x1 [|x2 [|x3 b]]]; [done| | |].
  - injection Hlast as ->. done.
  - injection Hlast as ->. cbn. by rewrite andb_false_r.
  - exact Hinc.
Qed.

Lemma strip_around pat r pre lit post :
  pat = fence ++ r -> open_bracket ∉ pat ->
  bracketed lit -> includes fence lit = false ->
  strip pat None (pre ++ lit ++ post)
  = strip pat None pre ++ lit ++ strip pat None post.
Proof.
  intros Hpat Hopen [Hhead Hlast] Hinc.
  destruct lit as [|x lit]; [done|]. injection Hhead as ->.
  rewrite <- app_comm_cons, strip_app_stop; [|done|done|by intros n].
  f_equal. rewrite app_comm_cons. apply strip_no_match.
  intros a b Hab Hb.
  destruct (Json.starts_with pat (b ++ post)) eqn:Hm; [|done].
  rewrite Hpat in Hm. apply starts_with_app in Hm.
  rewrite no_fence_start in Hm; [done|done| |].
  - apply (last_suffix a); [done|]. by rewrite <- Hab.
  - apply (includes_suffix fence a). by rewrite <- Hab.
Qed.

Lemma strip_sub pat x : forall s st, x ∈ strip pat st s -> x ∈ s.
Proof.
  induction s as [|c s IH]; intros st; [done|].
  assert (Hscan : x ∈ (if Json.starts_with pat (c :: s)
                       then strip pat (Some (length pat - 1)) s
                       else c :: strip pat None s) -> x ∈ c :: s).
  { destruct (Json.starts_with pat (c :: s)).
    - intros H. apply list_elem_of_further. by apply (IH _ H).
    - intros H. apply elem_of_cons in H as [->|H]; [apply list_elem_of_here|].
      apply list_elem_of_further. by apply (IH _ H). }
  destruct st as [[|n]|]; cbn [strip].
  - destruct (N.eqb c 10); [|exact Hscan].
    intros H. apply list_elem_of_further. by apply (IH _ H).
  - intros H. apply list_elem_of_further. by apply (IH _ H).
  - exact Hscan.
Qed.

Lemma strip_bracket_free pat s : bracket_free s -> bracket_free (strip pat None s).
Proof. intros [H1 H2]. split; intros H; by apply strip_sub in H. Qed.

(** *** Trimming and the bracket search *)

Lemma trimStart_app_stop x X : forall pre,
  is_js_space x = false -> trimStart (pre ++ x :: X) = trimStart pre ++ x :: X.
Proof.
  intros pre Hx. induction pre as [|c pre IH]; simpl.
  - by rewrite Hx.
  - destruct (is_js_space c); [exact IH|done].
Qed.

Lemma trimEnd_app_stop Y y post :
  is_js_space y = false -> trimEnd ((Y ++ [y]) ++ post) = (Y ++ [y]) ++ trimEnd post.
Proof.
  intros Hy. unfold trimEnd.
  rewrite rev_app_distr, (rev_app_distr Y [y]).
  change (rev [y] ++ rev Y) with (y :: rev Y).
  rewrite (trimStart_app_stop y (rev Y) (rev post) Hy).
  rewrite rev_app_distr. cbn [rev]. by rewrite rev_involutive.
Qed.

Lemma trimStart_sub x s : x ∈ trimStart s -> x ∈ s.
Proof.
  induction s as [|c s IH]; simpl; [done|].
  destruct (is_js_space c); [|done].
  intros H. by apply list_elem_of_further, IH.
Qed.

Lemma trimEnd_sub x s : x ∈ trimEnd s -> x ∈ s.
Proof.
  unfold trimEnd. intros H.
  apply list_elem_of_In, in_rev, list_elem_of_In, trimStart_sub in H.
  by apply list_elem_of_In, in_rev, list_elem_of_In in H.
Qed.

Lemma trim_around pre lit post :
  bracketed lit ->
  trim (pre ++ lit ++ post) = trimStart pre ++ lit ++ trimEnd post.
Proof.
  intros [Hhead Hlast]. unfold trim.
  assert (Hstart : trimStart (pre ++ lit ++ post) = trimStart pre ++ lit ++ post).
  { destruct lit as [|x lit]; [done|]. injection Hhead as ->.
    rewrite <- app_comm_cons. by apply trimStart_app_stop. }
  rewrite Hstart. apply last_Some in Hlast as [lit' ->].
  replace (trimStart pre ++ (lit' ++ [close_bracket]) ++ post)
    with (((trimStart pre ++ lit') ++ [close_bracket]) ++ post)
    by (by rewrite <- !app_assoc).
  rewrite trimEnd_app_stop by done. by rewrite <- !app_assoc.
Qed.

Lemma indexOf_app c a b :
  c ∉ a -> indexOf c (a ++ c :: b) = Z.of_nat (length a).
Proof.
  induction a as [|x a IH]; intros Hc; simpl.
  - by rewrite N.eqb_refl.
  - apply not_elem_of_cons in Hc as [Hne Hc].
    rewrite (proj2 (N.eqb_neq x c)) by congruence.
    rewrite (IH Hc). destruct (Z.of_nat (length a) =? -1)%Z eqn:E; lia.
Qed.

Lemma lastIndexOf_absent c b : c ∉ b -> lastIndexOf c b = (-1)%Z.
Proof.
  induction b as [|x b IH]; intros Hc; simpl; [done|].
  apply not_elem_of_cons in Hc as [Hne Hc].
  rewrite (IH Hc). simpl. by rewrite (proj2 (N.eqb_neq x c)) by congruence.
Qed.

Lemma lastIndexOf_app c a b :
  c ∉ b -> lastIndexOf c (a ++ c :: b) = Z.of_nat (length a).
Proof.
  intros Hc. induction a as [|x a IH]; simpl.
  - rewrite (lastIndexOf_absent c b Hc). simpl. by rewrite N.eqb_refl.
  - rewrite IH. destruct (Z.of_nat (length a) =? -1)%Z eqn:E; lia.
Qed.

Lemma substring_middle (a m b : list N) :
  substring (a ++ m ++ b) (Z.of_nat (length a)) (Z.of_nat (length a + length m)) = m.
Proof.
  unfold substring. cbv zeta. rewrite !length_app.
  set (la := length a). set (lm := length m). set (lb := length b).
  match goal with
  | |- take (Z.to_nat ?hi - Z.to_nat ?lo) _ = _ =>
      replace (Z.to_nat lo) with la by lia;
      replace (Z.to_nat hi) with (la + lm) by lia
  end.
  subst la lm. rewrite drop_app_length.
  replace (length a + length m - length a) with (length m) by lia.
  by rewrite take_app_length.
Qed.

Lemma open_bracket_not_in_json_fence : open_bracket ∉ fence ++ js "json".
Proof. apply (bool_decide_unpack _). by vm_compute. Qed.

Lemma open_bracket_not_in_fence : open_bracket ∉ fence.
Proof. apply (bool_decide_unpack _). by vm_compute. Qed.

(** The cleaning step returns the bracketed text itself when nothing
    around it holds a bracket and it holds no fence. *)
Lemma clean_around pre lit post :
  bracket_free pre -> bracket_free post ->
  bracketed lit -> includes fence lit = false ->
  clean (pre ++ lit ++ post) = lit.
Proof.
  intros Hpre Hpost Hlit Hinc. unfold clean, strip_fences, strip_json_fences.
  rewrite (strip_around (fence ++ js "json") (js "json") pre lit post eq_refl
             open_bracket_not_in_json_fence Hlit Hinc).
  rewrite (strip_around fence [] _ lit _ (eq_sym (app_nil_r fence))
             open_bracket_not_in_fence Hlit Hinc).
  rewrite trim_around by done.
  set (P := trimStart (strip fence None (strip (fence ++ js "json") None pre))).
  set (Q := trimEnd (strip fence None (strip (fence ++ js "json") None post))).
  assert (HP : bracket_free P).
  { destruct (strip_bracket_free fence _ (strip_bracket_free (fence ++ js "json") _ Hpre))
      as [H1 H2].
    split; intros H; by apply trimStart_sub in H. }
  assert (HQ : bracket_free Q).
  { destruct (strip_bracket_free fence _ (strip_bracket_free (fence ++ js "json") _ Hpost))
      as [H1 H2].
    split; intros H; by apply trimEnd_sub in H. }
  destruct Hlit as [Hhead Hlast].
  destruct lit as [|x lit]; [done|]. injection Hhead as ->.
  apply last_Some in Hlast as [body Hbody].
  destruct body as [|y body]; [by injection Hbody|].
  injection Hbody as <- ->.
  assert (Hstart : indexOf (chr "[") (P ++ (open_bracket :: body ++ [close_bracket]) ++ Q)
                   = Z.of_nat (length P)).
  { rewrite <- app_comm_cons. apply indexOf_app. apply HP. }
  assert (Hend : lastIndexOf (chr "]") (P ++ (open_bracket :: body ++ [close_bracket]) ++ Q)
                 = Z.of_nat (length (P ++ open_bracket :: body))).
  { replace (P ++ (open_bracket :: body ++ [close_bracket]) ++ Q)
      with ((P ++ open_bracket :: body) ++ close_bracket :: Q)
      by (repeat (rewrite <- app_assoc || cbn [app]); reflexivity).
    apply lastIndexOf_app. apply HQ. }
  rewrite Hstart, Hend. rewrite length_app. cbn [length].
  rewrite !(proj2 (Z.eqb_neq _ (-1))) by lia.
  rewrite (proj2 (Z.ltb_lt _ _)) by lia.
  cbn [andb negb].
  replace (Z.of_nat (length P + S (length body)) + 1)%Z
    with (Z.of_nat (length P + length (open_bracket :: body ++ [close_bracket])))
    by (cbn [length]; rewrite length_app; cbn [length]; lia).
  apply substring_middle.
Qed.

(** *** The stated properties *)

(** C7 (amended).  When the model's answer is a JSON array literal that
    itself holds no triple backtick, surrounded by any text without square
    brackets (a fence line, a preamble, a postamble), the cleaning step
    yields exactly the literal; the parse succeeds inside the [try], so the
    [catch] clause (the sample in one route, the stored result or the
    status-500 failure in the other) does not run, and the obligations are
    the parsed items. *)
Theorem clean_isolates_fence_free_literal
    (JSON_parse : list N -> option jsval) pre lit post items :
  bracket_free pre -> bracket_free post ->
  bracketed lit -> includes fence lit = false ->
  JSON_parse lit = Some (JArray items) ->
  clean (pre ++ lit ++ post) = lit
  /\ try_parse JSON_parse (clean (pre ++ lit ++ post)) = ParsedOk (JArray items)
  /\ extractObligations JSON_parse (pre ++ lit ++ post) = ensure_nonempty items
  /\ (forall stored,
        export_parse JSON_parse stored (pre ++ lit ++ post)
        = ExportObligations (ParsedOk (JArray items)) (ensure_nonempty items)).
Proof.
  intros Hpre Hpost Hlit Hinc Hparse.
  pose proof (clean_around pre lit post Hpre Hpost Hlit Hinc) as Hclean.
  assert (Htry : try_parse JSON_parse (clean (pre ++ lit ++ post)) = ParsedOk (JArray items)).
  { unfold try_parse. by rewrite Hclean, Hparse. }
  repeat split.
  - exact Hclean.
  - exact Htry.
  - unfold extractObligations. by rewrite Htry.
  - intros stored. unfold export_parse. by rewrite Htry.
Qed.

(** A fenced answer with preamble and postamble is cleaned to its literal. *)
Lemma clean_isolates_fence_free_literal_witness :
  clean one_record_answer = one_record_literal
  /\ extractObligations Json.parse one_record_answer = [one_record].
Proof.
  destruct (clean_isolates_fence_free_literal Json.parse
              one_record_preamble one_record_literal one_record_postamble [one_record])
    as (H1 & _ & H3 & _).
  - split; apply (bool_decide_unpack _); by vm_compute.
  - split; apply (bool_decide_unpack _); by vm_compute.
  - split; by vm_compute.
  - by vm_compute.
  - by vm_compute.
  - split; [exact H1|exact H3].
Defined.

(** C7, as stated, fails: the array literal [["```"]] is cleaned to
    [[""]], alone or inside a fenced answer, and parses to a different
    array. *)
Lemma fence_inside_literal_is_lost :
  Json.parse fence_literal = Some (JArray [JString fence])
  /\ bracketed fence_literal
  /\ clean fence_literal = js "[" ++ quote ++ quote ++ js "]"
  /\ clean fence_literal <> fence_literal
  /\ clean fenced_answer <> fence_literal
  /\ extractObligations Json.parse fenced_answer = [JString []].
Proof.
  split; [by vm_compute|]. split; [split; by vm_compute|].
  split; [by vm_compute|].
  split; [intros E; vm_compute in E; discriminate E|].
  split; [intros E; vm_compute in E; discriminate E|].
  by vm_compute.
Qed.

(** C2 (amended).  For every answer of the model the obligations array
    the endpoint builds is non-empty.  It is the single [Failed to
    extract] sample when the parse throws or yields [null], the single [No
    technical obligations found] sample when the parse yields an empty
    array or a value that is no array, and otherwise the parsed array as
    it is, without any check of its elements.  Both samples have category
    [Information] and every field filled, and the endpoint reports the
    array's length. *)
Theorem extracted_obligations_never_empty (JSON_parse : list N -> option jsval) text :
  let obligations := extractObligations JSON_parse text in
  obligations <> []
  /\ match JSON_parse (clean text) with
     | None | Some JNull => obligations = [failed_sample]
     | Some (JArray (x :: xs)) => obligations = x :: xs
     | Some _ => obligations = [empty_sample]
     end
  /\ fields_nonempty failed_sample = true
  /\ fields_nonempty empty_sample = true
  /\ Json.get failed_sample (js "category") = Some (JString (js "Information"))
  /\ Json.get empty_sample (js "category") = Some (JString (js "Information"))
  /\ (forall env req t csv name,
        request_json env = Returned req ->
        humanReadableText req = Some t -> t <> [] ->
        GEMINI_API_KEY env = true ->
        generateContent env (OBLIGATIONS_EXTRACTION_PROMPT ++ t) = Returned text ->
        render_csv env req obligations = Returned (csv, name) ->
        POST JSON_parse env = JsonCsv csv name (length obligations)
        /\ 1 <= length obligations).
Proof.
  cbv zeta.
  assert (Hmatch :
    match JSON_parse (clean text) with
    | None | Some JNull => extractObligations JSON_parse text = [failed_sample]
    | Some (JArray (x :: xs)) => extractObligations JSON_parse text = x :: xs
    | Some _ => extractObligations JSON_parse text = [empty_sample]
    end).
  { unfold extractObligations, try_parse.
    destruct (JSON_parse (clean text)) as [[| | | |[|x xs]|]|]; reflexivity. }
  assert (Hne : extractObligations JSON_parse text <> []).
  { destruct (JSON_parse (clean text)) as [[| | | |[|x xs]|]|]; by rewrite Hmatch. }
  split; [exact Hne|]. split; [exact Hmatch|].
  split; [by vm_compute|]. split; [by vm_compute|].
  split; [by vm_compute|]. split; [by vm_compute|].
  intros env req t csv name Hreq Ht Hnil Hkey Hgen Hcsv.
  split.
  - unfold POST. rewrite Hreq, Ht. destruct t as [|ch t]; [done|].
    rewrite Hkey. cbn [negb]. by rewrite Hgen, Hcsv.
  - destruct (extractObligations JSON_parse text); [done|]. simpl. lia.
Qed.

(** C2, as stated, fails: the answer [[{}]] comes back as one record with
    no field at all, and the samples themselves, with enforceability
    [N/A], are outside the enum of the record schema. *)
Lemma empty_record_is_returned_unchecked :
  extractObligations Json.parse empty_record_answer = [JObject []]
  /\ fields_nonempty (JObject []) = false
  /\ schema_valid (JObject []) = false
  /\ schema_valid empty_sample = false
  /\ schema_valid failed_sample = false
  /\ POST Json.parse sample_env
     = JsonCsv (js "Document Name,Party") (js "lease-technical-obligations.csv") 1.
Proof. repeat split; by vm_compute. Qed.

End ObligationsFacts.

(** ** Chat *)

Module ChatFacts.
Import Chat ChatSpec.

Section WithModel.
Context (generateContent : list N -> Outcome (list N)).
Context (document_prompt : list N -> FileRow -> Outcome (list N)).
Context (project_prompt : list N -> list FileRow -> Outcome (list N)).

Lemma chatWithDocument_returns message doc :
  exists text,
    chatWithDocument generateContent document_prompt message doc = Returned text.
Proof.
  unfold chatWithDocument.
  destruct (document_prompt message doc) as [p|e]; [|by eexists].
  destruct (generateContent p); by eexists.
Qed.

Lemma chatWithProject_returns message docs :
  exists text,
    chatWithProject generateContent project_prompt message docs = Returned text.
Proof.
  unfold chatWithProject.
  destruct (project_prompt message docs) as [p|e]; [|by eexists].
  destruct (generateContent p); by eexists.
Qed.

Lemma converse_not_generation_failed env req msg target :
  fst (converse generateContent document_prompt project_prompt env req msg target)
  <> generation_failed.
Proof.
  unfold converse, generation_failed.
  destruct (match nonempty (sessionId req) with
            | Some s => Some s | None => insert_session env end) as [sid|];
    [|by vm_compute].
  destruct (insert_user_message env); cbn [negb]; [|by vm_compute].
  destruct target as [doc|docs].
  - destruct (chatWithDocument_returns msg doc) as (text & ->).
    destruct (insert_assistant_message env); cbn [negb fst]; [done|by vm_compute].
  - destruct (chatWithProject_returns msg docs) as (text & ->).
    destruct (insert_assistant_message env); cbn [negb fst]; [done|by vm_compute].
Qed.

Lemma resolve_target_not_generation_failed env req r :
  resolve_target env req = inl r -> r <> generation_failed.
Proof.
  unfold resolve_target, generation_failed.
  destruct (nonempty (fileId req)).
  - destruct (select_file env); [done|]. intros [= <-]. by vm_compute.
  - destruct (match fileIds req with
              | Some ids => Some ids | None => select_session_file_ids env end) as [ids|];
      [|intros [= <-]; by vm_compute].
    destruct (select_project_files env ids); [done|].
    intros [= <-]. by vm_compute.
Qed.

(** The route never answers with its own generation-failure response:
    the service has already turned every failure into a reply. *)
Lemma generation_failed_unreachable env :
  fst (POST generateContent document_prompt project_prompt env) <> generation_failed.
Proof.
  unfold POST.
  destruct (getUser env); [|by vm_compute].
  destruct (GEMINI_API_KEY env); cbn [negb]; [|by vm_compute].
  destruct (request_json env) as [req|e]; [|by vm_compute].
  destruct (nonempty (message req)) as [msg|];
    [|destruct (nonempty (fileId req)), (nonempty (projectId req)); by vm_compute].
  assert (Hgo : fst (match resolve_target env req with
                     | inl r => (r, [])
                     | inr target =>
                         converse generateContent document_prompt project_prompt
                           env req msg target
                     end) <> generation_failed).
  { destruct (resolve_target env req) as [r|target] eqn:Ht.
    - by apply (resolve_target_not_generation_failed env req).
    - apply converse_not_generation_failed. }
  destruct (nonempty (fileId req)); [exact Hgo|].
  destruct (nonempty (projectId req)); [exact Hgo|by vm_compute].
Qed.

(** C8 (amended).  When the model call of a chat turn throws, the
    service catches it and returns an apology that asks to try again and
    ends with the error's message ([Unknown error] for a thrown value
    that is no [Error]); this never throws, so the route's own status-500
    generation failure is never sent.  For every turn that reaches the
    service, about a single document or about a project (the file or
    the project files found, in the session given or in the one just
    created), with the message writes succeeding, the route stores the
    apology as the assistant's message and answers with its ordinary
    success response carrying the apology. *)
Theorem model_failure_becomes_apology_reply env req msg sid target fullPrompt e :
  getUser env <> None ->
  GEMINI_API_KEY env = true ->
  request_json env = Returned req ->
  nonempty (message req) = Some msg ->
  is_Some (nonempty (fileId req)) \/ is_Some (nonempty (projectId req)) ->
  resolve_target env req = inr target ->
  match nonempty (sessionId req) with
  | Some s => Some s
  | None => insert_session env
  end = Some sid ->
  insert_user_message env = true ->
  insert_assistant_message env = true ->
  prompt_of document_prompt project_prompt msg target = Returned fullPrompt ->
  generateContent fullPrompt = Threw e ->
  POST generateContent document_prompt project_prompt env
  = (JsonOk (apology_of target e) sid (chatType_of target),
     [ {| session_id := sid; content := msg; role := user |};
       {| session_id := sid; content := apology_of target e; role := assistant |} ])
  /\ (forall env', fst (POST generateContent document_prompt project_prompt env')
                   <> generation_failed)
  /\ (forall doc p,
        document_prompt msg doc = Returned p -> generateContent p = Threw e ->
        chatWithDocument generateContent document_prompt msg doc
        = Returned (document_apology e))
  /\ (forall docs p,
        project_prompt msg docs = Returned p -> generateContent p = Threw e ->
        chatWithProject generateContent project_prompt msg docs
        = Returned (project_apology e)).
Proof.
  intros Huser Hkey Hreq Hmsg Hnamed Htarget Hsid Hsave Hreply Hprompt Hthrow.
  assert (Hdoc : forall doc p,
            document_prompt msg doc = Returned p -> generateContent p = Threw e ->
            chatWithDocument generateContent document_prompt msg doc
            = Returned (document_apology e)).
  { intros doc p Hp Hgen. unfold chatWithDocument. by rewrite Hp, Hgen. }
  assert (Hproj : forall docs p,
            project_prompt msg docs = Returned p -> generateContent p = Threw e ->
            chatWithProject generateContent project_prompt msg docs
            = Returned (project_apology e)).
  { intros docs p Hp Hgen. unfold chatWithProject. by rewrite Hp, Hgen. }
  split; [|split; [apply generation_failed_unreachable|by split]].
  assert (Hgo : converse generateContent document_prompt project_prompt env req msg target
                = (JsonOk (apology_of target e) sid (chatType_of target),
                   [ {| session_id := sid; content := msg; role := user |};
                     {| session_id := sid; content := apology_of target e;
                        role := assistant |} ])).
  { unfold converse. rewrite Hsid, Hsave. cbn [negb].
    destruct target as [doc|docs]; cbn [prompt_of apology_of chatType_of] in *.
    - rewrite (Hdoc doc fullPrompt Hprompt Hthrow), Hreply. reflexivity.
    - rewrite (Hproj docs fullPrompt Hprompt Hthrow), Hreply. reflexivity. }
  unfold POST. destruct (getUser env); [|done].
  rewrite Hkey, Hreq, Hmsg, Htarget. cbn [negb].
  destruct (nonempty (fileId req)); [exact Hgo|].
  destruct (nonempty (projectId req)); [exact Hgo|].
  destruct Hnamed as [[? H]|[? H]]; discriminate H.
Qed.

End WithModel.

(** A single-document turn and a project turn whose model call throws
    [quota exceeded]. *)
Lemma model_failure_becomes_apology_reply_witness :
  POST failing_model sample_document_prompt sample_project_prompt sample_env
  = (JsonOk (document_apology quota_error)
       (js "s1") document,
     [ {| session_id := js "s1"; content := js "When does the lease end?"; role := user |};
       {| session_id := js "s1";
          content := document_apology quota_error;
          role := assistant |} ])
  /\ POST failing_model sample_document_prompt sample_project_prompt sample_project_env
     = (JsonOk (project_apology quota_error)
          (js "s2") project,
        [ {| session_id := js "s2"; content := js "Which lease ends first?"; role := user |};
          {| session_id := js "s2";
             content := project_apology quota_error;
             role := assistant |} ]).
Proof.
  split.
  - refine (proj1 (model_failure_becomes_apology_reply
              failing_model sample_document_prompt sample_project_prompt
              sample_env sample_request (js "When does the lease end?") (js "s1")
              (OneFile sample_file) _ quota_error _ _ _ _ _ _ _ _ _ _ _));
      try reflexivity; try done.
    left. by eexists.
  - refine (proj1 (model_failure_becomes_apology_reply
              failing_model sample_document_prompt sample_project_prompt
              sample_project_env sample_project_request (js "Which lease ends first?")
              (js "s2") (Project [sample_file; sample_file]) _ quota_error
              _ _ _ _ _ _ _ _ _ _ _));
      try reflexivity; try done.
    right. by eexists.
Defined.

(** C8, as stated, fails: a chat turn whose model call throws
    [quota exceeded] is answered with the success response, and the
    apology is stored as the assistant's turn. *)
Lemma model_failure_is_answered_with_success :
  is_success
    (fst (POST failing_model sample_document_prompt sample_project_prompt sample_env))
  = true
  /\ fst (POST failing_model sample_document_prompt sample_project_prompt sample_env)
     = JsonOk
         (js "I apologize, but I encountered an error while processing your request. Please try again or contact support if the issue persists. Error: quota exceeded")
         (js "s1") document
  /\ length (snd (POST failing_model sample_document_prompt sample_project_prompt
                     sample_env)) = 2.
Proof. repeat split; by vm_compute. Qed.

End ChatFacts.
(** ** CSV output *)

Module CsvFacts.
Import Obligations CsvExport CsvReader CsvSpec.

(** *** Escaping *)

Lemma includes_elem c s : includes c s = true <-> c ∈ s.
Proof.
  unfold includes. rewrite existsb_exists. split.
  - intros (x & Hin & Hx). apply N.eqb_eq in Hx. subst x. by apply list_elem_of_In.
  - intros Hin. exists c. split; [by apply list_elem_of_In|apply N.eqb_refl].
Qed.

Lemma includes_cons c x s : includes c (x :: s) = N.eqb c x || includes c s.
Proof. reflexivity. Qed.

Lemma double_quotes_inj a : forall b, double_quotes a = double_quotes b -> a = b.
Proof.
  induction a as [|c a IH]; intros [|d b]; simpl.
  - done.
  - destruct (N.eqb d dquote); discriminate.
  - destruct (N.eqb c dquote); discriminate.
  - destruct (N.eqb c dquote) eqn:Hc; destruct (N.eqb d dquote) eqn:Hd.
    + apply N.eqb_eq in Hc, Hd. intros [= H]. f_equal; [congruence|by apply IH].
    + intros [= H1 H2]. apply N.eqb_neq in Hd. congruence.
    + intros [= H1 H2]. apply N.eqb_neq in Hc. congruence.
    + intros [= H1 H2]. f_equal; [done|by apply IH].
Qed.


Lemma escape_unfold s :
  escape s = if special s then [dquote] ++ double_quotes s ++ [dquote] else s.
Proof. reflexivity. Qed.

Lemma escape_special s :
  special s = true -> escape s = [dquote] ++ double_quotes s ++ [dquote].
Proof. intros H. by rewrite escape_unfold, H. Qed.

Lemma escape_plain s : special s = false -> escape s = s.
Proof. intros H. by rewrite escape_unfold, H. Qed.

Lemma special_cons c s :
  special (c :: s) = false ->
  N.eqb c dquote = false /\ N.eqb c comma = false /\ N.eqb c line_feed = false
  /\ special s = false.
Proof.
  unfold special. rewrite !includes_cons, !orb_false_iff.
  rewrite (N.eqb_sym c dquote), (N.eqb_sym c comma), (N.eqb_sym c line_feed).
  tauto.
Qed.

(** *** Reading a written text *)

Lemma prepend_field f fields rs :
  prepend f (([] :: fields) :: rs) = (f :: fields) :: rs.
Proof. unfold prepend. induction f as [|c f IH]; simpl; [done|]. by rewrite IH. Qed.

Lemma read_at_separator lb p rest :
  at_separator rest -> p <> Quoted -> (p = RecordStart -> rest <> []) ->
  read lb p rest = read lb Plain rest.
Proof.
  destruct rest as [|c rest].
  - intros _ Hq Hr. destruct p; try done. by destruct Hr.
  - simpl. intros [-> | ->] Hp _; destruct p; done.
Qed.

Lemma read_data lb c rest :
  N.eqb c dquote = false -> N.eqb c comma = false -> N.eqb c line_feed = false ->
  lb = LineFeed \/ c <> carriage_return ->
  forall p, p <> Quoted -> read lb p (c :: rest) = push c (read lb Plain rest).
Proof.
  intros Hq Hc Hl Hcr p Hp. cbn [read]. rewrite Hq, Hc, Hl.
  assert (H : match lb, rest with
              | CrLfOrLf, c' :: rest' =>
                  if N.eqb c carriage_return && N.eqb c' line_feed
                  then new_record (read lb RecordStart rest')
                  else push c (read lb Plain rest)
              | _, _ => push c (read lb Plain rest)
              end = push c (read lb Plain rest)).
  { destruct Hcr as [-> | Hcr]; [done|].
    destruct lb; [done|]. destruct rest as [|c' rest']; [done|].
    by rewrite (proj2 (N.eqb_neq c carriage_return) Hcr). }
  destruct p; try done.
Qed.

Lemma cr_free_cons lb c f :
  cr_free lb (c :: f) -> (lb = LineFeed \/ c <> carriage_return) /\ cr_free lb f.
Proof.
  intros [-> | H]; [split; by left|].
  apply not_elem_of_cons in H as [Hc Hf]. split; right; [congruence|done].
Qed.

Lemma read_plain lb f rest :
  special f = false -> cr_free lb f ->
  read lb Plain (f ++ rest) = prepend f (read lb Plain rest).
Proof.
  induction f as [|c f IH]; [done|]. intros Hs Hcr.
  apply special_cons in Hs as (Hq & Hc & Hl & Hs).
  apply cr_free_cons in Hcr as [Hc' Hcr].
  cbn [app]. rewrite (read_data lb c (f ++ rest) Hq Hc Hl Hc' Plain) by done.
  rewrite IH by done. reflexivity.
Qed.

Lemma read_quoted lb f rest :
  read lb Quoted (double_quotes f ++ dquote :: rest) = prepend f (read lb AfterQuote rest).
Proof.
  induction f as [|c f IH]; simpl.
  - done.
  - destruct (N.eqb c dquote) eqn:Hc.
    + apply N.eqb_eq in Hc. subst c. simpl. by rewrite IH.
    + simpl. by rewrite Hc, IH.
Qed.

Lemma read_escape lb p f rest :
  at_separator rest -> cr_free lb f ->
  p = RecordStart \/ p = FieldStart ->
  (p = RecordStart -> f = [] -> rest <> []) ->
  read lb p (escape f ++ rest) = prepend f (read lb Plain rest).
Proof.
  intros Hrest Hcr Hp Hside. destruct (special f) eqn:Hs.
  - rewrite (escape_special f Hs). cbn [app]. rewrite <- app_assoc. cbn [app].
    assert (H : read lb p (dquote :: double_quotes f ++ dquote :: rest)
                = read lb Quoted (double_quotes f ++ dquote :: rest))
      by (by destruct Hp as [-> | ->]).
    rewrite H, read_quoted. by rewrite (read_at_separator lb AfterQuote rest Hrest).
  - rewrite (escape_plain f Hs). destruct f as [|c f].
    + cbn [app prepend foldr]. apply read_at_separator; [done| |by auto].
      by destruct Hp as [-> | ->].
    + pose proof (special_cons c f Hs) as (Hq & Hc & Hl & Hs').
      apply cr_free_cons in Hcr as [Hc' Hcr]. cbn [app].
      rewrite (read_data lb c (f ++ rest) Hq Hc Hl Hc' p)
        by (by destruct Hp as [-> | ->]).
      by rewrite read_plain.
Qed.

Lemma read_line_end lb tail :
  at_line_end tail -> at_separator tail /\ read lb Plain tail = [[]] :: following lb tail.
Proof.
  intros [-> | [s ->]]; simpl.
  - done.
  - split; [by right|done].
Qed.

Lemma read_line lb row tail :
  at_line_end tail ->
  forall p,
    row <> [] -> Forall (cr_free lb) row ->
    p = RecordStart \/ p = FieldStart ->
    (p = RecordStart -> row = [[]] -> tail <> []) ->
    read lb p (join [comma] (map escape row) ++ tail) = row :: following lb tail.
Proof.
  intros Htail. destruct (read_line_end lb tail Htail) as [Hsep Hread].
  induction row as [|f row IH]; [done|]. intros p _ Hcr Hp Hside.
  apply Forall_cons in Hcr as [Hf Hcr].
  destruct row as [|g row].
  - cbn [map join]. rewrite (read_escape lb p f tail); try done.
    + rewrite Hread. apply prepend_field.
    + intros -> ->. by apply Hside.
  - change (join [comma] (map escape (f :: g :: row)))
      with (escape f ++ [comma] ++ join [comma] (map escape (g :: row))).
    rewrite <- !app_assoc.
    rewrite (read_escape lb p f) by (try done; by left).
    change (read lb Plain ([comma] ++ join [comma] (map escape (g :: row)) ++ tail))
      with (new_field (read lb FieldStart (join [comma] (map escape (g :: row)) ++ tail))).
    rewrite (IH FieldStart) by (try done; by right). simpl. apply prepend_field.
Qed.

Lemma read_written lb rows :
  Forall (fun row => row <> []) rows -> Forall (Forall (cr_free lb)) rows ->
  records_with lb (written rows) = readable rows.
Proof.
  unfold records_with, written.
  induction rows as [|row rows IH]; [done|]. intros Hne Hcr.
  apply Forall_cons in Hne as [Hrow Hrows]. apply Forall_cons in Hcr as [Hcr Hcrs].
  destruct rows as [|row2 rows].
  - cbn [map join readable]. case_bool_decide as Hlast.
    + by subst row.
    + rewrite <- (app_nil_r (join _ _)).
      rewrite (read_line lb row []); try done; [by left|by left].
  - change (join [line_feed] (map (fun r => join [comma] (map escape r)) (row :: row2 :: rows)))
      with (join [comma] (map escape row) ++ [line_feed]
            ++ join [line_feed]
                 (map (fun r => join [comma] (map escape r)) (row2 :: rows))).
    rewrite (read_line lb row); try done; [|right; by eexists|by left].
    cbn [following app readable]. f_equal. by apply IH.
Qed.

Lemma readable_all rows : last rows <> Some [[]] -> readable rows = rows.
Proof.
  induction rows as [|row rows IH]; [done|]. destruct rows as [|row2 rows].
  - cbn [last readable]. intros H. rewrite bool_decide_eq_false_2; [done|congruence].
  - intros H. cbn [readable]. f_equal. apply IH. exact H.
Qed.

Lemma readable_but_last rows : last rows = Some [[]] -> readable rows = removelast rows.
Proof.
  induction rows as [|row rows IH]; [done|]. destruct rows as [|row2 rows].
  - cbn [last readable removelast]. intros [= ->]. by rewrite bool_decide_eq_true_2.
  - intros H. cbn [readable]. change (removelast (row :: row2 :: rows))
      with (row :: removelast (row2 :: rows)). f_equal. apply IH. exact H.
Qed.

Lemma cr_free_rows lb (rows : list (list (list N))) :
  lb = LineFeed \/ Forall (Forall (fun f => carriage_return ∉ f)) rows ->
  Forall (Forall (cr_free lb)) rows.
Proof.
  intros [-> | H].
  - apply Forall_forall. intros row _. apply Forall_forall. intros f _. by left.
  - eapply Forall_impl; [exact H|]. intros row Hrow.
    eapply Forall_impl; [exact Hrow|]. intros f Hf. by right.
Qed.

Lemma records_written rows :
  Forall (fun row => row <> []) rows -> last rows <> Some [[]] ->
  records (written rows) = rows.
Proof.
  intros Hne Hlast. unfold records.
  rewrite (read_written LineFeed rows Hne) by (apply cr_free_rows; by left).
  by apply readable_all.
Qed.

Lemma last_ten_fields (row : list (list N)) rows :
  Forall (fun r => length r = 10) (row :: rows) -> last (row :: rows) <> Some [[]].
Proof.
  intros H Hlast. apply last_Some in Hlast as [l' Hl].
  rewrite Hl in H. apply Forall_app in H as [_ H].
  apply Forall_cons in H as [H _]. discriminate H.
Qed.

(** *** The export of the obligations route *)


Lemma all_of_option_map {A B C} (f : A -> option B) (g : B -> C) l :
  all_of (fun x => option_map g (f x)) l = option_map (map g) (all_of f l).
Proof.
  induction l as [|x l IH]; simpl; [done|].
  rewrite IH. destruct (f x), (all_of f l); done.
Qed.

Lemma all_of_length {A B} (f : A -> option B) l ys :
  all_of f l = Some ys -> length ys = length l.
Proof.
  revert ys. induction l as [|x l IH]; simpl; intros ys.
  - by intros [= <-].
  - destruct (f x); [|done]. destruct (all_of f l) as [ys'|]; [|done].
    intros [= <-]. simpl. by rewrite (IH ys').
Qed.

Lemma all_of_Forall2 {A B} (f : A -> option B) l ys :
  all_of f l = Some ys -> Forall2 (fun x y => f x = Some y) l ys.
Proof.
  revert ys. induction l as [|x l IH]; simpl; intros ys.
  - intros [= <-]. constructor.
  - destruct (f x) eqn:Hx; [|done]. destruct (all_of f l) as [ys'|]; [|done].
    intros [= <-]. constructor; [done|by apply IH].
Qed.

Lemma csvLine_written E row line :
  csvLine E row = Some line ->
  exists texts,
    all_of (field_text E) row = Some texts
    /\ line = join [comma] (map escape texts).
Proof.
  unfold csvLine, formatCSVField.
  rewrite (all_of_option_map (fun field => String_of E (or_empty E (Some field))) escape).
  fold (field_text E).
  destruct (all_of (field_text E) row) as [texts|]; [|done].
  simpl. intros [= <-]. by exists texts.
Qed.

Lemma csvLines_written E rows lines :
  all_of (csvLine E) rows = Some lines ->
  exists texts,
    all_of (all_of (field_text E)) rows = Some texts
    /\ lines = map (fun r => join [comma] (map escape r)) texts.
Proof.
  revert lines. induction rows as [|row rows IH]; simpl; intros lines.
  - intros [= <-]. by exists [].
  - destruct (csvLine E row) as [line|] eqn:Hline; [|done].
    destruct (all_of (csvLine E) rows) as [lines'|]; [|done].
    intros [= <-].
    destruct (csvLine_written E row line Hline) as (t & -> & ->).
    destruct (IH lines' eq_refl) as (ts & -> & ->).
    by exists (t :: ts).
Qed.

Lemma csvRow_length E req k obligation row :
  csvRow E req k obligation = Some row -> length row = 10.
Proof. destruct obligation; simpl; intros [= <-]; reflexivity. Qed.

Lemma csvRows_shape E req obligations : forall k rows,
  csvRows E req k obligations = Some rows ->
  length rows = length obligations /\ Forall (fun row => length row = 10) rows.
Proof.
  induction obligations as [|o os IH]; simpl; intros k rows.
  - intros [= <-]. split; [done|constructor].
  - destruct (csvRow E req k o) as [row|] eqn:Hrow; [|done].
    destruct (csvRows E req (S k) os) as [rows'|] eqn:Hrows; [|done].
    intros [= <-]. destruct (IH _ _ Hrows) as [Hlen Hall]. split.
    + simpl. by rewrite Hlen.
    + constructor; [by eapply csvRow_length|done].
Qed.

Lemma headers_plain : map escape csvHeaders = csvHeaders.
Proof. by vm_compute. Qed.

Lemma csvRows_null E req obligations : forall k,
  JNull ∈ obligations -> csvRows E req k obligations = None.
Proof.
  induction obligations as [|o os IH]; intros k Hin.
  - by apply elem_of_nil in Hin.
  - apply elem_of_cons in Hin as [<- | Hin]; simpl; [done|].
    rewrite (IH (S k) Hin). by destruct (csvRow E req k o).
Qed.

Lemma member_elem key members v :
  Json.member key members = Some v -> v ∈ map snd members.
Proof.
  induction members as [|[k x] ms IH]; simpl; [done|].
  destruct (Json.member key ms) as [v'|].
  - intros [= <-]. apply list_elem_of_further. by apply IH.
  - destruct (str_eqb k key); [|done]. intros [= <-]. apply list_elem_of_here.
Qed.

Lemma scalar_text E v : scalar v = true -> is_Some (String_of E v).
Proof. destruct v as [|[]| | | |]; simpl; try done; intros _; by eexists. Qed.

Lemma or_empty_scalar E o :
  (forall v, o = Some v -> scalar v = true) -> scalar (or_empty E o) = true.
Proof.
  intros H. destruct o as [v|]; simpl; [|done].
  destruct (truthy E v); [by apply H|done].
Qed.

Lemma field_text_scalar E v : scalar v = true -> is_Some (field_text E v).
Proof.
  intros Hv. unfold field_text. apply scalar_text.
  apply or_empty_scalar. by intros ? [= <-].
Qed.

Lemma csvLine_scalar E row :
  Forall (fun v => scalar v = true) row -> is_Some (csvLine E row).
Proof.
  intros Hrow. unfold csvLine.
  assert (H : is_Some (all_of (formatCSVField E) row)).
  { induction Hrow as [|v row Hv _ [ys IH]]; [by eexists|].
    simpl. unfold formatCSVField at 1. fold (field_text E v).
    destruct (field_text_scalar E v Hv) as [s ->]. rewrite IH. by eexists. }
  destruct H as [ys ->]. by eexists.
Qed.

Lemma or_else_scalar E o b :
  scalar b = true -> (forall v, o = Some v -> scalar v = true) ->
  scalar (CsvEndpoint.or_else E o b) = true.
Proof.
  intros Hb H. destruct o as [v|]; simpl; [|done].
  destruct (truthy E v); [by apply H|done].
Qed.

Lemma endpoint_row_length E fileName leaseType k obligation row :
  CsvEndpoint.csvRow E fileName leaseType k obligation = Some row -> length row = 10.
Proof. destruct obligation; simpl; intros [= <-]; reflexivity. Qed.

Lemma endpoint_rows_shape E fileName leaseType obligations : forall k rows,
  CsvEndpoint.csvRows E fileName leaseType k obligations = Some rows ->
  length rows = length obligations /\ Forall (fun row => length row = 10) rows.
Proof.
  induction obligations as [|o os IH]; simpl; intros k rows.
  - intros [= <-]. split; [done|constructor].
  - destruct (CsvEndpoint.csvRow E fileName leaseType k o) as [row|] eqn:Hrow; [|done].
    destruct (CsvEndpoint.csvRows E fileName leaseType (S k) os) as [rows'|] eqn:Hrows;
      [|done].
    intros [= <-]. destruct (IH _ _ Hrows) as [Hlen Hall]. split.
    + simpl. by rewrite Hlen.
    + constructor; [by eapply endpoint_row_length|done].
Qed.

(** A flat record gives a row of scalars when the two members of the
    body that go into it are scalars, and such a row is written without
    throwing. *)
Lemma flat_record_line E fileName leaseType k o :
  flat_record o ->
  (forall v, fileName = Some v -> scalar v = true) ->
  (forall v, leaseType = Some v -> scalar v = true) ->
  exists row line,
    CsvEndpoint.csvRow E fileName leaseType k o = Some row /\ csvLine E row = Some line.
Proof.
  destruct o as [| | | | |members]; try done. simpl. intros Hflat Hname Hlease.
  assert (Hget : forall key, scalar (or_empty E (Json.member (js key) members)) = true).
  { intros key. apply or_empty_scalar. intros v Hv.
    apply member_elem, list_elem_of_fmap in Hv as ([k' v'] & -> & Hin).
    by apply (proj1 (Forall_forall _ _) Hflat) in Hin. }
  eexists.
  match goal with
  | |- exists line, Some ?r = _ /\ _ =>
      destruct (csvLine_scalar E r) as [line Hline]
  end.
  { repeat (constructor; [first [apply Hget|by apply or_else_scalar|reflexivity]|]).
    constructor. }
  exists line. split; [reflexivity|exact Hline].
Qed.

Lemma flat_records_content E fileName leaseType obligations :
  Forall flat_record obligations ->
  (forall v, fileName = Some v -> scalar v = true) ->
  (forall v, leaseType = Some v -> scalar v = true) ->
  is_Some (CsvEndpoint.csvContent E fileName leaseType obligations).
Proof.
  intros Hflat Hname Hlease. unfold CsvEndpoint.csvContent.
  assert (H : forall k, exists rows lines,
             CsvEndpoint.csvRows E fileName leaseType k obligations = Some rows
             /\ all_of (csvLine E) rows = Some lines).
  { induction Hflat as [|o os Ho Hos IH]; intros k.
    - by exists [], [].
    - destruct (flat_record_line E fileName leaseType k o Ho Hname Hlease)
        as (row & line & Hrow & Hline).
      destruct (IH (S k)) as (rows & lines & Hrows & Hlines).
      exists (row :: rows), (line :: lines). simpl.
      by rewrite Hrow, Hrows, Hline, Hlines. }
  destruct (H 0) as (rows & lines & -> & ->). by eexists.
Qed.

Lemma texts_shape E (rows : list (list jsval)) texts :
  all_of (all_of (field_text E)) rows = Some texts ->
  Forall (fun row => length row = 10) rows ->
  length texts = length rows /\ Forall (fun r => length r = 10) texts.
Proof.
  intros Htexts Hten. split; [by rewrite (all_of_length _ _ _ Htexts)|].
  pose proof (all_of_Forall2 _ _ _ Htexts) as H2.
  clear -H2 Hten. induction H2 as [|r t rs ts Hrt _ IH]; [constructor|].
  apply Forall_cons in Hten as [Hr Hrs]. constructor; [|by apply IH].
  by rewrite (all_of_length _ _ _ Hrt).
Qed.

Lemma endpoint_content_written E fileName leaseType obligations csv :
  CsvEndpoint.csvContent E fileName leaseType obligations = Some csv ->
  exists texts,
    csv = written (csvHeaders :: texts)
    /\ length texts = length obligations
    /\ Forall (fun r => length r = 10) texts.
Proof.
  unfold CsvEndpoint.csvContent.
  destruct (CsvEndpoint.csvRows E fileName leaseType 0 obligations) as [rows|] eqn:Hrows;
    [|done].
  destruct (all_of (csvLine E) rows) as [lines|] eqn:Hlines; [|done].
  simpl. intros [= <-].
  destruct (csvLines_written E rows lines Hlines) as (texts & Htexts & ->).
  destruct (endpoint_rows_shape E fileName leaseType obligations 0 rows Hrows)
    as [Hlen Hten].
  destruct (texts_shape E rows texts Htexts Hten) as [Hlen' Hten'].
  exists texts. split; [|split; [congruence|done]].
  unfold written. cbn [map]. by rewrite headers_plain.
Qed.

Lemma csvContent_written E req obligations csv :
  csvContent E req obligations = Some csv ->
  exists rows texts,
    csvRows E req 0 obligations = Some rows
    /\ all_of (all_of (field_text E)) rows = Some texts
    /\ csv = written (csvHeaders :: texts)
    /\ length texts = length obligations
    /\ Forall (fun r => length r = 10) texts.
Proof.
  unfold csvContent.
  destruct (csvRows E req 0 obligations) as [rows|] eqn:Hrows; [|done].
  destruct (all_of (csvLine E) rows) as [lines|] eqn:Hlines; [|done].
  simpl. intros [= <-].
  destruct (csvLines_written E rows lines Hlines) as (texts & Htexts & ->).
  destruct (csvRows_shape E req obligations 0 rows Hrows) as [Hlen Hten].
  exists rows, texts. split; [done|]. split; [done|]. split.
  - unfold written. cbn [map]. by rewrite headers_plain.
  - split; [by rewrite (all_of_length _ _ _ Htexts)|].
    pose proof (all_of_Forall2 _ _ _ Htexts) as H2.
    clear -H2 Hten. induction H2 as [|r t rs ts Hrt _ IH]; [constructor|].
    apply Forall_cons in Hten as [Hr Hrs]. constructor; [|by apply IH].
    by rewrite (all_of_length _ _ _ Hrt).
Qed.

Lemma table_reads_back (texts : list (list (list N))) :
  Forall (fun r => length r = 10) texts ->
  records (written (csvHeaders :: texts)) = csvHeaders :: texts.
Proof.
  intros Hten.
  assert (H : Forall (fun r : list (list N) => length r = 10) (csvHeaders :: texts))
    by (by constructor).
  apply records_written; [|by apply last_ten_fields].
  eapply Forall_impl; [exact H|]. intros r Hr ->. discriminate Hr.
Qed.

(** *** The two models of the endpoint *)

Lemma body_members req :
  Json.get (body_of req) (js "humanReadableText") = option_map JString (humanReadableText req)
  /\ Json.get (body_of req) (js "fileName") = option_map JString (fileName req)
  /\ Json.get (body_of req) (js "leaseType") = option_map JString (leaseType req).
Proof. destruct req as [[t|] [f|] [l|]]; repeat split; by vm_compute. Qed.

Lemma or_else_string E o b :
  CsvEndpoint.or_else E (option_map JString o) (JString b) = JString (opt_or_str o b).
Proof. by destruct o as [[|c s]|]. Qed.

Lemma endpoint_rows E req obligations : forall k,
  CsvEndpoint.csvRows E (option_map JString (fileName req))
    (option_map JString (leaseType req)) k obligations
  = csvRows E req k obligations.
Proof.
  induction obligations as [|o os IH]; intros k; [done|].
  cbn [CsvEndpoint.csvRows csvRows]. rewrite IH.
  unfold CsvEndpoint.csvRow, csvRow. by rewrite !or_else_string.
Qed.

Lemma endpoint_name req :
  CsvEndpoint.download_name (option_map JString (fileName req)) = Some (download_name req).
Proof. unfold download_name. by destruct (fileName req) as [name|]. Qed.

(** On a body whose members are strings or absent, the endpoint is
    [Obligations.POST] with the CSV stage run by the engine. *)
Lemma endpoint_agrees E JSON_parse env :
  renders E env ->
  CsvEndpoint.POST E JSON_parse (endpoint_of env) = POST JSON_parse env.
Proof.
  intros Hrender. unfold CsvEndpoint.POST, POST. cbn [endpoint_of CsvEndpoint.request_json
    CsvEndpoint.GEMINI_API_KEY CsvEndpoint.generateContent].
  destruct (request_json env) as [req|e]; [|done].
  destruct (body_members req) as (Ht & Hf & Hl).
  change (body_of req) with (JObject (member_of "humanReadableText" (humanReadableText req)
           ++ member_of "fileName" (fileName req)
           ++ member_of "leaseType" (leaseType req))) at 1.
  cbv iota beta. fold (body_of req). rewrite Ht, Hf, Hl.
  destruct (humanReadableText req) as [[|c t]|]; try done. cbn [option_map truthy negb String_of].
  destruct (GEMINI_API_KEY env); [|done]. cbn [negb].
  destruct (generateContent env _) as [text|]; [|done].
  specialize (Hrender req (extractObligations JSON_parse text)).
  unfold render, csvContent in Hrender. unfold CsvEndpoint.csvContent.
  rewrite endpoint_rows, endpoint_name.
  destruct (csvRows E req 0 _) as [rows|]; [|by destruct Hrender as [e ->]].
  destruct (all_of (csvLine E) rows) as [lines|]; simpl in *.
  - by rewrite Hrender.
  - by destruct Hrender as [e ->].
Qed.

(** *** Properties of the writers *)

(** X1.  The escaping of [formatCSVField] loses nothing: two different
    field texts never have the same escaped form. *)
Theorem escape_is_injective a b : a <> b -> escape a <> escape b.
Proof.
  intros Hne. destruct (special a) eqn:Ha; destruct (special b) eqn:Hb.
  - rewrite (escape_special a Ha), (escape_special b Hb). simpl.
    intros [= H]. apply app_inj_tail in H as [H _]. by apply Hne, double_quotes_inj.
  - rewrite (escape_special a Ha), (escape_plain b Hb). simpl. intros <-.
    apply special_cons in Hb as [Hq _]. by rewrite N.eqb_refl in Hq.
  - rewrite (escape_plain a Ha), (escape_special b Hb). simpl. intros ->.
    apply special_cons in Ha as [Hq _]. by rewrite N.eqb_refl in Hq.
  - by rewrite (escape_plain a Ha), (escape_plain b Hb).
Qed.

(** A text with a comma and the text without it. *)
Lemma escape_is_injective_witness : escape (js "a,b") <> escape (js "ab").
Proof. apply escape_is_injective. intros H. discriminate H. Defined.

(** X2.  A text written the way the exports write it (each field
    escaped, fields joined by commas, lines joined by line feeds) is
    read back, record by record and field by field, to the rows it was
    written from: commas, quotes and line feeds inside a field do not
    break the table.  This holds for a reader that takes the line feed
    as the line break, and also for one that takes CR LF as well when no
    field holds a carriage return, which the writers do not quote.  No
    row may be empty, and the last row may not be a single empty field:
    such a last row leaves nothing in the text but the line feed before
    it, and is lost.  So two tables without such a last row that have
    the same text are the same table. *)
Theorem written_csv_reads_back lb rows :
  Forall (fun row => row <> []) rows ->
  lb = LineFeed \/ Forall (Forall (fun field => carriage_return ∉ field)) rows ->
  (last rows <> Some [[]] -> records_with lb (written rows) = rows)
  /\ (last rows = Some [[]] -> records_with lb (written rows) = removelast rows)
  /\ (forall rows',
        Forall (fun row => row <> []) rows' ->
        last rows <> Some [[]] -> last rows' <> Some [[]] ->
        written rows' = written rows -> rows' = rows).
Proof.
  intros Hrows Hcr.
  pose proof (read_written lb rows Hrows (cr_free_rows lb rows Hcr)) as Hread.
  split; [|split].
  - intros Hlast. by rewrite Hread, readable_all.
  - intros Hlast. by rewrite Hread, readable_but_last.
  - intros rows' Hrows' Hlast Hlast' Heq.
    rewrite <- (records_written rows') by done.
    rewrite Heq. by apply records_written.
Qed.

Lemma written_csv_reads_back_witness :
  records_with CrLfOrLf (written CsvSamples.table) = CsvSamples.table.
Proof.
  destruct (written_csv_reads_back CrLfOrLf CsvSamples.table) as [H _].
  - repeat (constructor; [done|]). constructor.
  - right. repeat (constructor; [repeat (constructor;
      [apply (bool_decide_unpack _); by vm_compute|]); constructor|]). constructor.
  - apply H. by vm_compute.
Defined.

(** X3.  When the export of the obligations route builds its CSV text
    without throwing, the text reads back as the header row followed by
    one row per obligation, each of ten fields: the texts
    [String(field || '')] of the row arrays, unchanged. *)
Theorem exported_csv_reads_back E req obligations csv :
  csvContent E req obligations = Some csv ->
  exists rows texts,
    csvRows E req 0 obligations = Some rows
    /\ all_of (all_of (field_text E)) rows = Some texts
    /\ records csv = csvHeaders :: texts
    /\ length texts = length obligations
    /\ Forall (fun r => length r = 10) texts.
Proof.
  intros Hcsv.
  destruct (csvContent_written E req obligations csv Hcsv)
    as (rows & texts & Hrows & Htexts & -> & Hlen & Hten).
  exists rows, texts. split; [done|]. split; [done|]. split; [|by split].
  by apply table_reads_back.
Qed.

Lemma exported_csv_reads_back_witness :
  exists csv texts,
    csvContent CsvSamples.engine CsvSamples.request [CsvSamples.rent] = Some csv
    /\ records csv = csvHeaders :: texts
    /\ texts = [[js "lease.v2.pdf"; js "Lessee"; js "Pay rent, quarterly"; []; []; [];
                 []; []; js "solar"; js "11/2/2026"]].
Proof.
  destruct (csvContent CsvSamples.engine CsvSamples.request [CsvSamples.rent])
    as [csv|] eqn:Hcsv; [|by vm_compute in Hcsv].
  destruct (exported_csv_reads_back _ _ _ _ Hcsv) as (rows & texts & Hrows & Htexts & Hread & _).
  exists csv, texts. split; [done|]. split; [done|].
  vm_compute in Hrows. injection Hrows as <-.
  vm_compute in Htexts. by injection Htexts as <-.
Defined.

(** X4.  Whether flat records are exported depends on the [fileName] of
    the body alone.  Let the body carry a truthy [humanReadableText]
    that [String] can convert, the model answer, every obligation the
    endpoint ends up with be a record of strings, numbers, booleans and
    [null]s (the two samples are), and [leaseType] be absent or such a
    value.  When [fileName] is absent, [null] or a string, building the
    CSV cannot throw: the response is the CSV under the download name
    made from that string ([document] without one), its
    [obligationsCount] is the number of obligations, and the text reads
    back as the header row and that many rows.  When [fileName] is
    anything else (a number, a boolean, an array, an object), calling
    its [replace] throws and the answer is status 500,
    [Internal server error]. *)
Theorem flat_records_are_exported JSON_parse E env body t prompt text :
  CsvEndpoint.request_json env = Returned body ->
  Json.get body (js "humanReadableText") = Some t ->
  truthy E t = true ->
  String_of E t = Some prompt ->
  CsvEndpoint.GEMINI_API_KEY env = true ->
  CsvEndpoint.generateContent env (OBLIGATIONS_EXTRACTION_PROMPT ++ prompt)
  = Returned text ->
  Forall flat_record (extractObligations JSON_parse text) ->
  (forall v, Json.get body (js "leaseType") = Some v -> scalar v = true) ->
  let n := length (extractObligations JSON_parse text) in
  match Json.get body (js "fileName") with
  | None | Some JNull =>
      exported (CsvEndpoint.POST E JSON_parse env)
        (js "document-technical-obligations.csv") n
  | Some (JString name) =>
      exported (CsvEndpoint.POST E JSON_parse env)
        (or_str (strip_extension name) (js "document")
         ++ js "-technical-obligations.csv") n
  | Some _ =>
      CsvEndpoint.POST E JSON_parse env = JsonError 500 (js "Internal server error")
  end.
Proof.
  intros Hreq Ht Htruthy Hprompt Hkey Hgen Hflat Hlease n.
  assert (Hpost : CsvEndpoint.POST E JSON_parse env
                  = match CsvEndpoint.csvContent E (Json.get body (js "fileName"))
                            (Json.get body (js "leaseType"))
                            (extractObligations JSON_parse text),
                          CsvEndpoint.download_name (Json.get body (js "fileName")) with
                    | Some csv, Some name => JsonCsv csv name n
                    | _, _ => JsonError 500 (js "Internal server error")
                    end).
  { unfold CsvEndpoint.POST. rewrite Hreq.
    destruct body; try discriminate Ht.
    by rewrite Ht, Htruthy, Hkey, Hprompt, Hgen. }
  assert (Hgood : forall name,
            (forall v, Json.get body (js "fileName") = Some v -> scalar v = true) ->
            CsvEndpoint.download_name (Json.get body (js "fileName")) = Some name ->
            exported (CsvEndpoint.POST E JSON_parse env) name n).
  { intros name Hscalar Hname.
    destruct (flat_records_content E _ _ _ Hflat Hscalar Hlease) as [csv Hcsv].
    destruct (endpoint_content_written E _ _ _ csv Hcsv) as (texts & Hw & Hlen & Hten).
    exists csv, texts. rewrite Hpost, Hcsv, Hname. split; [done|]. split; [|done].
    rewrite Hw. by apply table_reads_back. }
  destruct (Json.get body (js "fileName")) as [[| | | | |]|] eqn:Hname;
    try (apply Hgood; [by intros ? [= <-]|reflexivity]);
    try (rewrite Hpost; cbn [CsvEndpoint.download_name];
         by destruct (CsvEndpoint.csvContent _ _ _ _)).
Qed.

(** A body whose [fileName] is a string, and the same body with the
    number 7 for it. *)
Lemma flat_records_are_exported_witness :
  exported (CsvEndpoint.POST CsvSamples.engine Json.parse
              (CsvSamples.sending (JString (js "lease.v2.pdf"))))
    (js "lease.v2-technical-obligations.csv") 1
  /\ CsvEndpoint.POST CsvSamples.engine Json.parse (CsvSamples.sending (JNumber (js "7")))
     = JsonError 500 (js "Internal server error").
Proof.
  assert (H : extractObligations Json.parse CsvSamples.rent_answer = [CsvSamples.rent])
    by (by vm_compute).
  split.
  - refine (eq_ind _ (fun l => exported _ _ (length l)) _ _ H).
    apply (flat_records_are_exported Json.parse CsvSamples.engine
             (CsvSamples.sending (JString (js "lease.v2.pdf")))
             (CsvSamples.body (JString (js "lease.v2.pdf")))
             (JString (js "The lessee pays rent, quarterly."))
             (js "The lessee pays rent, quarterly.") CsvSamples.rent_answer);
      try reflexivity.
    + rewrite H. repeat constructor.
    + intros v Hv. vm_compute in Hv. by injection Hv as <-.
  - apply (flat_records_are_exported Json.parse CsvSamples.engine
             (CsvSamples.sending (JNumber (js "7")))
             (CsvSamples.body (JNumber (js "7")))
             (JString (js "The lessee pays rent, quarterly."))
             (js "The lessee pays rent, quarterly.") CsvSamples.rent_answer);
      try reflexivity.
    + rewrite H. repeat constructor.
    + intros v Hv. vm_compute in Hv. by injection Hv as <-.
Defined.

Lemma sample_renders text : renders CsvSamples.engine (CsvSamples.answering text).
Proof.
  intros req obligations. simpl.
  destruct (render CsvSamples.engine req obligations); [done|by eexists].
Qed.

(** X5.  When the obligations array holds a [null] (the model answered
    [[null]], say), reading its [party] throws, and the endpoint answers
    with status 500 and [Internal server error] instead of a CSV. *)
Theorem null_obligation_fails_export JSON_parse E env req t text :
  renders E env ->
  request_json env = Returned req ->
  humanReadableText req = Some t -> t <> [] ->
  GEMINI_API_KEY env = true ->
  generateContent env (OBLIGATIONS_EXTRACTION_PROMPT ++ t) = Returned text ->
  JNull ∈ extractObligations JSON_parse text ->
  POST JSON_parse env = JsonError 500 (js "Internal server error").
Proof.
  intros Hrender Hreq Ht Hnil Hkey Hgen Hnull.
  specialize (Hrender req (extractObligations JSON_parse text)).
  unfold render, csvContent in Hrender.
  rewrite (csvRows_null E req _ 0 Hnull) in Hrender. simpl in Hrender.
  destruct Hrender as [e He].
  unfold POST. rewrite Hreq, Ht. destruct t as [|ch t]; [done|].
  rewrite Hkey. cbn [negb]. by rewrite Hgen, He.
Qed.

Lemma null_obligation_fails_export_witness :
  extractObligations Json.parse (js "[null]") = [JNull]
  /\ POST Json.parse (CsvSamples.answering (js "[null]"))
     = JsonError 500 (js "Internal server error").
Proof.
  assert (H : extractObligations Json.parse (js "[null]") = [JNull]) by (by vm_compute).
  split; [exact H|].
  apply (null_obligation_fails_export Json.parse CsvSamples.engine
           (CsvSamples.answering (js "[null]")) CsvSamples.request
           (js "The lessee pays rent, quarterly.") (js "[null]")).
  - apply sample_renders.
  - reflexivity.
  - reflexivity.
  - done.
  - reflexivity.
  - reflexivity.
  - rewrite H. apply list_elem_of_here.
Defined.

Lemma extension_chars ext :
  forallb extension_char ext = true <-> (chr "/" ∉ ext) /\ (chr "." ∉ ext).
Proof.
  induction ext as [|c ext IH]; simpl.
  - split; [intros _; split; apply not_elem_of_nil|done].
  - rewrite andb_true_iff, IH. unfold extension_char.
    rewrite andb_true_iff, !negb_true_iff, !N.eqb_neq, !not_elem_of_cons.
    split.
    + intros [[H1 H2] [H3 H4]]. repeat split; auto.
    + intros [[H1 H3] [H2 H4]]. repeat split; auto.
Qed.

Lemma strip_extension_no_dot name :
  chr "." ∉ name -> strip_extension name = name.
Proof.
  induction name as [|c name IH]; [done|].
  intros Hn. apply not_elem_of_cons in Hn as [Hc Hname]. cbn [strip_extension].
  destruct (N.eqb c (chr ".")) eqn:E; [apply N.eqb_eq in E; congruence|].
  cbn [andb]. f_equal. by apply IH.
Qed.

Lemma strip_extension_last_dot base ext :
  chr "." ∉ ext ->
  strip_extension (base ++ chr "." :: ext)
  = if bool_decide (ext <> []) && bool_decide (chr "/" ∉ ext)
    then base else base ++ chr "." :: ext.
Proof.
  intros Hext. induction base as [|c base IH].
  - cbn [app strip_extension]. rewrite N.eqb_refl, (strip_extension_no_dot ext Hext).
    destruct ext as [|e ext]; [done|].
    rewrite (bool_decide_eq_false_2 (e :: ext = [])) by done.
    rewrite (bool_decide_eq_true_2 (e :: ext <> [])) by done.
    cbn [negb andb].
    destruct (forallb extension_char (e :: ext)) eqn:Hall.
    + apply extension_chars in Hall as [Hs _]. by rewrite bool_decide_eq_true_2.
    + rewrite bool_decide_eq_false_2; [done|].
      intros Hs. apply not_true_iff_false in Hall. apply Hall.
      by apply extension_chars.
  - cbn [app strip_extension].
    assert (Hall : forallb extension_char (base ++ chr "." :: ext) = false).
    { apply not_true_iff_false. rewrite extension_chars. intros [_ Hd].
      apply Hd. apply elem_of_app. right. apply list_elem_of_here. }
    rewrite Hall, andb_false_r, IH.
    by destruct (bool_decide (ext <> []) && bool_decide (chr "/" ∉ ext)).
Qed.

(** X6.  The download name drops one extension: a name is cut at its last
    dot when at least one character follows that dot and no slash does,
    and is left as it is otherwise (no dot, a dot at the very end, a
    slash after the last dot); only the last extension goes.  The
    endpoint falls back on [document] when nothing is left or no name was
    sent. *)
Theorem extension_is_cut_at_last_dot base ext :
  chr "." ∉ ext ->
  strip_extension (base ++ chr "." :: ext)
  = (if bool_decide (ext <> []) && bool_decide (chr "/" ∉ ext)
     then base else base ++ chr "." :: ext)
  /\ (forall name, chr "." ∉ name -> strip_extension name = name)
  /\ (forall req,
        fileName req = Some (base ++ chr "." :: ext) ->
        ext <> [] -> chr "/" ∉ ext ->
        download_name req = or_str base (js "document") ++ js "-technical-obligations.csv")
  /\ (forall req,
        fileName req = None ->
        download_name req = js "document-technical-obligations.csv").
Proof.
  intros Hext. split; [by apply strip_extension_last_dot|].
  split; [apply strip_extension_no_dot|]. split.
  - intros req Hname Hne Hs. unfold download_name. rewrite Hname. simpl.
    rewrite strip_extension_last_dot by done.
    by rewrite !bool_decide_eq_true_2.
  - intros req Hname. unfold download_name. by rewrite Hname.
Qed.

Lemma extension_is_cut_at_last_dot_witness :
  strip_extension (js "lease.v2.pdf") = js "lease.v2"
  /\ strip_extension (js "a.b/c") = js "a.b/c".
Proof.
  destruct (extension_is_cut_at_last_dot (js "lease.v2") (js "pdf")) as (H1 & _).
  { apply (bool_decide_unpack _). by vm_compute. }
  destruct (extension_is_cut_at_last_dot (js "a") (js "b/c")) as (H2 & _).
  { apply (bool_decide_unpack _). by vm_compute. }
  split; [exact H1|exact H2].
Defined.

Lemma formatCSVField_cell v : CsvUtils.formatCSVField v = escape (cell v).
Proof. by destruct v. Qed.

Lemma convert_header csvHeaders :
  map (fun h => CsvUtils.formatCSVField (CsvUtils.VString h)) csvHeaders
  = map escape csvHeaders.
Proof. apply map_ext. intros h. apply formatCSVField_cell. Qed.

Lemma convert_lines csvHeaders data :
  map (fun row => join [comma]
                    (map (fun header => CsvUtils.formatCSVField (CsvUtils.get row header))
                       csvHeaders)) data
  = map (fun r => join [comma] (map escape r))
      (map (fun row => map (fun header => cell (CsvUtils.get row header)) csvHeaders) data).
Proof.
  rewrite map_map. apply map_ext. intros row. rewrite map_map.
  f_equal. apply map_ext. intros h. apply formatCSVField_cell.
Qed.

(** X7.  [convertToCSV] on at least one record and at least one column
    writes a text that is read back as the header row followed by one
    row per record, each cell the [String] text of the record's value
    under that header; [null] and [undefined] both read back as the
    empty text.  The columns are the given headers, or the keys of the
    first record.  This holds for a reader that takes the line feed as
    the line break, and for one that takes CR LF as well when no header
    and no cell holds a carriage return.  There is one exception: with a
    single column, a last record whose cell is empty, [null] or
    [undefined] is lost, its line being empty.  Without records the
    result is the empty text. *)
Theorem convertToCSV_reads_back lb first rest headers :
  let csvHeaders :=
    match headers with Some h => h | None => CsvUtils.Object_keys first end in
  let table :=
    csvHeaders
    :: map (fun row => map (fun header => cell (CsvUtils.get row header)) csvHeaders)
         (first :: rest) in
  csvHeaders <> [] ->
  lb = LineFeed \/ Forall (Forall (fun field => carriage_return ∉ field)) table ->
  (last table <> Some [[]] ->
   records_with lb (CsvUtils.convertToCSV (Some (first :: rest)) headers) = table)
  /\ (last table = Some [[]] ->
      length csvHeaders = 1
      /\ records_with lb (CsvUtils.convertToCSV (Some (first :: rest)) headers)
         = removelast table)
  /\ CsvUtils.convertToCSV (Some []) headers = []
  /\ CsvUtils.convertToCSV None headers = [].
Proof.
  intros csvHeaders table Hne Hcr.
  assert (Hrows : Forall (fun row : list (list N) => row <> []) table).
  { constructor; [done|]. apply Forall_forall. intros r Hr.
    apply list_elem_of_fmap in Hr as (row & -> & _). by destruct csvHeaders. }
  assert (Hread : records_with lb (CsvUtils.convertToCSV (Some (first :: rest)) headers)
                  = readable table).
  { unfold CsvUtils.convertToCSV. fold csvHeaders.
    rewrite convert_header, convert_lines.
    change (records_with lb (written table) = readable table).
    apply read_written; [done|by apply cr_free_rows]. }
  split; [|split; [|done]].
  - intros Hlast. by rewrite Hread, readable_all.
  - intros Hlast. split; [|by rewrite Hread, readable_but_last].
    apply last_Some in Hlast as [l' Hl].
    assert (Hin : [[]] ∈ table) by (rewrite Hl; apply elem_of_app; right; apply list_elem_of_here).
    apply elem_of_cons in Hin as [Hh | Hin].
    + by rewrite <- Hh.
    + apply list_elem_of_fmap in Hin as (row & Hrow & _).
      apply (f_equal length) in Hrow. by rewrite length_map in Hrow.
Qed.

Lemma convertToCSV_reads_back_witness :
  records_with CrLfOrLf
    (CsvUtils.convertToCSV
       (Some [CsvSamples.table_row (js "Smith, J.") ((js "said " ++ [dquote] ++ js "no" ++ [dquote])) (js "3");
              CsvSamples.table_row (js "Lee") [] (js "0")]) None)
  = [[js "name"; js "note"; js "count"];
     [js "Smith, J."; (js "said " ++ [dquote] ++ js "no" ++ [dquote]); js "3"];
     [js "Lee"; []; js "0"]].
Proof.
  destruct (convertToCSV_reads_back CrLfOrLf
           (CsvSamples.table_row (js "Smith, J.") ((js "said " ++ [dquote] ++ js "no" ++ [dquote])) (js "3"))
           [CsvSamples.table_row (js "Lee") [] (js "0")] None) as [H _].
  - done.
  - right. repeat (constructor; [repeat (constructor;
      [apply (bool_decide_unpack _); by vm_compute|]); constructor|]). constructor.
  - apply H. by vm_compute.
Defined.

End CsvFacts.
(** ** The traces of the upload handler *)

Module UploadTraceFacts.
Import Upload UploadSpec UploadTrace UploadFacts.
Local Open Scope handler_scope.

#[local] Arguments ProgressChannel.publish : simpl never.
#[local] Arguments js : simpl never.
#[local] Arguments decimal : simpl never.

Section Rules.
Context (env : Env) (w0 : World).

Lemma triple_bind {A B} P (m : M A) (k : A -> M B) Q1 Q X :
  triple P m Q1 X -> (forall a, triple (Q1 a) (k a) Q X) -> triple P (bind m k) Q X.
Proof.
  intros Hm Hk w Hw. unfold bind. specialize (Hm w Hw).
  destruct (m w) as [[a|r|e] w1]; [by apply Hk|done|done].
Qed.

Lemma triple_ret {A} (P : World -> Prop) (a : A) (Q : A -> World -> Prop) X :
  (forall w, P w -> Q a w) -> triple P (ret a) Q X.
Proof. intros H w Hw. by apply H. Qed.

Lemma triple_weaken {A} (P P' : World -> Prop) (m : M A) Q X :
  (forall w, P' w -> P w) -> triple P m Q X -> triple P' m Q X.
Proof. intros H Hm w Hw. by apply Hm, H. Qed.

Lemma triple_post {A} (P : World -> Prop) (m : M A) (Q Q' : A -> World -> Prop) X :
  (forall a w, Q a w -> Q' a w) -> triple P m Q X -> triple P m Q' X.
Proof.
  intros H Hm w Hw. specialize (Hm w Hw).
  destruct (m w) as [[a|r|e] w1]; [by apply H|done|done].
Qed.

Lemma triple_pure {A} (phi : Prop) (P : World -> Prop) (m : M A) Q X :
  (phi -> triple P m Q X) -> triple (fun w => phi /\ P w) m Q X.
Proof. intros H w [Hphi Hw]. by apply H. Qed.

(** The invariant under the steps of the world. *)

Lemma stamped_widen k k1 k2 evs :
  k1 <= k2 -> stamped env k k1 evs -> stamped env k k2 evs.
Proof.
  intros Hle (ks & Hts & Hs & Hr). exists ks. split; [done|]. split; [done|].
  eapply Forall_impl; [exact Hr|]. simpl. lia.
Qed.

Lemma stamped_nil k : stamped env k k [].
Proof. exists []. split; [done|]. split; constructor. Qed.

Lemma StronglySorted_snoc (ks : list nat) n :
  StronglySorted lt ks -> Forall (fun i => i < n) ks -> StronglySorted lt (ks ++ [n]).
Proof.
  induction 1 as [|k ks Hs IH Hk]; intros Hlt; simpl.
  - constructor; constructor.
  - apply Forall_cons in Hlt as [Hkn Hlt]. constructor; [by apply IH|].
    apply Forall_app. split; [done|]. by constructor.
Qed.

Lemma stamped_snoc k n evs ev :
  k <= n -> timestamp ev = clock env n ->
  stamped env k n evs -> stamped env k (S n) (evs ++ [ev]).
Proof.
  intros Hkn Hev (ks & Hts & Hs & Hr). exists (ks ++ [n]).
  rewrite !map_app, Hts. simpl. rewrite Hev. split; [done|]. split.
  - apply StronglySorted_snoc; [done|]. eapply Forall_impl; [exact Hr|]. simpl. lia.
  - apply Forall_app. split.
    + eapply Forall_impl; [exact Hr|]. simpl. lia.
    + constructor; [lia|constructor].
Qed.

Lemma Inv_advance osid st w : Inv env w0 osid st w -> Inv env w0 osid st (advance w).
Proof.
  intros (Hs & Hr & Hc). split; [|split; [simpl; lia|exact Hc]].
  destruct osid as [sid|]; [|exact Hs].
  destruct Hs as (Hch & Ho & evs & Hq & Hst). split; [done|]. split; [exact Ho|].
  exists evs. split; [exact Hq|]. simpl. eapply stamped_widen; [|exact Hst]. lia.
Qed.

Lemma Inv_choose sid st w :
  chosen env sid -> Inv env w0 None st w -> Inv env w0 (Some sid) st w.
Proof.
  intros Hch (Hs & Hr & Hc). split; [|by split]. simpl in Hs.
  split; [done|]. split; [by rewrite Hs|]. exists []. rewrite Hs, app_nil_r.
  split; [done|]. eapply stamped_widen; [exact Hr|]. apply stamped_nil.
Qed.

Lemma Inv_call osid st st' c w :
  after st c = Some st' -> Inv env w0 osid st w ->
  Inv env w0 osid st'
    {| progressStore := progressStore w; reads := reads w; calls := calls w ++ [c] |}.
Proof.
  intros Hafter (Hs & Hr & cs & Hc & Hst). split; [|split; [exact Hr|]].
  - destruct osid; exact Hs.
  - exists (cs ++ [c]). simpl. rewrite Hc, app_assoc. split; [done|].
    clear Hc. revert Hst. generalize Fresh. induction cs as [|x cs IH]; intros s; simpl.
    + intros [= ->]. by rewrite Hafter.
    + destruct (after s x); [apply IH|done].
Qed.

Lemma Inv_publish sid st w ev :
  timestamp ev = clock env (reads w) ->
  Inv env w0 (Some sid) st w ->
  Inv env w0 (Some sid) st
    {| progressStore := ProgressChannel.publish sid ev (progressStore (advance w));
       reads := reads (advance w); calls := calls (advance w) |}.
Proof.
  intros Hev ((Hch & Ho & evs & Hq & Hst) & Hr & Hc).
  split; [|split; [simpl; lia|exact Hc]]. split; [done|]. split.
  - intros s Hs. simpl. rewrite ProgressChannelFacts.publish_lookup_ne by done. by apply Ho.
  - exists (evs ++ [ev]). simpl. rewrite ProgressChannelFacts.queue_publish, Hq, app_assoc.
    split; [done|]. by apply stamped_snoc.
Qed.


(** The statements of the handler. *)

Local Abbreviation I := (Inv env w0).
Local Abbreviation chosen_generated :=
  (fun sid => exists t, sid = js "upload-" ++ decimal t ++ js "-" ++ random_suffix env).
Local Abbreviation X := (leaves env w0).

Lemma triple_now osid st : triple (I osid st) (now env) (fun _ => I osid st) X.
Proof. intros w Hw. exact (Inv_advance osid st w Hw). Qed.

Lemma triple_call osid st st' c :
  after st c = Some st' -> triple (I osid st) (call c) (fun _ => I osid st') X.
Proof. intros Hc w Hw. exact (Inv_call osid st st' c w Hc Hw). Qed.

Lemma triple_emitProgress sid st s stt d :
  triple (I (Some sid) st) (emitProgress env sid s stt d) (fun _ => I (Some sid) st) X.
Proof.
  intros w Hw.
  exact (Inv_publish sid st w
           {| step := s; status := stt; details := d; timestamp := clock env (reads w) |}
           eq_refl Hw).
Qed.



Lemma triple_logProgress osid st s d sid :
  may_emit osid sid ->
  triple (I osid st) (logProgress env s d sid) (fun _ => I osid st) X.
Proof.
  intros Hsid. unfold logProgress. eapply triple_bind; [apply triple_now|].
  intros ?. cbv beta. destruct sid as [|c sid]; simpl.
  - by apply triple_ret.
  - destruct Hsid as [?| ->]; [done|]. apply triple_emitProgress.
Qed.

Lemma triple_logProgressCompleted osid st s d sid :
  may_emit osid sid ->
  triple (I osid st) (logProgressCompleted env s d sid) (fun _ => I osid st) X.
Proof.
  intros Hsid. unfold logProgressCompleted. eapply triple_bind; [apply triple_now|].
  intros ?. cbv beta. destruct sid as [|c sid]; simpl.
  - by apply triple_ret.
  - destruct Hsid as [?| ->]; [done|]. apply triple_emitProgress.
Qed.

Lemma triple_handleError osid st e c :
  triple (I osid st) (handleError env e c) (fun _ => I osid st) X.
Proof.
  unfold handleError. eapply triple_bind; [apply triple_now|].
  intros t. cbv beta. by apply triple_ret.
Qed.

Lemma triple_fail {A} osid st e c status (Q : A -> World -> Prop) :
  triple (I osid st) (fail env e c status) Q X.
Proof.
  intros w Hw. split; [done|]. exists osid, st. exact (Inv_advance osid st w Hw).
Qed.

Lemma triple_throw {A} osid st e (Q : A -> World -> Prop) :
  triple (I osid st) (throw e) Q X.
Proof. intros w Hw. split; [done|]. by exists osid, st. Qed.

Lemma triple_when_emit osid st sid s stt d :
  may_emit osid sid ->
  triple (I osid st) (when (truthy sid) (emitProgress env sid s stt d))
    (fun _ => I osid st) X.
Proof.
  intros Hsid. destruct sid as [|ch sid]; simpl.
  - by apply triple_ret.
  - destruct Hsid as [?| ->]; [done|]. apply triple_emitProgress.
Qed.

Lemma triple_report osid st sid e c s :
  may_emit osid sid ->
  triple (I osid st)
    (when (truthy sid)
       (info <- handleError env e c ;;
        emitProgress env sid s error (ErrorDetails info)))
    (fun _ => I osid st) X.
Proof.
  intros Hsid. destruct sid as [|ch sid]; simpl.
  - by apply triple_ret.
  - destruct Hsid as [?| ->]; [done|].
    eapply triple_bind; [apply triple_handleError|]. intros info. cbv beta.
    apply triple_emitProgress.
Qed.

Lemma triple_validate osid st file :
  triple (I osid st) (validate env file) (fun _ => I osid st) X.
Proof.
  unfold validate.
  destruct file as [[[|c s]|f]|]; try apply triple_fail.
  destruct (negb _); [apply triple_fail|].
  destruct (_ <? _)%N; [apply triple_fail|]. by apply triple_ret.
Qed.

Lemma triple_extract sid buf f :
  triple (I (Some sid) Stored) (extract env sid buf f)
    (fun _ => I (Some sid) Extracted) X.
Proof.
  unfold extract. eapply triple_bind; [eapply triple_call; simpl; reflexivity|]. intros ?. cbv beta.
  destruct (extract_text env) as [txt|e].
  - eapply triple_bind; [apply triple_logProgressCompleted; by right|].
    intros ?. cbv beta. by apply triple_ret.
  - eapply triple_bind; [apply triple_handleError|]. intros info. cbv beta.
    eapply triple_bind; [apply triple_when_emit; by right|].
    intros ?. cbv beta. by apply triple_ret.
Qed.


Lemma triple_ret_same {A} (P : World -> Prop) (a : A) :
  triple P (ret a) (fun _ => P) X.
Proof. by apply triple_ret. Qed.

Lemma triple_or {A} (P1 P2 : World -> Prop) (m : M A) Q :
  triple P1 m Q X -> triple P2 m Q X -> triple (fun w => P1 w \/ P2 w) m Q X.
Proof. intros H1 H2 w [Hw|Hw]; [by apply H1|by apply H2]. Qed.

Lemma triple_await_form st :
  triple (I None st) (await (formData env))
    (fun form w => formData env = Returned form /\ I None st w) X.
Proof.
  destruct (formData env) as [form|e]; simpl.
  - by apply triple_ret.
  - apply triple_throw.
Qed.

Lemma triple_choose form st :
  formData env = Returned form ->
  triple (I None st)
    (match get_sessionId form with
     | Some (c :: s) => ret (c :: s)
     | _ => t <- now env ;;
            ret (js "upload-" ++ decimal t ++ js "-" ++ random_suffix env)
     end)
    (fun sid w => I (Some sid) st w) X.
Proof.
  intros Hform.
  assert (Hgen : triple (I None st)
                   (t <- now env ;;
                    ret (js "upload-" ++ decimal t ++ js "-" ++ random_suffix env))
                   (fun sid w => chosen_generated sid /\ I None st w) X).
  { eapply triple_bind; [apply triple_now|]. intros t. cbv beta.
    apply triple_ret. intros w Hw. split; [by exists t|done]. }
  destruct (get_sessionId form) as [[|c s]|] eqn:Hsid.
  - eapply triple_post; [|exact Hgen]. intros sid w [[t ->] Hw].
    apply Inv_choose; [|done]. exists form. split; [done|]. rewrite Hsid. by exists t.
  - apply triple_ret. intros w Hw. apply Inv_choose; [|done].
    exists form. split; [done|]. by rewrite Hsid.
  - eapply triple_post; [|exact Hgen]. intros sid w [[t ->] Hw].
    apply Inv_choose; [|done]. exists form. split; [done|]. rewrite Hsid. by exists t.
Qed.

Ltac step tac := eapply triple_bind; [tac|intros ?; cbv beta].
Ltac log := first [apply triple_logProgress | apply triple_logProgressCompleted];
            first [by left | by right].

Lemma triple_prepare :
  triple (I None Fresh) (prepare env)
    (fun c w => I (Some (sessionId c)) Extracted w) X.
Proof.
  unfold prepare. cbv zeta.
  step ltac:(destruct (negb (GEMINI_API_KEY env)); [apply triple_fail|apply triple_ret_same]).
  step log.
  step ltac:(destruct (getUser env); [apply triple_fail|apply triple_fail|apply triple_ret_same]).
  step log.
  step ltac:(apply triple_await_form).
  apply triple_pure. intros Hform.
  step ltac:(by apply triple_choose).
  step log. step log.
  step ltac:(apply triple_validate).
  step log.
  step ltac:(destruct (arrayBuffer _);
             [apply triple_ret_same
             |eapply triple_bind; [apply triple_report; by right|intros ?; apply triple_fail]]).
  step ltac:(apply triple_now).
  step log. step log.
  step ltac:(eapply triple_call; simpl; reflexivity).
  step ltac:(destruct (storage_upload env);
             [eapply triple_bind; [apply triple_report; by right|intros ?; apply triple_fail]
             |apply triple_ret_same]).
  step log. step log.
  step ltac:(apply triple_extract).
  by apply triple_ret.
Qed.


(** The analysis loop makes analysis calls only. *)
Local Abbreviation J sid := (fun w => I (Some sid) Extracted w \/ I (Some sid) Analysing w).

Lemma triple_analyze_mode sid lt text mode k res :
  triple (J sid) (analyze_mode env sid lt text mode k res) (fun _ => J sid) X.
Proof.
  assert (Hst : forall st, st = Extracted \/ st = Analysing ->
            triple (I (Some sid) st) (analyze_mode env sid lt text mode k res)
              (fun _ => J sid) X).
  { intros st Hcases.
    assert (Hinto : forall w, I (Some sid) st w -> J sid w).
    { intros w Hw. destruct Hcases as [-> | ->]; [by left|by right]. }
    assert (Hcall : forall c, triple (I (Some sid) st) (call (Analyze c))
                                (fun _ => I (Some sid) Analysing) X).
    { intros c. eapply triple_call. by destruct Hcases as [-> | ->]. }
    unfold analyze_mode. destruct (lookup_prompt mode).
    - step log. step ltac:(apply Hcall).
      destruct (analyze env k).
      + step log. apply triple_ret. intros w Hw. by right.
      + step ltac:(apply triple_handleError).
        step ltac:(apply triple_when_emit; by right).
        step log. apply triple_ret. intros w Hw. by right.
    - step log. step ltac:(apply Hcall).
      destruct (analyze env k).
      + step log. apply triple_ret. intros w Hw. by right.
      + step ltac:(apply triple_handleError).
        step ltac:(apply triple_when_emit; by right).
        step log. apply triple_ret. intros w Hw. by right.
    - step log. by apply triple_ret. }
  apply triple_or; apply Hst; [by left|by right].
Qed.

Lemma triple_analyze_modes sid lt text modes : forall k res,
  triple (J sid) (analyze_modes env sid lt text modes k res) (fun _ => J sid) X.
Proof.
  induction modes as [|mode modes IH]; intros k res; simpl.
  - apply triple_ret_same.
  - step ltac:(apply triple_analyze_mode). apply IH.
Qed.

Lemma triple_finish c :
  triple (I (Some (sessionId c)) Extracted) (finish env c)
    (fun r w => is_success r = true /\ I (Some (sessionId c)) Saved w) X.
Proof.
  unfold finish.
  step log.
  step ltac:(destruct (insufficient _); [apply triple_fail|apply triple_ret_same]).
  eapply triple_bind.
  { eapply triple_weaken; [|apply triple_analyze_modes]. intros w Hw. by left. }
  intros analysisResults. cbv beta.
  eapply triple_bind with (Q1 := fun _ => J (sessionId c)).
  { apply triple_or.
    - eapply triple_post; [|log]. intros ? w Hw. left. exact Hw.
    - eapply triple_post; [|log]. intros ? w Hw. right. exact Hw. }
  intros ?. cbv beta.
  eapply triple_bind.
  { apply triple_or; eapply triple_call; simpl; reflexivity. }
  intros ?. cbv beta.
  step ltac:(destruct (db_insert env); [apply triple_fail|apply triple_ret_same]).
  step log.
  by apply triple_ret.
Qed.

Lemma triple_body :
  triple (I None Fresh) (body env)
    (fun r w => is_success r = true /\ exists sid, I (Some sid) Saved w) X.
Proof.
  unfold body. step ltac:(apply triple_prepare).
  eapply triple_post; [|apply triple_finish].
  intros r w [Hr Hw]. split; [done|]. by eexists.
Qed.

End Rules.

Lemma Inv_start env w0 : Inv env w0 None Fresh w0.
Proof.
  split; [done|]. split; [done|]. exists []. by rewrite app_nil_r.
Qed.

Lemma POST_inv env w0 :
  exists osid st,
    Inv env w0 osid st (snd (POST env w0))
    /\ (is_success (fst (POST env w0)) = true -> st = Saved /\ is_Some osid).
Proof.
  pose proof (triple_body env w0 w0 (Inv_start env w0)) as H.
  unfold POST. destruct (body env w0) as [[r|r|e] w1]; simpl.
  - destruct H as (Hr & sid & Hw). exists (Some sid), Saved. split; [done|]. by eauto.
  - destruct H as (Hr & osid & st & Hw). exists osid, st. split; [done|]. congruence.
  - destruct H as (_ & osid & st & Hw). exists osid, st. split; [|done].
    by apply Inv_advance.
Qed.



(** X8.  Whatever happens to an upload request, it changes the progress
    store in one way only: it appends events to the queue of a single
    session, and leaves the queue of every other session exactly as it
    was.  That session is the one whose id the client sent in the form,
    when it sent one. *)
Theorem upload_touches_one_session env w :
  exists sid,
    (forall s, s <> sid ->
       progressStore (snd (POST env w)) !! s = progressStore w !! s)
    /\ (exists evs,
          ProgressChannel.queue sid (progressStore (snd (POST env w)))
          = ProgressChannel.queue sid (progressStore w) ++ evs)
    /\ (forall form c s,
          formData env = Returned form -> get_sessionId form = Some (c :: s) ->
          sid = c :: s).
Proof.
  destruct (POST_inv env w) as ([sid|] & st & (Hstore & _) & _).
  - destruct Hstore as ((form & Hform & Hsid) & Hothers & evs & Hq & _).
    exists sid. split; [exact Hothers|]. split; [by exists evs|].
    intros form' c s Hform' Hget. rewrite Hform in Hform'. injection Hform' as <-.
    by rewrite Hget in Hsid.
  - simpl in Hstore.
    exists (match formData env with
            | Returned form => default [] (get_sessionId form)
            | Threw _ => []
            end).
    rewrite Hstore. split; [done|]. split; [exists []; by rewrite app_nil_r|].
    intros form c s -> Hget. by rewrite Hget.
Qed.

Lemma sorted_readings env ks :
  (forall i j, i <= j -> (clock env i <= clock env j)%N) ->
  StronglySorted lt ks -> StronglySorted N.le (map (clock env) ks).
Proof.
  intros Hmono. induction 1 as [|k ks Hs IH Hk]; simpl; constructor; [done|].
  apply Forall_map. eapply Forall_impl; [exact Hk|]. simpl. intros j Hj. apply Hmono. lia.
Qed.

(** X9.  When the clock does not run backwards, the events an upload
    request appends to its session's queue carry time stamps in
    non-decreasing order, none earlier than the clock showed when the
    request started: the order of the queue is the order in time. *)
Theorem upload_events_are_chronological env w :
  (forall i j, i <= j -> (clock env i <= clock env j)%N) ->
  exists sid evs,
    ProgressChannel.queue sid (progressStore (snd (POST env w)))
    = ProgressChannel.queue sid (progressStore w) ++ evs
    /\ (forall s, s <> sid ->
          progressStore (snd (POST env w)) !! s = progressStore w !! s)
    /\ StronglySorted N.le (map timestamp evs)
    /\ Forall (fun ev => (clock env (reads w) <= timestamp ev)%N) evs.
Proof.
  intros Hmono.
  destruct (POST_inv env w) as ([sid|] & st & (Hstore & _) & _).
  - destruct Hstore as (_ & Hothers & evs & Hq & ks & Hts & Hsorted & Hrange).
    exists sid, evs. split; [exact Hq|]. split; [exact Hothers|]. split.
    + rewrite Hts. by apply sorted_readings.
    + apply Forall_map. change (Forall (fun t => (clock env (reads w) <= t)%N) (map timestamp evs)).
      rewrite Hts. apply Forall_map. eapply Forall_impl; [exact Hrange|].
      simpl. intros i [Hi _]. by apply Hmono.
  - simpl in Hstore. exists [], []. rewrite Hstore, app_nil_r.
    split; [done|]. split; [done|]. split; constructor.
Qed.

(** X10.  The external calls of an upload request always come in the
    order of the pipeline: the storage upload first, then the text
    extraction, then analysis calls, then the insert, each stage at most
    once except the analyses and none without the one before.  A success
    response is sent only after the insert. *)
Theorem upload_calls_are_in_order env w :
  exists st,
    stage Fresh (new_calls w (snd (POST env w))) = Some st
    /\ (is_success (fst (POST env w)) = true -> st = Saved).
Proof.
  destruct (POST_inv env w) as (osid & st & (_ & _ & cs & Hcalls & Hstage) & Hok).
  exists st. split.
  - unfold new_calls. by rewrite Hcalls, drop_app_length.
  - intros H. by apply Hok.
Qed.

#[local] Arguments substring : simpl never.
#[local] Arguments contextualPrompt : simpl never.
#[local] Arguments lookup_prompt : simpl never.
#[local] Arguments obj_set : simpl never.
#[local] Arguments error_info : simpl never.
#[local] Arguments insufficient : simpl never.

(** X11.  A success response means what it says: the user was signed
    in, the file was a PDF of at most 50 MB, the storage upload
    succeeded, the extracted text passed the content gate, the insert
    succeeded, and the insert was the last external call: it was given
    the row built from the request (the user, the file's name, type and
    size, the storage path, the extracted text, the lease type, the
    requested modes) with, as its analysis results, exactly the analysis
    of the response.  Nothing is said about the [file] of the response,
    which is the database's answer. *)
Theorem success_means_stored env w f analysis sid :
  fst (POST env w) = JsonOk f analysis sid ->
  exists c,
    fst (prepare env w) = Next c
    /\ getUser env = User (user c)
    /\ file_type (file c) = js "application/pdf"
    /\ (file_size (file c) <= maxSize)%N
    /\ storage_upload env = Uploaded (uploadPath c)
    /\ insufficient (extractedText c) = false
    /\ (exists i, db_insert env = Inserted i)
    /\ sid = sessionId c
    /\ last (calls (snd (POST env w))) = Some (DbInsert (file_row c analysis)).
Proof.
  intros Hok.
  pose proof (triple_prepare env w w (Inv_start env w)) as Hprep.
  destruct (prepare env w) as [[c|r|e] w1] eqn:Hp.
  - exists c. split; [done|].
    assert (Hc : fst (prepare env w) = Next c) by (by rewrite Hp).
    destruct (prepare_scope env w c Hc)
      as (form & _ & Huser & _ & _ & Htype & Hsize & Hup & _).
    split; [done|]. split; [done|]. split; [done|]. split; [done|].
    destruct (insufficient (extractedText c)) eqn:Hgate.
    + destruct (POST_insufficient env w c Hc Hgate) as (t & Hr & _).
      rewrite Hr in Hok. discriminate Hok.
    + split; [done|].
      destruct (POST_sufficient env w c Hc Hgate) as (ts & _ & Hcalls & Hresp).
      cbv zeta in Hcalls, Hresp.
      destruct (db_insert env) as [err|i].
      * destruct Hresp as [t Hr]. rewrite Hr in Hok. discriminate Hok.
      * rewrite Hresp in Hok. injection Hok as Hf Ha Hs. subst f analysis sid.
        split; [by exists i|]. split; [done|].
        unfold new_calls in Hcalls.
        rewrite <- (take_drop (length (calls (snd (prepare env w))))
                     (calls (snd (POST env w)))).
        rewrite Hcalls, !app_assoc. apply last_snoc.
  - exfalso. unfold POST, body, bind in Hok. rewrite Hp in Hok. simpl in Hok, Hprep.
    destruct Hprep as [Hr _]. by rewrite Hok in Hr.
  - exfalso. unfold POST, body, bind in Hok. by rewrite Hp in Hok.
Qed.

(** X12.  A request without a signed-in user is answered with status
    401 in the context [User Authentication], and has no effect: no
    external call is made and the progress store is untouched. *)
Theorem unauthenticated_upload_has_no_effect env w :
  GEMINI_API_KEY env = true ->
  (forall id, getUser env <> User id) ->
  exists info,
    fst (POST env w) = JsonError 401 info
    /\ error_context info = js "User Authentication"
    /\ calls (snd (POST env w)) = calls w
    /\ progressStore (snd (POST env w)) = progressStore w.
Proof.
  intros Hkey Huser.
  assert (Hp : exists info w',
             prepare env w = (Return (JsonError 401 info), w')
             /\ error_context info = js "User Authentication"
             /\ calls w' = calls w /\ progressStore w' = progressStore w).
  { unfold prepare. rewrite Hkey. cbn [negb].
    destruct (getUser env) as [e| |id] eqn:Hu.
    - run_handler. eexists _, _. repeat split; reflexivity.
    - run_handler. eexists _, _. repeat split; reflexivity.
    - by destruct (Huser id). }
  destruct Hp as (info & w' & Hp & Hctx & Hcalls & Hstore).
  exists info. unfold POST, body, bind. rewrite Hp. by cbn [fst snd].
Qed.

Lemma unauthenticated_upload_has_no_effect_witness :
  exists info,
    fst (POST UploadTraceSamples.signed_out UploadTraceSamples.world) = JsonError 401 info
    /\ error_message info = js "No authenticated user found"
    /\ calls (snd (POST UploadTraceSamples.signed_out UploadTraceSamples.world)) = [].
Proof.
  destruct (unauthenticated_upload_has_no_effect
              UploadTraceSamples.signed_out UploadTraceSamples.world)
    as (info & Hr & _ & Hcalls & _).
  - reflexivity.
  - intros id H. discriminate H.
  - exists info. split; [exact Hr|]. split; [|exact Hcalls].
    assert (H : fst (POST UploadTraceSamples.signed_out UploadTraceSamples.world)
                = JsonError 401 (error_info 1001 (ErrorObject (js "No authenticated user found"))
                                   (js "User Authentication"))) by (by vm_compute).
    rewrite H in Hr. by injection Hr as <-.
Defined.

Lemma upload_events_are_chronological_witness :
  exists sid evs,
    ProgressChannel.queue sid
      (progressStore (snd (POST UploadTraceSamples.good_upload UploadTraceSamples.world)))
    = evs
    /\ StronglySorted N.le (map timestamp evs).
Proof.
  destruct (upload_events_are_chronological
              UploadTraceSamples.good_upload UploadTraceSamples.world)
    as (sid & evs & Hq & _ & Hsorted & _).
  - intros i j Hij. simpl. lia.
  - exists sid, evs. split; [|exact Hsorted].
    rewrite Hq. unfold ProgressChannel.queue at 1. simpl. by rewrite lookup_empty.
Defined.

Lemma success_means_stored_witness :
  exists f analysis c,
    fst (POST UploadTraceSamples.good_upload UploadTraceSamples.world)
    = JsonOk f analysis (js "s1")
    /\ fst (prepare UploadTraceSamples.good_upload UploadTraceSamples.world) = Next c
    /\ last (calls (snd (POST UploadTraceSamples.good_upload UploadTraceSamples.world)))
       = Some (DbInsert (file_row c analysis))
    /\ Object_keys analysis = [js "standard"; js "renewal"].
Proof.
  destruct (fst (POST UploadTraceSamples.good_upload UploadTraceSamples.world))
    as [? ?|?|f analysis sid] eqn:Hr; try (by vm_compute in Hr).
  destruct (success_means_stored _ _ _ _ _ Hr)
    as (c & Hc & _ & _ & _ & _ & _ & _ & _ & Hlast).
  exists f, analysis, c. vm_compute in Hr. injection Hr as <- <- <-.
  split; [reflexivity|]. split; [exact Hc|]. split; [exact Hlast|reflexivity].
Defined.

End UploadTraceFacts.
(** ** The event stream *)

Module ProgressStreamFacts.
Import ProgressChannel ProgressStream ProgressChannelFacts.

Lemma updates_app a b : updates (a ++ b) = updates a ++ updates b.
Proof. unfold updates. apply flat_map_app. Qed.

Lemma updates_map_Update evs : updates (map Update evs) = evs.
Proof. induction evs as [|e evs IH]; simpl; [done|]. by f_equal. Qed.

Lemma emitted_app s a b : emitted s (a ++ b) = emitted s a ++ emitted s b.
Proof. unfold emitted. apply flat_map_app. Qed.

(** What a connected stream has sent and what is pending, together. *)
Lemma happen_connected s h stream st :
  isConnected stream = true -> is_Abort h = false ->
  isConnected (fst (happen s h (stream, st))) = true
  /\ updates (enqueued (fst (happen s h (stream, st))))
     ++ queue s (snd (happen s h (stream, st)))
     = (updates (enqueued stream) ++ queue s st) ++ emitted s [h].
Proof.
  intros Hc Hh. destruct h as [t ev| |]; [| |done]; simpl.
  - split; [done|]. rewrite app_nil_r. case_bool_decide as Ht.
    + subst t. by rewrite queue_publish, app_assoc.
    + rewrite (queue_other t s st (publish t ev st)) by (by apply publish_lookup_ne).
      by rewrite app_nil_r.
  - rewrite Hc. simpl. rewrite app_nil_r.
    pose proof (drain_sends_queue s st) as Hsend.
    pose proof (drain_empties s st) as Hempty.
    destruct (drain s st) as [progress st']. simpl in *. split; [done|].
    rewrite updates_app, updates_map_Update, Hsend, Hempty. by rewrite app_nil_r.
Qed.

Lemma play_connected s hs : forall stream st,
  isConnected stream = true -> forallb (fun h => negb (is_Abort h)) hs = true ->
  isConnected (fst (play s hs (stream, st))) = true
  /\ updates (enqueued (fst (play s hs (stream, st))))
     ++ queue s (snd (play s hs (stream, st)))
     = (updates (enqueued stream) ++ queue s st) ++ emitted s hs.
Proof.
  induction hs as [|h hs IH]; intros stream st Hc Hhs.
  - split; [exact Hc|]. cbn [play foldl fst snd emitted flat_map]. by rewrite app_nil_r.
  - simpl in Hhs. apply andb_true_iff in Hhs as [Hh Hhs]. apply negb_true_iff in Hh.
    destruct (happen_connected s h stream st Hc Hh) as [Hc1 H1].
    change (play s (h :: hs) (stream, st)) with (play s hs (happen s h (stream, st))).
    destruct (happen s h (stream, st)) as [stream1 st1]. cbn [fst snd] in Hc1, H1.
    destruct (IH stream1 st1 Hc1 Hhs) as [Hc2 H2]. split; [done|].
    rewrite H2, H1. change (h :: hs) with ([h] ++ hs).
    by rewrite emitted_app, <- !app_assoc.
Qed.

(** X13.  While a stream is connected, whatever the interleaving of
    emitted events (to this or to other sessions) and interval ticks,
    what the stream has sent and what is still pending for its session
    are together exactly what was pending at the start followed by the
    events emitted to the session since, in order: no event is lost,
    repeated or reordered.  One more tick sends all of it and leaves the
    queue empty. *)
Theorem stream_delivers_each_event_once s hs st :
  forallb (fun h => negb (is_Abort h)) hs = true ->
  let c := play s hs (start s, st) in
  updates (enqueued (fst c)) ++ queue s (snd c) = queue s st ++ emitted s hs
  /\ updates (enqueued (fst (tick s c))) = queue s st ++ emitted s hs
  /\ queue s (snd (tick s c)) = [].
Proof.
  intros Hhs c.
  destruct (play_connected s hs (start s) st eq_refl Hhs) as [Hc H].
  fold c in Hc, H. split; [exact H|].
  destruct (play_connected s [Interval] (fst c) (snd c) Hc eq_refl) as [_ H2].
  rewrite <- surjective_pairing in H2.
  change (play s [Interval] c) with (tick s c) in H2.
  assert (Hempty : queue s (snd (tick s c)) = []).
  { destruct c as [stream st']. unfold tick. cbn [fst] in Hc. rewrite Hc. cbn [negb].
    pose proof (drain_empties s st') as He. by destruct (drain s st'). }
  split; [|exact Hempty].
  rewrite Hempty, app_nil_r in H2. rewrite H2, H.
  cbn [emitted flat_map]. by rewrite app_nil_r.
Qed.

Lemma happen_disconnected s h stream st :
  isConnected stream = false -> is_Abort h = false ->
  fst (happen s h (stream, st)) = stream
  /\ queue s (snd (happen s h (stream, st))) = queue s st ++ emitted s [h].
Proof.
  intros Hc Hh. destruct h as [t ev| |]; [| |done]; simpl.
  - split; [done|]. rewrite app_nil_r. case_bool_decide as Ht.
    + subst t. by rewrite queue_publish.
    + rewrite (queue_other t s st (publish t ev st)) by (by apply publish_lookup_ne).
      by rewrite app_nil_r.
  - rewrite Hc. simpl. by rewrite app_nil_r.
Qed.

Lemma play_disconnected s hs : forall stream st,
  isConnected stream = false -> forallb (fun h => negb (is_Abort h)) hs = true ->
  fst (play s hs (stream, st)) = stream
  /\ queue s (snd (play s hs (stream, st))) = queue s st ++ emitted s hs.
Proof.
  induction hs as [|h hs IH]; intros stream st Hc Hhs.
  - split; [done|]. cbn [play foldl fst snd emitted flat_map]. by rewrite app_nil_r.
  - simpl in Hhs. apply andb_true_iff in Hhs as [Hh Hhs]. apply negb_true_iff in Hh.
    destruct (happen_disconnected s h stream st Hc Hh) as [H1 H2].
    change (play s (h :: hs) (stream, st)) with (play s hs (happen s h (stream, st))).
    destruct (happen s h (stream, st)) as [stream1 st1]. cbn [fst snd] in H1, H2. subst stream1.
    destruct (IH stream st1 Hc Hhs) as [H3 H4]. split; [done|].
    rewrite H4, H2. change (h :: hs) with ([h] ++ hs).
    by rewrite emitted_app, <- !app_assoc.
Qed.

(** X14.  Once the client has gone away nothing more is sent on the
    stream: its messages are those sent before the abort, however many
    events and ticks follow.  The events pending at the abort are
    dropped with the queue, and the events emitted to the session
    afterwards stay in the store, where this stream never collects
    them. *)
Theorem nothing_is_sent_after_abort s before later st :
  forallb (fun h => negb (is_Abort h)) later = true ->
  let c := play s before (start s, st) in
  let c' := play s (before ++ Abort :: later) (start s, st) in
  enqueued (fst c') = enqueued (fst c)
  /\ isConnected (fst c') = false /\ closed (fst c') = true
  /\ queue s (snd c') = emitted s later.
Proof.
  intros Hlater c c'.
  assert (Hc' : c' = play s later (abort s c)).
  { subst c' c. unfold play. by rewrite foldl_app. }
  rewrite Hc'. destruct c as [stream st1]. unfold abort.
  set (stream1 := {| isConnected := false; closed := true; enqueued := enqueued stream |}).
  destruct (play_disconnected s later stream1 (dispose s st1) eq_refl Hlater) as [H1 H2].
  rewrite H1, H2. split; [done|]. split; [done|]. split; [done|].
  unfold queue at 1, dispose. by rewrite lookup_delete_eq.
Qed.

Lemma stream_delivers_each_event_once_witness :
  updates (enqueued (fst (tick (js "s1") (play (js "s1") sample_run (start (js "s1"), ∅)))))
  = [ev "Parsing form data..." 1; ev "Uploading to storage..." 3;
     ev "Extracting text with Gemini..." 4].
Proof.
  destruct (stream_delivers_each_event_once (js "s1") sample_run ∅) as (_ & H & _).
  - reflexivity.
  - rewrite H. by vm_compute.
Defined.

Lemma nothing_is_sent_after_abort_witness :
  enqueued (fst (play (js "s1")
                   (sample_run ++ Abort :: [Emit (js "s1") (ev "Starting analysis..." 5); Interval])
                   (start (js "s1"), ∅)))
  = [Connected (js "s1"); Update (ev "Parsing form data..." 1);
     Update (ev "Uploading to storage..." 3)].
Proof.
  destruct (nothing_is_sent_after_abort (js "s1") sample_run
              [Emit (js "s1") (ev "Starting analysis..." 5); Interval] ∅) as (H & _).
  - reflexivity.
  - rewrite H. by vm_compute.
Defined.

End ProgressStreamFacts.
(** ** The rows of the chat route *)

Module ChatRouteFacts.
Import Chat ChatSpec.

Section WithModel.
Context (generateContent : list N -> Outcome (list N)).
Context (document_prompt : list N -> FileRow -> Outcome (list N)).
Context (project_prompt : list N -> list FileRow -> Outcome (list N)).

Local Abbreviation POST := (Chat.POST generateContent document_prompt project_prompt).
Local Abbreviation converse := (Chat.converse generateContent document_prompt project_prompt).

Lemma converse_rows env req msg target :
  match converse env req msg target with
  | (JsonOk reply sid ct, rows) =>
      rows = [ {| session_id := sid; content := msg; role := user |};
               {| session_id := sid; content := reply; role := assistant |} ]
      /\ ct = match target with OneFile _ => document | Project _ => project end
      /\ insert_user_message env = true /\ insert_assistant_message env = true
  | (JsonError status _, rows) =>
      status = 500%N
      /\ (rows = []
          \/ exists sid, rows = [ {| session_id := sid; content := msg; role := user |} ])
  end.
Proof.
  unfold Chat.converse.
  destruct (match nonempty (sessionId req) with Some s => Some s | None => insert_session env end)
    as [sid|]; [|by split; [|left]].
  destruct (insert_user_message env); cbn [negb]; [|by split; [|left]].
  destruct (match target with
            | OneFile fileData => chatWithDocument generateContent document_prompt msg fileData
            | Project projectFiles => chatWithProject generateContent project_prompt msg projectFiles
            end) as [reply|e].
  - destruct (insert_assistant_message env); cbn [negb].
    + done.
    + split; [done|]. right. by exists sid.
  - split; [done|]. right. by exists sid.
Qed.

(** X15.  The rows a chat request adds to [chat_messages] follow from
    its response.  A success response means exactly two rows in the
    session it names: the user's message, then the assistant's reply as
    sent.  An error response means no row at all, or, for a status-500
    failure after the user's message was saved, that message alone; no
    reply is ever stored without being sent.  The chat type is
    [document] exactly when the request named a file, also when it named
    a project as well. *)
Theorem chat_messages_follow_the_response env :
  match POST env with
  | (JsonOk reply sid ct, rows) =>
      exists req msg,
        request_json env = Returned req
        /\ nonempty (message req) = Some msg
        /\ rows = [ {| session_id := sid; content := msg; role := user |};
                    {| session_id := sid; content := reply; role := assistant |} ]
        /\ (ct = document <-> is_Some (nonempty (fileId req)))
  | (JsonError status _, rows) =>
      rows = []
      \/ (status = 500%N
          /\ exists sid msg, rows = [ {| session_id := sid; content := msg; role := user |} ])
  end.
Proof.
  unfold Chat.POST.
  destruct (getUser env); [|by left].
  destruct (GEMINI_API_KEY env); cbn [negb]; [|by left].
  destruct (request_json env) as [req|e]; [|by left].
  destruct (nonempty (message req)) as [msg|] eqn:Hmsg; [|by left].
  assert (Hconv : forall target,
            (match target with OneFile _ => True | Project _ => nonempty (fileId req) = None end) ->
            (match target with OneFile _ => is_Some (nonempty (fileId req)) | _ => True end) ->
            match converse env req msg target with
            | (JsonOk reply sid ct, rows) =>
                exists req0 msg0,
                  Returned req = Returned req0
                  /\ nonempty (message req0) = Some msg0
                  /\ rows = [ {| session_id := sid; content := msg0; role := user |};
                              {| session_id := sid; content := reply; role := assistant |} ]
                  /\ (ct = document <-> is_Some (nonempty (fileId req0)))
            | (JsonError status _, rows) =>
                rows = []
                \/ (status = 500%N
                    /\ exists sid msg, rows = [ {| session_id := sid; content := msg; role := user |} ])
            end).
  { intros target Hp Hf. pose proof (converse_rows env req msg target) as H.
    destruct (converse env req msg target) as [[status err|reply sid ct] rows].
    - destruct H as [-> [->|[sid ->]]]; [by left|]. right. split; [done|]. by exists sid, msg.
    - destruct H as (-> & -> & _). exists req, msg. split; [done|]. split; [done|].
      split; [done|]. destruct target; [done|]. rewrite Hp. split; [done|].
      intros [x Hx]. discriminate Hx. }
  unfold resolve_target.
  destruct (nonempty (fileId req)) as [fid|] eqn:Hfid.
  - destruct (select_file env) as [data|]; [|by left]. by apply Hconv.
  - destruct (nonempty (projectId req)) as [pid|]; [|by left].
    destruct (match fileIds req with Some ids => Some ids | None => select_session_file_ids env end)
      as [ids|]; [|by left].
    destruct (select_project_files env ids) as [data|]; [|by left]. by apply Hconv.
Qed.
End WithModel.

End ChatRouteFacts.
(** ** The pages *)

Module PagesFacts.
Import Upload UploadSpec UploadFacts CsvExport UploadPage.

Lemma toggle_spec modeId prev :
  NoDup prev ->
  NoDup (handleModeToggle modeId prev)
  /\ (modeId ∈ handleModeToggle modeId prev <-> modeId ∉ prev)
  /\ (forall id, id <> modeId -> id ∈ handleModeToggle modeId prev <-> id ∈ prev).
Proof.
  intros Hnd. unfold handleModeToggle. case_bool_decide as Hin.
  - split; [by apply NoDup_filter|]. split.
    + rewrite list_elem_of_filter. split; [by intros [? _]|done].
    + intros id Hid. rewrite list_elem_of_filter. split; [by intros [_ ?]|done].
  - split.
    + apply NoDup_app. split; [done|]. split; [|apply NoDup_singleton].
      intros x Hx Hx'. apply list_elem_of_singleton in Hx'. by subst x.
    + split.
      * split; [done|]. intros _. apply elem_of_app. right. apply list_elem_of_here.
      * intros id Hid. rewrite elem_of_app, list_elem_of_singleton. split; [|by left].
        by intros [?|?].
Qed.

(** X16.  Whatever the series of clicks on the mode cards, the selection
    never holds a mode twice; a click flips the clicked mode (it is
    selected afterwards exactly when it was not before) and leaves every
    other mode as it was. *)
Theorem selection_never_repeats_a_mode clicks :
  NoDup (toggled clicks)
  /\ forall modeId,
       NoDup (handleModeToggle modeId (toggled clicks))
       /\ (modeId ∈ handleModeToggle modeId (toggled clicks) <-> modeId ∉ toggled clicks)
       /\ (forall id, id <> modeId ->
             id ∈ handleModeToggle modeId (toggled clicks) <-> id ∈ toggled clicks).
Proof.
  assert (Hnd : NoDup (toggled clicks)).
  { unfold toggled.
    assert (H0 : NoDup initial_modes) by (apply (bool_decide_unpack _); by vm_compute).
    revert H0. generalize initial_modes.
    induction clicks as [|c clicks IH]; intros l Hl; simpl; [done|].
    apply IH. by apply toggle_spec. }
  split; [exact Hnd|]. intros modeId. by apply toggle_spec.
Qed.

Lemma split_on_absent c s : c ∉ s -> split_on c s = [s].
Proof.
  induction s as [|x s IH]; [done|]. intros Hc.
  apply not_elem_of_cons in Hc as [Hx Hs]. simpl.
  rewrite (proj2 (N.eqb_neq x c)) by congruence. by rewrite (IH Hs).
Qed.

Lemma split_on_app c a b :
  c ∉ a -> split_on c (a ++ c :: b) = a :: split_on c b.
Proof.
  induction a as [|x a IH]; intros Hc; simpl.
  - by rewrite N.eqb_refl.
  - apply not_elem_of_cons in Hc as [Hx Ha].
    rewrite (proj2 (N.eqb_neq x c)) by congruence. by rewrite (IH Ha).
Qed.

Lemma split_join c l :
  l <> [] -> Forall (fun x => c ∉ x) l -> split_on c (join [c] l) = l.
Proof.
  induction l as [|x l IH]; [done|]. intros _ Hall.
  apply Forall_cons in Hall as [Hx Hl]. destruct l as [|y l].
  - simpl. by apply split_on_absent.
  - change (join [c] (x :: y :: l)) with (x ++ c :: join [c] (y :: l)).
    rewrite split_on_app by done. by rewrite IH.
Qed.

Lemma join_nil_inv c (l : list (list N)) :
  join [c] l = [] -> l = [] \/ l = [[]].
Proof.
  destruct l as [|x [|y l]]; simpl; [by left| |].
  - intros ->. by right.
  - intros H. apply app_eq_nil in H as [_ H]. discriminate H.
Qed.

(** X17.  The modes the upload page sends reach the handler unchanged:
    when the form field is the page's comma-joined selection and no mode
    id holds a comma, the handler's list of requested modes is the
    selection itself, in the same order.  An empty selection, which the
    page sends as the empty string, is analysed in [standard] mode. *)
Theorem selected_modes_reach_the_server env w c form selectedModes :
  formData env = Returned form ->
  get_analysisModes form = Some (analysisModes_field selectedModes) ->
  Forall (fun mode => comma ∉ mode) selectedModes ->
  fst (prepare env w) = Next c ->
  analysisModes c
  = match selectedModes with
    | [] | [[]] => [js "standard"]
    | _ => selectedModes
    end.
Proof.
  intros Hform Hfield Hall Hc.
  destruct (prepare_scope env w c Hc) as (form' & _ & _ & Hform' & _ & _ & _ & _ & _ & Hmodes & _).
  rewrite Hform in Hform'. injection Hform' as <-.
  rewrite Hmodes, Hfield. unfold analysisModes_field.
  destruct (join [comma] selectedModes) as [|ch j] eqn:Hj.
  - apply join_nil_inv in Hj as [-> | ->]; by vm_compute.
  - cbn [opt_or_str or_str]. rewrite <- Hj.
    change (chr ",") with comma.
    rewrite split_join; [|by intros ->|done].
    destruct selectedModes as [|[|] [|]]; try done.
Qed.

Lemma filter_other_after {A} index i (prev : list A) :
  index < i -> filter_other index i prev = prev.
Proof.
  revert i. induction prev as [|x prev IH]; intros i Hi; simpl; [done|].
  rewrite (proj2 (Nat.eqb_neq i index)) by lia. by rewrite IH by lia.
Qed.

Lemma filter_other_spec {A} (prev : list A) : forall index i,
  i <= index ->
  filter_other index i prev = take (index - i) prev ++ drop (S (index - i)) prev.
Proof.
  induction prev as [|x prev IH]; intros index i Hi; cbn [filter_other].
  - by rewrite take_nil, drop_nil.
  - destruct (Nat.eqb i index) eqn:E.
    + apply Nat.eqb_eq in E. subst i. rewrite Nat.sub_diag. simpl.
      rewrite drop_0. apply filter_other_after. lia.
    + apply Nat.eqb_neq in E. rewrite IH by lia.
      replace (index - i) with (S (index - S i)) by lia. done.
Qed.

(** X18.  [removeFile(index)] removes the file at that position and no
    other: the files before it keep their positions, the files after it
    move up by one, and an index past the end changes nothing. *)
Theorem removeFile_removes_one_position {A} (index : nat) (prev : list A) :
  removeFile index prev = take index prev ++ drop (S index) prev
  /\ (forall i, i < index -> removeFile index prev !! i = prev !! i)
  /\ (forall i, index <= i -> removeFile index prev !! i = prev !! S i)
  /\ (length prev <= index -> removeFile index prev = prev).
Proof.
  assert (H : removeFile index prev = take index prev ++ drop (S index) prev).
  { unfold removeFile. rewrite filter_other_spec by lia. by rewrite Nat.sub_0_r. }
  split; [exact H|]. split; [|split].
  - intros i Hi. rewrite H. destruct (decide (index <= length prev)).
    + rewrite lookup_app_l by (rewrite length_take; lia). by apply lookup_take_lt.
    + rewrite take_ge, drop_ge, app_nil_r by lia. done.
  - intros i Hi. rewrite H. destruct (decide (index <= length prev)).
    + rewrite lookup_app_r by (rewrite length_take; lia).
      rewrite length_take, lookup_drop. f_equal. lia.
    + rewrite take_ge, drop_ge, app_nil_r by lia.
      rewrite !lookup_ge_None_2 by lia. done.
  - intros Hlen. rewrite H. by rewrite take_ge, drop_ge, app_nil_r by lia.
Qed.

(** X19.  [truncateMessage] never returns more than [maxLength + 3]
    characters: a message that fits is returned as it is, a longer one
    is cut to its first [maxLength] characters followed by three dots;
    a missing message ([null] or [undefined]) and the empty message
    give the empty text. *)
Theorem truncated_message_is_bounded message maxLength :
  (0 <= maxLength)%Z ->
  (Z.of_nat (length (ChatHistoryPage.truncateMessage message maxLength)) <= maxLength + 3)%Z
  /\ (forall m, message = Some m -> (Z.of_nat (length m) <= maxLength)%Z ->
        ChatHistoryPage.truncateMessage message maxLength = m)
  /\ (forall m, message = Some m -> (maxLength < Z.of_nat (length m))%Z ->
        ChatHistoryPage.truncateMessage message maxLength
        = take (Z.to_nat maxLength) m ++ js "...")
  /\ (message = None \/ message = Some [] ->
        ChatHistoryPage.truncateMessage message maxLength = []).
Proof.
  intros Hmax. unfold ChatHistoryPage.truncateMessage.
  split; [|split; [|split; [|by intros [-> | ->]]]].
  - destruct message as [[|c m]|]; simpl length; try lia.
    destruct (maxLength <? Z.of_nat (S (length m)))%Z eqn:E.
    + rewrite substring_take by done. rewrite length_app, length_take.
      apply Z.ltb_lt in E. change (length (js "...")) with 3. simpl length in *. lia.
    + apply Z.ltb_ge in E. simpl length. lia.
  - intros m -> Hm. destruct m as [|c m]; [done|].
    by rewrite (proj2 (Z.ltb_ge _ _)) by done.
  - intros m -> Hm. destruct m as [|c m]; [simpl in Hm; lia|].
    rewrite (proj2 (Z.ltb_lt _ _)) by done. by rewrite substring_take.
Qed.

Lemma selected_modes_reach_the_server_witness :
  exists c,
    fst (prepare UploadTraceSamples.good_upload UploadTraceSamples.world) = Next c
    /\ analysisModes c = [js "standard"; js "renewal"].
Proof.
  destruct (fst (prepare UploadTraceSamples.good_upload UploadTraceSamples.world))
    as [c|r|e] eqn:Hc; try (by vm_compute in Hc).
  exists c. split; [done|].
  apply (selected_modes_reach_the_server UploadTraceSamples.good_upload
           UploadTraceSamples.world c UploadTraceSamples.form
           [js "standard"; js "renewal"]).
  - reflexivity.
  - reflexivity.
  - repeat constructor; apply (bool_decide_unpack _); by vm_compute.
  - exact Hc.
Defined.

Lemma truncated_message_is_bounded_witness :
  ChatHistoryPage.truncateMessage (Some (js "When does the lease end?")) 8
  = js "When doe..."
  /\ ChatHistoryPage.truncateMessage None 8 = [].
Proof.
  split.
  - destruct (truncated_message_is_bounded (Some (js "When does the lease end?")) 8)
      as (_ & _ & H & _).
    + lia.
    + rewrite (H (js "When does the lease end?") eq_refl); [by vm_compute|].
      by vm_compute.
  - destruct (truncated_message_is_bounded None 8) as (_ & _ & _ & H).
    + lia.
    + apply H. by left.
Defined.

End PagesFacts.
(** ** The cleaning step *)

Module CleaningFacts.
Import Obligations ObligationsSpec ObligationsFacts CleaningSpec.

(** A character other than a backtick starts no fence and is kept. *)
Lemma strip_keeps pat c s :
  c <> backtick -> head pat = Some backtick ->
  strip pat None (c :: s) = c :: strip pat None s.
Proof.
  intros Hc Hpat. destruct pat as [|p pat]; [done|]. injection Hpat as ->.
  cbn [strip Json.starts_with].
  by rewrite (proj2 (N.eqb_neq backtick c)) by congruence.
Qed.

Lemma strip_scan pat c s :
  strip pat None (c :: s)
  = if Json.starts_with pat (c :: s)
    then strip pat (Some (length pat - 1)) s
    else c :: strip pat None s.
Proof. reflexivity. Qed.

Lemma starts_with_fence_cons c s :
  Json.starts_with fence (c :: s) = N.eqb 96 c && Json.starts_with [96; 96]%N s.
Proof. reflexivity. Qed.

(** The output of the fence stripper starts with two backticks only when
    its input does. *)
Lemma strip_two_backticks s :
  Json.starts_with [96; 96]%N s = false ->
  Json.starts_with [96; 96]%N (strip fence None s) = false.
Proof.
  destruct s as [|x s]; [done|].
  destruct (N.eqb 96 x) eqn:Ex.
  - apply N.eqb_eq in Ex. subst x. intros H.
    destruct s as [|y s]; [done|].
    assert (Ey : N.eqb 96 y = false).
    { destruct (N.eqb 96 y) eqn:E; [|done].
      cbn [Json.starts_with] in H. by rewrite N.eqb_refl, E in H. }
    assert (Hy : y <> backtick).
    { intros ->. by rewrite N.eqb_refl in Ey. }
    assert (Hnot : Json.starts_with fence (96%N :: y :: s) = false).
    { rewrite starts_with_fence_cons. cbn [Json.starts_with].
      by rewrite Ey, andb_false_r. }
    rewrite strip_scan, Hnot.
    rewrite (strip_keeps fence y s Hy eq_refl).
    cbn [Json.starts_with]. by rewrite Ey, andb_false_r.
  - intros _.
    assert (Hx : x <> backtick).
    { intros ->. by rewrite N.eqb_refl in Ex. }
    rewrite (strip_keeps fence x s Hx eq_refl).
    cbn [Json.starts_with]. by rewrite Ex.
Qed.

Lemma strip_fence_free s : forall st, includes fence (strip fence st s) = false.
Proof.
  induction s as [|c s IH]; intros st; [by destruct st as [[|n]|]|].
  assert (Hscan : includes fence
                    (if Json.starts_with fence (c :: s)
                     then strip fence (Some (length fence - 1)) s
                     else c :: strip fence None s) = false).
  { destruct (Json.starts_with fence (c :: s)) eqn:Hs; [apply IH|].
    cbn [includes]. rewrite IH, orb_false_r.
    rewrite starts_with_fence_cons in Hs |- *.
    destruct (N.eqb 96 c); [|done]. simpl in Hs |- *.
    by apply strip_two_backticks. }
  destruct st as [[|n]|]; cbn [strip].
  - destruct (N.eqb c 10); [apply IH|exact Hscan].
  - apply IH.
  - exact Hscan.
Qed.

Lemma includes_app_false p a b :
  includes p (a ++ b) = false -> includes p b = false.
Proof. apply includes_suffix. Qed.

Lemma starts_with_take p : forall s n,
  Json.starts_with p (take n s) = true -> Json.starts_with p s = true.
Proof.
  induction p as [|x p IH]; intros s n; [done|].
  destruct s as [|c s]; [by rewrite take_nil|].
  destruct n as [|n]; [done|]. simpl.
  intros H. apply andb_true_iff in H as [H1 H2]. rewrite H1. simpl. by eapply IH.
Qed.

Lemma includes_take p : forall s n,
  includes p s = false -> includes p (take n s) = false.
Proof.
  induction s as [|c s IH]; intros n H.
  - by rewrite take_nil.
  - destruct n as [|n].
    + simpl. simpl in H. apply orb_false_iff in H as [H _].
      destruct p; [done|done].
    + cbn [take includes]. cbn [includes] in H. apply orb_false_iff in H as [H1 H2].
      rewrite (IH n H2), orb_false_r.
      apply not_true_iff_false. intros Hs. apply not_true_iff_false in H1. apply H1.
      by apply (starts_with_take p (c :: s) (S n)).
Qed.

Lemma includes_drop p s n : includes p s = false -> includes p (drop n s) = false.
Proof.
  intros H. rewrite <- (take_drop n s) in H. by apply includes_suffix in H.
Qed.

Lemma trimStart_drop s : exists n, trimStart s = drop n s.
Proof.
  induction s as [|c s [n IH]]; [by exists 0|]. simpl.
  destruct (is_js_space c); [by exists (S n)|by exists 0].
Qed.

Lemma trimEnd_take s : exists n, trimEnd s = take n s.
Proof.
  unfold trimEnd. destruct (trimStart_drop (rev s)) as [n ->].
  exists (length s - n). by rewrite skipn_rev, rev_involutive.
Qed.

Lemma trim_fence_free s : includes fence s = false -> includes fence (trim s) = false.
Proof.
  intros H. unfold trim.
  destruct (trimEnd_take (trimStart s)) as [n ->].
  destruct (trimStart_drop s) as [m ->].
  by apply includes_take, includes_drop.
Qed.

Lemma substring_fence_free s a b :
  includes fence s = false -> includes fence (substring s a b) = false.
Proof. intros H. unfold substring. cbv zeta. by apply includes_take, includes_drop. Qed.

(** X20.  The text the cleaning step hands to [JSON.parse] never holds
    a triple backtick, whatever the model answered: the second
    replacement leaves none, in whatever state it starts, and trimming
    and cutting at the brackets bring none back. *)
Theorem cleaned_text_holds_no_fence text :
  includes fence (clean text) = false
  /\ forall st, includes fence (strip fence st text) = false.
Proof.
  split; [|apply strip_fence_free].
  unfold clean. cbv zeta.
  assert (H : includes fence (trim (strip_fences (strip_json_fences text))) = false).
  { apply trim_fence_free. apply strip_fence_free. }
  destruct (_ && _); [by apply substring_fence_free|exact H].
Qed.

(** *** Cleaning twice *)

Lemma strip_identity r t :
  includes fence t = false -> strip (fence ++ r) None t = t.
Proof.
  intros H. rewrite <- (app_nil_r t) at 1.
  rewrite strip_no_match; [by rewrite app_nil_r|].
  intros a b -> Hb. rewrite app_nil_r.
  apply includes_suffix, includes_head in H.
  apply not_true_iff_false. intros Hs. apply not_true_iff_false in H. apply H.
  by apply (starts_with_app fence r).
Qed.

Lemma trimStart_idem s : trimStart (trimStart s) = trimStart s.
Proof.
  induction s as [|c s IH]; [done|]. simpl.
  destruct (is_js_space c) eqn:E; [exact IH|]. simpl. by rewrite E.
Qed.

Lemma trimEnd_idem s : trimEnd (trimEnd s) = trimEnd s.
Proof. unfold trimEnd. by rewrite rev_involutive, trimStart_idem. Qed.

Lemma trimStart_length s : length (trimStart s) <= length s.
Proof. destruct (trimStart_drop s) as [n ->]. rewrite length_drop. lia. Qed.

Lemma trimStart_fixed_head c s :
  trimStart (c :: s) = c :: s -> is_js_space c = false.
Proof.
  simpl. destruct (is_js_space c); [|done]. intros H.
  pose proof (trimStart_length s) as Hl. rewrite H in Hl. simpl in Hl. lia.
Qed.

Lemma trimEnd_keeps_start x : trimStart x = x -> trimStart (trimEnd x) = trimEnd x.
Proof.
  destruct x as [|c x]; [done|]. intros Hx.
  pose proof (trimStart_fixed_head c x Hx) as Hc.
  unfold trimEnd. simpl rev.
  rewrite (trimStart_app_stop c [] (rev x) Hc), rev_app_distr. simpl.
  by rewrite Hc.
Qed.

Lemma trim_idem s : trim (trim s) = trim s.
Proof.
  unfold trim.
  rewrite (trimEnd_keeps_start (trimStart s) (trimStart_idem s)).
  apply trimEnd_idem.
Qed.

Lemma indexOf_split c : forall t,
  indexOf c t <> (-1)%Z ->
  exists a b, t = a ++ c :: b /\ (c ∉ a) /\ indexOf c t = Z.of_nat (length a).
Proof.
  induction t as [|x t IH]; [done|]. simpl.
  destruct (N.eqb x c) eqn:E.
  - apply N.eqb_eq in E. subst x. intros _. exists [], t.
    split; [done|]. split; [apply not_elem_of_nil|done].
  - destruct (indexOf c t =? -1)%Z eqn:Ei; [done|]. intros _.
    apply Z.eqb_neq in Ei. destruct (IH Ei) as (a & b & -> & Ha & Hi).
    exists (x :: a), b. split; [done|]. split.
    + apply not_elem_of_cons. split; [|done]. apply N.eqb_neq in E. congruence.
    + rewrite Hi. simpl length. lia.
Qed.

Lemma lastIndexOf_bound c t : (-1 <= lastIndexOf c t)%Z.
Proof.
  induction t as [|x t IH]; simpl; [lia|].
  destruct (lastIndexOf c t =? -1)%Z; [destruct (N.eqb x c); lia|lia].
Qed.

Lemma lastIndexOf_present c t : c ∈ t -> lastIndexOf c t <> (-1)%Z.
Proof.
  induction t as [|x t IH]; [by intros H; apply elem_of_nil in H|].
  intros Hin. simpl. pose proof (lastIndexOf_bound c t) as Hb.
  destruct (lastIndexOf c t =? -1)%Z eqn:Ei; [|lia].
  apply Z.eqb_eq in Ei. apply elem_of_cons in Hin as [->|Hin].
  - by rewrite N.eqb_refl.
  - by apply IH in Hin.
Qed.

Lemma lastIndexOf_split c : forall t,
  lastIndexOf c t <> (-1)%Z ->
  exists a b, t = a ++ c :: b /\ (c ∉ b) /\ lastIndexOf c t = Z.of_nat (length a).
Proof.
  induction t as [|x t IH]; [done|]. simpl.
  destruct (lastIndexOf c t =? -1)%Z eqn:Ei.
  - destruct (N.eqb x c) eqn:E; [|done]. intros _.
    apply N.eqb_eq in E. subst x. apply Z.eqb_eq in Ei.
    exists [], t. split; [done|]. split; [|done].
    intros Hin. by apply lastIndexOf_present in Hin.
  - intros _. apply Z.eqb_neq in Ei. destruct (IH Ei) as (a & b & -> & Hb & Hi).
    exists (x :: a), b. split; [done|]. split; [done|]. rewrite Hi. simpl length. lia.
Qed.

Lemma strip_fences_identity t :
  includes fence t = false -> strip_fences (strip_json_fences t) = t.
Proof.
  intros H. unfold strip_fences, strip_json_fences.
  rewrite (strip_identity (js "json") t H).
  exact (strip_identity [] t H).
Qed.

(** X21.  Cleaning is idempotent: cleaning a cleaned text changes
    nothing, so a text that went through the cleaning step of one route
    goes through that of the other unchanged. *)
Theorem cleaning_is_idempotent text : clean (clean text) = clean text.
Proof.
  set (t := trim (strip_fences (strip_json_fences text))).
  assert (Hct : clean text
                = if negb (indexOf (chr "[") t =? -1)%Z
                     && negb (lastIndexOf (chr "]") t =? -1)%Z
                     && (indexOf (chr "[") t <? lastIndexOf (chr "]") t)%Z
                  then substring t (indexOf (chr "[") t) (lastIndexOf (chr "]") t + 1)
                  else t) by reflexivity.
  rewrite Hct. clear Hct.
  assert (Hfree : includes fence t = false).
  { subst t. apply trim_fence_free, strip_fence_free. }
  assert (Htrim : trim t = t) by (subst t; apply trim_idem).
  destruct (negb (indexOf (chr "[") t =? -1)%Z
            && negb (lastIndexOf (chr "]") t =? -1)%Z
            && (indexOf (chr "[") t <? lastIndexOf (chr "]") t)%Z) eqn:Hcond.
  - apply andb_true_iff in Hcond as [Hcond Hlt].
    apply andb_true_iff in Hcond as [Hi Hj].
    apply negb_true_iff, Z.eqb_neq in Hi, Hj. apply Z.ltb_lt in Hlt.
    destruct (indexOf_split _ _ Hi) as (a & b & Ht & Ha & Hia).
    destruct (lastIndexOf_split _ _ Hj) as (a' & b' & Ht' & Hb' & Hja).
    rewrite Hia, Hja in *.
    assert (Hlen : length a < length a') by lia.
    set (m := take (length a' - length a - 1) b).
    assert (Ha' : a' = a ++ chr "[" :: m).
    { assert (H1 : a' = take (length a') t) by (by rewrite Ht', take_app_length).
      rewrite H1 at 1. rewrite Ht. rewrite take_app_ge by lia.
      replace (length a' - length a) with (S (length a' - length a - 1)) by lia.
      done. }
    assert (Hmid : t = a ++ (chr "[" :: m ++ [chr "]"]) ++ b').
    { rewrite Ht' at 1. rewrite Ha', <- !app_assoc. f_equal.
      cbn [app]. f_equal. by rewrite <- app_assoc. }
    assert (Hu : substring t (Z.of_nat (length a)) (Z.of_nat (length a') + 1)
                 = chr "[" :: m ++ [chr "]"]).
    { rewrite Hmid at 1.
      replace (Z.of_nat (length a') + 1)%Z
        with (Z.of_nat (length a + length (chr "[" :: m ++ [chr "]"]))).
      - apply substring_middle.
      - rewrite Ha'. rewrite !length_app. simpl length. rewrite !length_app. simpl length. lia. }
    rewrite Hu.
    assert (Hc : clean ([] ++ (chr "[" :: m ++ [chr "]"]) ++ [])
                 = chr "[" :: m ++ [chr "]"]).
    { apply clean_around.
      - split; apply not_elem_of_nil.
      - split; apply not_elem_of_nil.
      - split; [done|]. by rewrite app_comm_cons, last_snoc.
      - rewrite <- Hu. by apply substring_fence_free. }
    rewrite app_nil_r in Hc. exact Hc.
  - unfold clean. cbv zeta.
    rewrite (strip_fences_identity t Hfree), Htrim. by rewrite Hcond.
Qed.

End CleaningFacts.
(** ** The steps an upload announces *)

Module UploadStepsFacts.
Import Upload UploadSpec UploadTrace UploadFacts UploadTraceFacts.
Local Open Scope handler_scope.

#[local] Arguments ProgressChannel.publish : simpl never.
#[local] Arguments js : simpl never.
#[local] Arguments decimal : simpl never.

Lemma ret_same {A} (P : World -> Prop) (a : A) (E : Exit -> World -> Prop) :
  triple P (ret a) (fun _ => P) E.
Proof. by apply triple_ret. Qed.

Lemma bind_ret {A B} (P : World -> Prop) (a : A) (k : A -> M B) Q (E : Exit -> World -> Prop) :
  triple P (k a) Q E -> triple P (bind (ret a) k) Q E.
Proof. intros H w Hw. exact (H w Hw). Qed.

Lemma active_steps_app a b : active_steps (a ++ b) = active_steps a ++ active_steps b.
Proof. unfold active_steps. by rewrite List.filter_app, map_app. Qed.

Lemma steps_fail {A} env (P : World -> Prop) e c status (Q : A -> World -> Prop) :
  triple P (fail env e c status) Q failed.
Proof. by intros w Hw. Qed.

#[local] Set Default Proof Using "All".

(** A second walk through the handler, for a request whose form carries
    the session id [sid]: it keeps the list of the steps announced as
    [active] so far. *)
Section Steps.
Context (env : Env) (w0 : World) (sid : list N).
Hypothesis sid_truthy : truthy sid = true.

Local Abbreviation T := (announced sid w0).

Lemma announced_same L w w' :
  progressStore w' = progressStore w -> T L w -> T L w'.
Proof. intros Hs (evs & Hq & Ha). exists evs. by rewrite Hs. Qed.

Lemma steps_now L : triple (T L) (now env) (fun _ => T L) failed.
Proof. intros w Hw. by apply (announced_same L w). Qed.

Lemma steps_call L c : triple (T L) (call c) (fun _ => T L) failed.
Proof. intros w Hw. by apply (announced_same L w). Qed.

Lemma steps_emit L s stt d :
  triple (T L) (emitProgress env sid s stt d)
    (fun _ => T (L ++ match stt with active => [s] | _ => [] end)) failed.
Proof.
  intros w (evs & Hq & Ha).
  exists (evs ++ [{| step := s; status := stt; details := d;
                     timestamp := clock env (reads w) |}]).
  cbn [emitProgress bind now snd fst progressStore advance].
  rewrite ProgressChannelFacts.queue_publish, Hq, app_assoc.
  split; [done|]. rewrite active_steps_app, Ha. by destruct stt.
Qed.

Lemma steps_log L s d :
  triple (T L) (logProgress env s d sid) (fun _ => T (L ++ [s])) failed.
Proof.
  unfold logProgress. eapply triple_bind; [apply steps_now|]. intros ?. cbv beta.
  rewrite sid_truthy. apply steps_emit.
Qed.

Lemma steps_log_quiet L s d :
  triple (T L) (logProgress env s d []) (fun _ => T L) failed.
Proof.
  unfold logProgress. eapply triple_bind; [apply steps_now|]. intros ?. cbv beta.
  by apply triple_ret.
Qed.

Lemma steps_completed L s d :
  triple (T L) (logProgressCompleted env s d sid) (fun _ => T L) failed.
Proof.
  unfold logProgressCompleted. eapply triple_bind; [apply steps_now|]. intros ?. cbv beta.
  rewrite sid_truthy. eapply triple_post; [|apply steps_emit].
  intros ? w Hw. by rewrite app_nil_r in Hw.
Qed.

Lemma steps_handleError L e c :
  triple (T L) (handleError env e c) (fun _ => T L) failed.
Proof.
  unfold handleError. eapply triple_bind; [apply steps_now|]. intros t. cbv beta.
  by apply triple_ret.
Qed.

Lemma steps_error L s d :
  triple (T L) (when (truthy sid) (emitProgress env sid s error d)) (fun _ => T L) failed.
Proof.
  rewrite sid_truthy. eapply triple_post; [|apply steps_emit].
  intros ? w Hw. by rewrite app_nil_r in Hw.
Qed.

Lemma steps_validate L file :
  triple (T L) (validate env file) (fun _ => T L) failed.
Proof.
  unfold validate.
  destruct file as [[[|c s]|f]|]; try apply (steps_fail env).
  destruct (negb _); [apply (steps_fail env)|].
  destruct (_ <? _)%N; [apply (steps_fail env)|]. by apply triple_ret.
Qed.

Lemma steps_extract L buf f :
  triple (T L) (extract env sid buf f) (fun _ => T L) failed.
Proof.
  unfold extract. eapply triple_bind; [apply steps_call|]. intros ?. cbv beta.
  destruct (extract_text env) as [txt|e].
  - eapply triple_bind; [apply steps_completed|]. intros ?. cbv beta. by apply triple_ret.
  - eapply triple_bind; [apply steps_handleError|]. intros info. cbv beta.
    eapply triple_bind; [apply steps_error|]. intros ?. cbv beta. by apply triple_ret.
Qed.


Lemma steps_completed_quiet L s d :
  triple (T L) (logProgressCompleted env s d []) (fun _ => T L) failed.
Proof.
  unfold logProgressCompleted. eapply triple_bind; [apply steps_now|]. intros ?. cbv beta.
  by apply triple_ret.
Qed.

Lemma steps_report L e c s :
  triple (T L)
    (when (truthy sid)
       (info <- handleError env e c ;;
        emitProgress env sid s error (ErrorDetails info)))
    (fun _ => T L) failed.
Proof.
  rewrite sid_truthy. cbn [when].
  eapply triple_bind; [apply steps_handleError|]. intros info. cbv beta.
  eapply triple_post; [|apply steps_emit].
  intros ? w Hw. by rewrite app_nil_r in Hw.
Qed.

Context (form : FormData).
Hypothesis form_parsed : formData env = Returned form.
Hypothesis session_sent : get_sessionId form = Some sid.

Ltac step tac := eapply triple_bind; [tac|intros ?; cbv beta].

Lemma steps_prepare :
  triple (T []) (prepare env)
    (fun c w => sessionId c = sid
                /\ analysisModes c
                   = split_on (chr ",") (opt_or_str (get_analysisModes form) (js "standard"))
                /\ T [ js "Parsing form data..."; js "Converting file to buffer...";
                       js "Uploading to storage..."; js "Extracting text with Gemini..." ] w)
    failed.
Proof.
  unfold prepare. cbv zeta. rewrite form_parsed. cbn [await].
  step ltac:(destruct (negb (GEMINI_API_KEY env)); [apply (steps_fail env)|apply ret_same]).
  step ltac:(apply steps_log_quiet).
  step ltac:(destruct (getUser env); [apply (steps_fail env)|apply (steps_fail env)|apply ret_same]).
  step ltac:(apply steps_completed_quiet).
  apply bind_ret. rewrite session_sent.
  assert (Hs : exists c s, sid = c :: s).
  { pose proof sid_truthy as Ht. destruct sid; [done|by eexists _, _]. }
  destruct Hs as (ch & s & Hs). rewrite Hs. apply bind_ret. rewrite <- Hs. clear ch s Hs.
  step ltac:(apply steps_log).
  step ltac:(apply steps_completed).
  step ltac:(apply steps_validate).
  step ltac:(apply steps_log).
  step ltac:(destruct (arrayBuffer _);
             [apply ret_same|eapply triple_bind; [apply steps_report|intros ?; apply (steps_fail env)]]).
  step ltac:(apply steps_now).
  step ltac:(apply steps_completed).
  step ltac:(apply steps_log).
  step ltac:(apply steps_call).
  step ltac:(destruct (storage_upload env);
             [eapply triple_bind; [apply steps_report|intros ?; apply (steps_fail env)]|apply ret_same]).
  step ltac:(apply steps_completed).
  step ltac:(apply steps_log).
  step ltac:(apply steps_extract).
  apply triple_ret. intros w Hw. by cbn.
Qed.

Lemma steps_analyze_mode L lt txt mode k res :
  triple (T L) (analyze_mode env sid lt txt mode k res)
    (fun _ => T (L ++ (if runs mode then [running mode] else []))) failed.
Proof.
  unfold analyze_mode, runs.
  assert (Hrun : forall l,
    triple (T L)
      (logProgress env (js "Running " ++ mode ++ js " analysis...") NoDetails sid ;;;
       call (Analyze (contextualPrompt (prompt_text env mode l) lt txt)) ;;;
       match analyze env k with
       | Returned analysisText =>
           logProgressCompleted env (mode ++ js " analysis completed") NoDetails sid ;;;
           ret (S k, obj_set mode (AnalysisText analysisText) res)
       | Threw analysisError =>
           errorInfo <- handleError env analysisError (mode ++ js " Analysis") ;;
           when (truthy sid)
             (emitProgress env sid (js "Running " ++ mode ++ js " analysis")
                error (ErrorDetails errorInfo)) ;;;
           logProgress env (mode ++ js " analysis failed") (ErrorDetails errorInfo) [] ;;;
           ret (S k, obj_set mode
                       (ErrorEnvelope (error_message errorInfo) (error_timestamp errorInfo))
                       res)
       end)
      (fun _ => T (L ++ [running mode])) failed).
  { intros l.
    step ltac:(apply steps_log).
    step ltac:(apply steps_call).
    destruct (analyze env k).
    - step ltac:(apply steps_completed). by apply triple_ret.
    - step ltac:(apply steps_handleError).
      step ltac:(apply steps_error).
      step ltac:(apply steps_log_quiet). by apply triple_ret. }
  destruct (lookup_prompt mode) eqn:Hl.
  - apply Hrun.
  - apply Hrun.
  - step ltac:(apply steps_log_quiet). apply triple_ret. intros w Hw. by rewrite app_nil_r.
Qed.

Lemma steps_analyze_modes lt txt modes : forall L k res,
  triple (T L) (analyze_modes env sid lt txt modes k res)
    (fun _ => T (L ++ map running (List.filter runs modes))) failed.
Proof.
  induction modes as [|mode modes IH]; intros L k res; cbn [analyze_modes List.filter].
  - apply triple_ret. intros w Hw. by rewrite app_nil_r.
  - step ltac:(apply steps_analyze_mode).
    eapply triple_post; [|apply IH].
    intros ? w Hw. destruct (runs mode); cbn [map]; by rewrite <- ?app_assoc in *.
Qed.

Lemma steps_finish L c :
  sessionId c = sid ->
  triple (T L) (finish env c)
    (fun _ => T (L ++ js "Starting analysis..." :: map running (List.filter runs (analysisModes c))
                  ++ [js "Analysis completed, saving to database..."])) failed.
Proof.
  intros Hc. unfold finish. rewrite Hc.
  step ltac:(apply steps_log).
  step ltac:(destruct (insufficient _); [apply (steps_fail env)|apply ret_same]).
  step ltac:(apply steps_analyze_modes).
  step ltac:(apply steps_log).
  step ltac:(apply steps_call).
  step ltac:(destruct (db_insert env); [apply (steps_fail env)|apply ret_same]).
  step ltac:(apply steps_completed).
  apply triple_ret. intros w Hw. by rewrite <- !app_assoc in Hw.
Qed.

Lemma steps_body :
  triple (T []) (body env)
    (fun _ => T (steps_to_the_end
                   (List.filter runs
                      (split_on (chr ",")
                         (opt_or_str (get_analysisModes form) (js "standard")))))) failed.
Proof.
  unfold body. eapply triple_bind; [apply steps_prepare|]. intros c. cbv beta.
  intros w (Hc & Hm & Hw). revert w Hw. fold (triple (T [ js "Parsing form data..."; js "Converting file to buffer...";
                       js "Uploading to storage..."; js "Extracting text with Gemini..." ]) (finish env c) (fun _ => T (steps_to_the_end
                   (List.filter runs
                      (split_on (chr ",")
                         (opt_or_str (get_analysisModes form) (js "standard")))))) failed).
  eapply triple_post; [|by apply steps_finish].
  intros ? w Hw. by rewrite Hm in Hw.
Qed.

End Steps.

Lemma page_ids modes :
  steps_to_the_end modes
  = take 4 (map UploadPage.id (UploadPage.initializeProgress modes))
    ++ js "Starting analysis..."
       :: drop 4 (map UploadPage.id (UploadPage.initializeProgress modes)).
Proof.
  unfold steps_to_the_end, steps_before_analysis, UploadPage.initializeProgress.
  rewrite !map_app, map_map. cbn [map UploadPage.id app take drop]. reflexivity.
Qed.

(** X22.  A successful upload announces the steps of the page's progress
    list, and one more.  When the form carries a session id and the
    response is the success response, the steps of the [active] events
    appended to the queue of that session are, in order, the ids that
    [initializeProgress] lists for the requested modes the handler
    knows, with [Starting analysis...], which the page does not list,
    after the fourth. *)
Theorem successful_upload_announces_the_page_steps env w form sid f analysis s :
  formData env = Returned form ->
  get_sessionId form = Some sid ->
  sid <> [] ->
  fst (POST env w) = JsonOk f analysis s ->
  let modes :=
    List.filter runs
      (split_on (chr ",") (opt_or_str (get_analysisModes form) (js "standard"))) in
  let ids := map UploadPage.id (UploadPage.initializeProgress modes) in
  active_steps (appended sid w (snd (POST env w)))
  = take 4 ids ++ js "Starting analysis..." :: drop 4 ids.
Proof.
  intros Hform Hsid Hne Hok modes ids. subst ids. rewrite <- page_ids.
  assert (Ht : truthy sid = true) by by destruct sid.
  pose proof (steps_body env w sid Ht form Hform Hsid w) as H.
  fold modes in H. unfold POST in *.
  destruct (body env w) as [[r|r|e] w'] eqn:Hb; cbn [fst snd] in *.
  - destruct H as (evs & Hq & Ha); [by exists []; rewrite app_nil_r|].
    unfold appended. by rewrite Hq, drop_app_length.
  - assert (Hf : is_success r = false) by (apply H; exists []; by rewrite app_nil_r).
    by rewrite Hok in Hf.
  - discriminate Hok.
Qed.

Lemma successful_upload_announces_the_page_steps_witness :
  active_steps
    (appended (js "s1") UploadTraceSamples.world
       (snd (POST UploadTraceSamples.good_upload UploadTraceSamples.world)))
  = [ js "Parsing form data..."; js "Converting file to buffer...";
      js "Uploading to storage..."; js "Extracting text with Gemini...";
      js "Starting analysis..."; js "Running standard analysis...";
      js "Running renewal analysis...";
      js "Analysis completed, saving to database..." ].
Proof.
  etransitivity.
  - eapply (successful_upload_announces_the_page_steps
              UploadTraceSamples.good_upload UploadTraceSamples.world
              UploadTraceSamples.form (js "s1"));
      [reflexivity|reflexivity|done|vm_compute; reflexivity].
  - vm_compute. reflexivity.
Defined.

End UploadStepsFacts.
